(** * Photo mosaic generator: a shallow embedding of the assembly engine

    The development follows the two scripts of the repository,
    [generatePhotoMosaicByTile.py] (plain nearest match) and
    [generatePhotoMosaicCyclePhotos.py] (colour groups with a rotation
    cursor).  Functions shared verbatim by the two scripts
    ([get_average_rgb], [load_tile_images], the grid arithmetic and the
    paste loop) are modelled once; what differs lives in the modules
    [ByTile] and [CyclePhotos]. *)

From Stdlib Require Import ZArith List Bool Arith Lia String Ascii.
From Stdlib Require Import Floats Uint63 QArith Qround Permutation Sorted.
Import ListNotations.

Set Implicit Arguments.

Local Open Scope nat_scope.

(** ** Python exceptions and the result monad *)

(** The messages of the [ValueError]s that the scripts raise themselves,
    and of those raised by the libraries on the paths modelled here. *)
Inductive message : Type :=
| InvalidTileSource      (* "Invalid TILE_IMAGES_SOURCE: ... Must be a directory or a zip file." *)
| NoValidTiles           (* "No valid tile images were loaded from the source." *)
| TileListEmpty          (* "Cannot find best match tile: Tile list is empty." *)
| EmptyTileLoad          (* "Tile loading resulted in an empty list." *)
| NoAverageColors        (* "Cannot build KDTree: No average colors calculated for tiles." *)
| NoUniqueColors         (* "Cannot build KDTree: No unique average colors found." *)
| CannotGroupTiles       (* "Cannot group tiles: No average colors were processed." *)
| FloatNaNToInt          (* int(nan): "cannot convert float NaN to integer" *)
| BadImageSize.          (* PIL: "height and width must be > 0" *)

Inductive exn : Type :=
| ValueError (m : message)
| OverflowError          (* int(inf) *)
| ZeroDivisionError
| IndexError
| OSError                (* Image.open on a missing or undecodable file,
                            os.listdir on a directory that cannot be read *)
| BadZipFile             (* ZipFile(path) on a damaged archive *)
| MemoryError.           (* PIL on an image it cannot hold *)

Inductive result (A : Type) : Type :=
| Ok (a : A)
| Raise (e : exn).
Arguments Ok {A} a.
Arguments Raise {A} e.

Definition bind {A B} (r : result A) (k : A -> result B) : result B :=
  match r with
  | Ok a => k a
  | Raise e => Raise e
  end.

Notation "x <- e ;; k" := (bind e (fun x => k))
  (at level 61, e at next level, right associativity).
Notation "' p <- e ;; k" := (bind e (fun x => match x with p => k end))
  (at level 61, p pattern, e at next level, right associativity).

Definition is_ok {A} (r : result A) : bool :=
  match r with Ok _ => true | Raise _ => false end.

(** [l[i]] for a non-negative index. *)
Definition getitem {A} (l : list A) (i : nat) : result A :=
  match nth_error l i with
  | Some a => Ok a
  | None => Raise IndexError
  end.

(** ** Images *)

(** An (R, G, B) triple of Python integers. *)
Definition RGB : Type := (Z * Z * Z)%type.

Definition red (c : RGB) : Z := fst (fst c).
Definition green (c : RGB) : Z := snd (fst c).
Definition blue (c : RGB) : Z := snd c.

Definition RGB_eqb (a b : RGB) : bool :=
  (red a =? red b)%Z && (green a =? green b)%Z && (blue a =? blue b)%Z.

(** A decoded PIL image in mode RGB: its [size] and its raster.  The
    raster is only meaningful inside the bounds; [getpixel] is the checked
    access. *)
Record Image : Type := mkImage {
  width : nat;
  height : nat;
  pixels : nat -> nat -> RGB
}.

Definition in_bounds (im : Image) (x y : nat) : bool :=
  (x <? width im) && (y <? height im).

Definition getpixel (im : Image) (xy : nat * nat) : result RGB :=
  if in_bounds im (fst xy) (snd xy) then Ok (pixels im (fst xy) (snd xy))
  else Raise IndexError.

(** A black raster of a given size. *)
Definition blank (size : nat * nat) : Image :=
  mkImage (fst size) (snd size) (fun _ _ => (0, 0, 0)%Z).

(** [canvas.paste(im, (x0, y0))]: every pixel of the box that [im] covers
    is replaced by the pixel of [im]; nothing is blended and nothing
    outside the box changes. *)
Definition in_box (x0 y0 w h x y : nat) : bool :=
  (x0 <=? x) && (x <? x0 + w) && (y0 <=? y) && (y <? y0 + h).

Definition paste (canvas im : Image) (at_ : nat * nat) : Image :=
  mkImage (width canvas) (height canvas)
    (fun x y =>
       if in_box (fst at_) (snd at_) (width im) (height im) x y
       then pixels im (x - fst at_) (y - snd at_)
       else pixels canvas x y).

(** ** get_average_rgb *)

(** [np.array(image.convert('RGB'))]: the pixels, row after row. *)
Definition img_array (im : Image) : list RGB :=
  flat_map (fun y => map (fun x => pixels im x y) (seq 0 (width im)))
           (seq 0 (height im)).

Definition channel_sum (ch : RGB -> Z) (px : list RGB) : Z :=
  fold_right Z.add 0%Z (map ch px).

(** [np.mean(img_array, axis=(0, 1))] followed by [astype(int)].  The
    channel values are integers, so the sum is formed exactly (any image
    PIL can hold stays far below 2^53) and the truncation of the quotient
    is the integer quotient rounded toward zero, which is what is
    computed here. *)
Definition channel_mean (ch : RGB -> Z) (px : list RGB) : Z :=
  Z.quot (channel_sum ch px) (Z.of_nat (List.length px)).

Definition get_average_rgb (image : Image) : RGB :=
  let img := img_array image in
  (channel_mean red img, channel_mean green img, channel_mean blue img).

(** The wording of the specification: the arithmetic mean of a channel
    over every pixel, as a rational number, then truncated to an integer.
    The pixels are taken by their positions, [(x, y)] for every [x] below
    the width and every [y] below the height, each once.
    [sum_below n f] is [f 0 + ... + f (n - 1)]. *)
Fixpoint sum_below (n : nat) (f : nat -> Z) : Z :=
  match n with
  | 0 => 0%Z
  | S k => (sum_below k f + f k)%Z
  end.

Definition pixel_sum (ch : RGB -> Z) (image : Image) : Z :=
  sum_below (width image)
    (fun x => sum_below (height image) (fun y => ch (pixels image x y))).

Definition pixel_count (image : Image) : nat := width image * height image.

Definition arithmetic_mean (ch : RGB -> Z) (image : Image) : Q :=
  (inject_Z (pixel_sum ch image) / inject_Z (Z.of_nat (pixel_count image)))%Q.

Definition truncate (q : Q) : Z :=
  if Qle_bool 0 q then Qfloor q else Qceiling q.

Definition spec_average_color (image : Image) : RGB :=
  (truncate (arithmetic_mean red image),
   truncate (arithmetic_mean green image),
   truncate (arithmetic_mean blue image)).

(** ** Grid arithmetic *)


(** Python floats are IEEE binary64, which is what [PrimFloat.float] is. *)
Definition float_of_nat (n : nat) : float :=
  PrimFloat.of_uint63 (Uint63.of_Z (Z.of_nat n)).

(** The integer [s * m] scaled by [2^e]. *)
Definition signed_mantissa (s : bool) (m : positive) : Z :=
  if s then Z.neg m else Z.pos m.

(** [int(x)] on a float: the fractional part is dropped (rounding toward
    zero); NaN and the infinities have no integer value. *)
Definition py_int (x : float) : result Z :=
  match Prim2SF x with
  | S754_zero _ => Ok 0%Z
  | S754_finite s m e =>
      Ok (match e with
          | Z0 => signed_mantissa s m
          | Zpos p => (signed_mantissa s m * 2 ^ Zpos p)%Z
          | Zneg p => Z.quot (signed_mantissa s m) (2 ^ Zpos p)
          end)
  | S754_infinity _ => Raise OverflowError
  | S754_nan => Raise (ValueError FloatNaNToInt)
  end.

(** [a / b] on two Python ints that are image dimensions. *)
Definition true_divide (a b : nat) : result float :=
  if b =? 0 then Raise ZeroDivisionError
  else Ok (float_of_nat a / float_of_nat b)%float.

(** [max(1, int(base / tile * grid_resolution_factor))] *)
Definition grid_dimension (base tile : nat) (grid_resolution_factor : float)
  : result nat :=
  q <- true_divide base tile ;;
  n <- py_int (q * grid_resolution_factor)%float ;;
  Ok (Z.to_nat (Z.max 1 n)).

(** The mean of a channel as numpy forms it, in binary64: the values are
    added up as floats, the sum is divided by the count and [astype(int)]
    drops the fraction.  It serves to compare [channel_mean] with the
    floating-point computation on sample images. *)
Definition channel_mean_float (ch : RGB -> Z) (px : list RGB) : result Z :=
  let to_float (z : Z) := PrimFloat.of_uint63 (Uint63.of_Z z) in
  py_int (fold_left (fun acc p => acc + to_float (ch p)) px 0
          / float_of_nat (List.length px))%float.

(** The wording of the specification: the floor of a float. *)
Definition is_finite (x : float) : bool :=
  match Prim2SF x with
  | S754_zero _ | S754_finite _ _ _ => true
  | _ => false
  end.

Definition float_floor (x : float) : Z :=
  match Prim2SF x with
  | S754_finite s m e =>
      match e with
      | Z0 => signed_mantissa s m
      | Zpos p => (signed_mantissa s m * 2 ^ Zpos p)%Z
      | Zneg p => Z.div (signed_mantissa s m) (2 ^ Zpos p)
      end
  | _ => 0%Z
  end.

Definition spec_grid_dimension (base tile : nat) (factor : float) : nat :=
  Z.to_nat (Z.max 1 (float_floor (float_of_nat base / float_of_nat tile * factor)%float)).

(** ** File names *)

Definition lower_ascii (c : ascii) : ascii :=
  let n := nat_of_ascii c in
  if (65 <=? n) && (n <=? 90) then ascii_of_nat (n + 32) else c.

(** [s.lower()] on the ASCII range. *)
Fixpoint lower (s : string) : string :=
  match s with
  | EmptyString => EmptyString
  | String c s' => String (lower_ascii c) (lower s')
  end.

Definition startswith (s p : string) : bool := String.prefix p s.

Definition endswith (s suffix : string) : bool :=
  let n := String.length s in
  let k := String.length suffix in
  (k <=? n) && String.eqb (substring (n - k) k s) suffix.

(** [s.endswith((a, b, ...))] *)
Definition endswith_any (s : string) (suffixes : list string) : bool :=
  existsb (endswith s) suffixes.

Definition IMAGE_EXTENSIONS : list string :=
  [".png"; ".jpg"; ".jpeg"; ".bmp"; ".gif"; ".tiff"]%string.

Definition is_image_name (filename : string) : bool :=
  endswith_any (lower filename) IMAGE_EXTENSIONS.

(** The zip branch also ignores macOS metadata members. *)
Definition is_zip_image_name (filename : string) : bool :=
  is_image_name filename && negb (startswith filename "__MACOSX").

(** [os.path.join(a, b)] (posixpath). *)
Definition path_join (a b : string) : string :=
  if startswith b "/" then b
  else if String.eqb a "" || endswith a "/" then (a ++ b)%string
  else (a ++ "/" ++ b)%string.

(** ** The tile source, as the script observes it *)

(** What the operating system, [zipfile] and PIL answer.  For an image
    [None] stands for an exception raised while opening or decoding.
    Listing a directory and opening an archive can raise although
    [isdir] or [is_zipfile] said yes: for a directory without read
    permission [os.listdir] raises [PermissionError], an [OSError], and
    for an archive whose central directory is damaged [zipfile.ZipFile]
    raises [BadZipFile]; [None] stands for these.  [allocation_error]
    is [None] for a size that PIL can hold and otherwise the exception
    that creating an image of that size raises (sizes are C integers and
    memory is bounded).  [save] is [None] when
    [Path(output_path).parent.mkdir(parents=True, exist_ok=True)] and
    [mosaic_image.save(output_path)] both return, and otherwise the
    exception raised. *)
Record FileSystem : Type := {
  isdir : string -> bool;                           (* os.path.isdir *)
  listdir : string -> option (list string);         (* os.listdir *)
  is_zipfile : string -> bool;                      (* zipfile.is_zipfile *)
  namelist : string -> option (list string);        (* ZipFile(path).namelist() *)
  open_image : string -> option Image;              (* Image.open(path).convert('RGB') *)
  open_zip_image : string -> string -> option Image; (* Image.open(zf.open(name)).convert('RGB') *)
  allocation_error : nat * nat -> option exn;
  save : string -> Image -> option exn
}.

(** [Image.new('RGB', (w, h))]: a black canvas, when PIL can hold it. *)
Definition Image_new (fs : FileSystem) (size : nat * nat) : result Image :=
  match allocation_error fs size with
  | None => Ok (blank size)
  | Some e => Raise e
  end.

(** What the loader prints. *)
Inductive log_line : Type :=
| LoadingFromDirectory (source_path : string)
| LoadingFromZip (source_path : string)
| WarningSkippingFile (filename : string)
| WarningSkippingZipMember (filename : string).

Definition is_warning (l : log_line) : bool :=
  match l with
  | WarningSkippingFile _ | WarningSkippingZipMember _ => true
  | _ => false
  end.

Section Loading.

(** The raster that LANCZOS resampling of an image to a given size
    produces.  It is computed by PIL in floating point and is left
    open; only the size of the result is fixed by [resize]. *)
Variable resample : Image -> nat * nat -> nat -> nat -> RGB.

(** [img.resize(size, Image.Resampling.LANCZOS)] *)
Definition resize (fs : FileSystem) (img : Image) (size : nat * nat)
  : result Image :=
  if (0 <? fst size) && (0 <? snd size)
  then match allocation_error fs size with
       | None => Ok (mkImage (fst size) (snd size) (resample img size))
       | Some e => Raise e
       end
  else Raise (ValueError BadImageSize).

(** The body of the [try:] of the loading loops, up to the two
    [append]s. *)
Definition load_one (fs : FileSystem) (decoded : option Image)
    (tile_size : nat * nat) : result (Image * RGB) :=
  match decoded with
  | None => Raise OSError
  | Some img =>
      img' <- resize fs img tile_size ;;
      Ok (img', get_average_rgb img')
  end.

(** The loop state: [tiles], [avg_colors] and what was printed. *)
Definition load_state : Type := (list Image * list RGB * list log_line)%type.

(** One iteration of either loading loop. *)
Definition load_step (fs : FileSystem) (candidate : string -> bool)
    (decode : string -> option Image) (warning : string -> log_line)
    (tile_size : nat * nat) (st : load_state) (filename : string)
  : load_state :=
  let '(tiles, avg_colors, log) := st in
  if candidate filename then
    match load_one fs (decode filename) tile_size with
    | Ok (img, avg_color) => (tiles ++ [img], avg_colors ++ [avg_color], log)
    | Raise _ => (tiles, avg_colors, log ++ [warning filename])
    end
  else st.

(** [load_tile_images(source_path, tile_size)]: the printed lines and
    either [(tiles, avg_colors)] or the exception.  [os.listdir] and
    [zipfile.ZipFile] are called outside the [try:] of the loops: what
    they raise leaves the function. *)
Definition load_tile_images (fs : FileSystem) (source_path : string)
    (tile_size : nat * nat)
  : list log_line * result (list Image * list RGB) :=
  let finish (st : load_state) :=
    let '(tiles, avg_colors, log) := st in
    match tiles with
    | [] => (log, Raise (ValueError NoValidTiles))
    | _ :: _ => (log, Ok (tiles, avg_colors))
    end in
  if isdir fs source_path then
    match listdir fs source_path with
    | None => ([LoadingFromDirectory source_path], Raise OSError)
    | Some filenames =>
        finish (fold_left
                  (load_step fs is_image_name
                     (fun filename =>
                        open_image fs (path_join source_path filename))
                     WarningSkippingFile tile_size)
                  filenames
                  ([], [], [LoadingFromDirectory source_path]))
    end
  else if is_zipfile fs source_path then
    match namelist fs source_path with
    | None => ([LoadingFromZip source_path], Raise BadZipFile)
    | Some filenames =>
        finish (fold_left
                  (load_step fs is_zip_image_name
                     (open_zip_image fs source_path)
                     WarningSkippingZipMember tile_size)
                  filenames
                  ([], [], [LoadingFromZip source_path]))
    end
  else ([], Raise (ValueError InvalidTileSource)).

(** What listing the source gives: the names in a directory or in an
    archive, or the exception of [os.listdir] or [zipfile.ZipFile]. *)
Definition listing (fs : FileSystem) (source_path : string)
  : result (list string) :=
  if isdir fs source_path then
    match listdir fs source_path with
    | Some filenames => Ok filenames
    | None => Raise OSError
    end
  else if is_zipfile fs source_path then
    match namelist fs source_path with
    | Some filenames => Ok filenames
    | None => Raise BadZipFile
    end
  else Ok [].

(** The file names a source offers to the loop body, and the way each
    is decoded. *)
Definition candidates (fs : FileSystem) (source_path : string) : list string :=
  match listing fs source_path with
  | Raise _ => []
  | Ok filenames =>
      if isdir fs source_path then filter is_image_name filenames
      else if is_zipfile fs source_path
           then filter is_zip_image_name filenames
           else []
  end.

Definition decode (fs : FileSystem) (source_path filename : string)
  : option Image :=
  if isdir fs source_path then open_image fs (path_join source_path filename)
  else open_zip_image fs source_path filename.

Definition loads_ok (fs : FileSystem) (source_path : string)
    (tile_size : nat * nat) (filename : string) : bool :=
  is_ok (load_one fs (decode fs source_path filename) tile_size).

Definition valid_source (fs : FileSystem) (source_path : string) : bool :=
  isdir fs source_path || is_zipfile fs source_path.

(** A directory that can be listed, an archive that can be opened. *)
Definition readable_directory (fs : FileSystem) (source_path : string) : bool :=
  isdir fs source_path &&
  match listdir fs source_path with Some _ => true | None => false end.

Definition valid_archive (fs : FileSystem) (source_path : string) : bool :=
  is_zipfile fs source_path &&
  match namelist fs source_path with Some _ => true | None => false end.

(** The candidates that come through the [try:], with what is appended
    for each, and those that do not. *)
Definition survivors (fs : FileSystem) (source_path : string)
    (tile_size : nat * nat) : list (Image * RGB) :=
  flat_map (fun filename =>
              match load_one fs (decode fs source_path filename) tile_size with
              | Ok p => [p]
              | Raise _ => []
              end)
           (candidates fs source_path).

Definition skipped (fs : FileSystem) (source_path : string)
    (tile_size : nat * nat) : list string :=
  filter (fun filename => negb (loads_ok fs source_path tile_size filename))
         (candidates fs source_path).

(** What one loop appends for a list of file names. *)
Definition appended (fs : FileSystem) (candidate : string -> bool)
    (decode : string -> option Image)
    (tile_size : nat * nat) (names : list string) : list (Image * RGB) :=
  flat_map (fun filename =>
              match load_one fs (decode filename) tile_size with
              | Ok p => [p]
              | Raise _ => []
              end)
           (filter candidate names).

Definition warned (fs : FileSystem) (candidate : string -> bool)
    (decode : string -> option Image)
    (tile_size : nat * nat) (names : list string) : list string :=
  filter (fun filename =>
            negb (is_ok (load_one fs (decode filename) tile_size)))
         (filter candidate names).

End Loading.

(** ** The nearest-colour index *)

(** Squared Euclidean distance in RGB space.  The coordinates are
    integers, so comparing squared distances is comparing distances. *)
Definition dist2 (a b : RGB) : Z :=
  ((red a - red b) ^ 2 + (green a - green b) ^ 2 + (blue a - blue b) ^ 2)%Z.

(** [scipy.spatial.KDTree(data)] keeps the points it was built from. *)
Definition KDTree : Type := list RGB.

(** [tree.query(x, k=1)]: the position in [data] of the neighbour that
    was found, [None] when the call raises.  scipy is not part of the
    repository; the scripts are modelled over any such function. *)
Definition kd_query : Type := KDTree -> RGB -> option nat.

(** The contract of an exact nearest-neighbour query. *)
Definition exact_nearest (query : kd_query) : Prop :=
  forall (data : KDTree) (x : RGB) (i : nat),
    query data x = Some i ->
    exists c, nth_error data i = Some c /\
              forall j c', nth_error data j = Some c' -> (dist2 c x <= dist2 c' x)%Z.

(** Modelled from the spec: the NearestColorIndex of section 4.3, which
    the scripts obtain from scipy: an exhaustive scan that keeps a point
    at minimum distance.  [best] is the position and the point found so
    far, [i] the position of the head of [data]; [closer d d_best]
    decides whether a point at squared distance [d] replaces the best
    one. *)
Fixpoint scan_nearest (closer : Z -> Z -> bool) (x : RGB) (data : list RGB)
    (i : nat) (best : nat * RGB) : nat * RGB :=
  match data with
  | [] => best
  | c :: data' =>
      scan_nearest closer x data' (S i)
        (if closer (dist2 c x) (dist2 (snd best) x) then (i, c) else best)
  end.

(** Modelled from the spec: the query of the NearestColorIndex; it
    answers on every non-empty set of points. *)
Definition scan_index (closer : Z -> Z -> bool) : kd_query :=
  fun data x =>
    match data with
    | [] => None
    | c :: data' => Some (fst (scan_nearest closer x data' 1 (0, c)))
    end.

(** Modelled from the spec: the NearestColorIndex of section 4.3 (the
    scripts take scipy's KDTree for it), with ties going to the first
    point at minimum distance. *)
Definition nearest_color_index : kd_query := scan_index Z.ltb.

(** An index whose query always raises, to exercise the [except] paths. *)
Definition failing_index : kd_query := fun _ _ => None.

(** ** The paste loop *)

(** One call [mosaic_image.paste(best_tile, (paste_x, paste_y))], recorded
    with the grid cell [(r, c)] it was made for. *)
Record Paste : Type := mkPaste {
  cell : nat * nat;
  tile : Image;
  offset : nat * nat
}.

(** [for r in range(grid_h): for c in range(grid_w):] *)
Definition grid_cells (grid_w grid_h : nat) : list (nat * nat) :=
  flat_map (fun r => map (fun c => (r, c)) (seq 0 grid_w)) (seq 0 grid_h).

Fixpoint for_each {A St} (body : St -> A -> result St) (st : St) (xs : list A)
  : result St :=
  match xs with
  | [] => Ok st
  | x :: xs' => st' <- body st x ;; for_each body st' xs'
  end.

Section Assemble.

(** The selector of either script: it may read and update the state
    [Sel] that the loop carries from cell to cell. *)
Variable Sel : Type.
Variable select : RGB -> Sel -> result (Image * Sel).

(** The canvas, the selector's state and the calls to [paste] made so
    far. *)
Definition loop_state : Type := (Image * Sel * list Paste)%type.

Definition paint_cell (base_small_for_avg : Image) (tile_w tile_h : nat)
    (st : loop_state) (rc : nat * nat) : result loop_state :=
  let '(mosaic_image, sel, pastes) := st in
  let '(r, c) := rc in
  cell_avg_color <- getpixel base_small_for_avg (c, r) ;;
  '(best_tile, sel') <- select cell_avg_color sel ;;
  let paste_x := c * tile_w in
  let paste_y := r * tile_h in
  Ok (paste mosaic_image best_tile (paste_x, paste_y), sel',
      pastes ++ [mkPaste (r, c) best_tile (paste_x, paste_y)]).

(** Steps "create mosaic canvas" and "assemble the mosaic". *)
Definition assemble (fs : FileSystem) (base_small_for_avg : Image)
    (grid_w grid_h tile_w tile_h : nat) (sel : Sel) : result loop_state :=
  let mosaic_width := grid_w * tile_w in
  let mosaic_height := grid_h * tile_h in
  mosaic_image <- Image_new fs (mosaic_width, mosaic_height) ;;
  for_each (paint_cell base_small_for_avg tile_w tile_h)
           (mosaic_image, sel, []) (grid_cells grid_w grid_h).

End Assemble.

(** What a run of [generate_mosaic] leaves behind: the grid it computed,
    the canvas it saves and the pastes it made. *)
Record Mosaic : Type := mkMosaic {
  grid : nat * nat;
  mosaic_image : Image;
  pastes : list Paste
}.

(** How a call of [generate_mosaic] ends.  The [try:] runs to its end and
    the mosaic is saved; or an exception reaches one of the [except]
    clauses, which prints it, and then the function returns (the
    nearest-match script) or calls [sys.exit(1)] (the cycling script). *)
Inductive outcome : Type :=
| Saved (mos : Mosaic)
| Reported (e : exn)
| Exited (e : exn).

(** [Path(output_path).parent.mkdir(parents=True, exist_ok=True)] and
    [mosaic_image.save(output_path)]. *)
Definition save_mosaic (fs : FileSystem) (output_path : string)
    (mosaic_image : Image) : result unit :=
  match save fs output_path mosaic_image with
  | None => Ok tt
  | Some e => Raise e
  end.

Definition open_base_image (fs : FileSystem) (base_image_path : string)
  : result Image :=
  match open_image fs base_image_path with
  | Some img => Ok img
  | None => Raise OSError
  end.

(** ** generatePhotoMosaicByTile.py *)

Module ByTile.
Section Script.

Variable resample : Image -> nat * nat -> nat -> nat -> RGB.
Variable query : kd_query.

Definition find_best_match_tile (target_avg_color : RGB)
    (tile_avg_colors_kdtree : KDTree) (tiles : list Image) : result Image :=
  match query tile_avg_colors_kdtree target_avg_color with
  | None =>
      match tiles with
      | t :: _ => Ok t
      | [] => Raise (ValueError TileListEmpty)
      end
  | Some index => getitem tiles index
  end.

(** The selector as the paste loop calls it; it has no state. *)
Definition select (tile_color_kdtree : KDTree) (tiles : list Image)
    (cell_avg_color : RGB) (u : unit) : result (Image * unit) :=
  best_tile <- find_best_match_tile cell_avg_color tile_color_kdtree tiles ;;
  Ok (best_tile, u).

(** The [try:] block of [generate_mosaic]. *)
Definition try_generate_mosaic (fs : FileSystem)
    (base_image_path tile_images_source output_path : string)
    (tile_size : nat * nat) (grid_resolution_factor : float) : result Mosaic :=
  base_image <- open_base_image fs base_image_path ;;
  let '(base_width, base_height) := (width base_image, height base_image) in
  '(tiles, tile_avg_colors) <-
     snd (load_tile_images resample fs tile_images_source tile_size) ;;
  _ <- match tile_avg_colors with
       | [] => Raise (ValueError NoAverageColors)
       | _ :: _ => Ok tt
       end ;;
  let tile_color_kdtree : KDTree := tile_avg_colors in
  let '(tile_w, tile_h) := tile_size in
  grid_w <- grid_dimension base_width tile_w grid_resolution_factor ;;
  grid_h <- grid_dimension base_height tile_h grid_resolution_factor ;;
  base_small_for_avg <- resize resample fs base_image (grid_w, grid_h) ;;
  '(mosaic_image, _, pastes) <-
     assemble (select tile_color_kdtree tiles) fs base_small_for_avg
              grid_w grid_h tile_w tile_h tt ;;
  _ <- save_mosaic fs output_path mosaic_image ;;
  Ok (mkMosaic (grid_w, grid_h) mosaic_image pastes).

(** [generate_mosaic]: every [except] clause prints the error and lets
    the function return. *)
Definition generate_mosaic (fs : FileSystem)
    (base_image_path tile_images_source output_path : string)
    (tile_size : nat * nat) (grid_resolution_factor : float) : outcome :=
  match try_generate_mosaic fs base_image_path tile_images_source output_path
          tile_size grid_resolution_factor with
  | Ok mos => Saved mos
  | Raise e => Reported e
  end.

End Script.
End ByTile.

(** ** generatePhotoMosaicCyclePhotos.py *)

Module CyclePhotos.

(** A value of [color_to_indices_map]: ['indices'] and ['next_idx']. *)
Record Group : Type := mkGroup {
  indices : list nat;
  next_idx : nat
}.

(** The dict [color_to_indices_map].  A Python dict keeps its keys in
    insertion order, and [list(color_to_indices_map.keys())] depends on
    it, so the dict is an association list with distinct keys. *)
Definition GroupMap : Type := list (RGB * Group).

Fixpoint get (m : GroupMap) (k : RGB) : option Group :=
  match m with
  | [] => None
  | (k', g) :: m' => if RGB_eqb k' k then Some g else get m' k
  end.

Definition contains (m : GroupMap) (k : RGB) : bool :=
  match get m k with Some _ => true | None => false end.

(** [m[k] = g]: an existing key keeps its place, a new one goes last. *)
Fixpoint set (m : GroupMap) (k : RGB) (g : Group) : GroupMap :=
  match m with
  | [] => [(k, g)]
  | (k', g') :: m' =>
      if RGB_eqb k' k then (k', g) :: m' else (k', g') :: set m' k g
  end.

Definition keys (m : GroupMap) : list RGB := map fst m.

(** The body of the grouping loop of step 3. *)
Definition group_step (m : GroupMap) (entry : nat * RGB) : GroupMap :=
  let '(i, avg_color_tuple) := entry in
  let m1 := if contains m avg_color_tuple then m
            else set m avg_color_tuple (mkGroup [] 0) in
  match get m1 avg_color_tuple with
  | Some g => set m1 avg_color_tuple (mkGroup (indices g ++ [i]) (next_idx g))
  | None => m1
  end.

Definition enumerate {A} (l : list A) : list (nat * A) :=
  combine (seq 0 (List.length l)) l.

Definition group_tiles (tile_avg_colors_list : list RGB) : GroupMap :=
  fold_left group_step (enumerate tile_avg_colors_list) [].

Section Script.

Variable resample : Image -> nat * nat -> nat -> nat -> RGB.
Variable query : kd_query.

(** The function returns the tile (or raises) and leaves the dict in
    the state given second. *)
Definition find_best_match_tile (target_avg_color : RGB)
    (unique_color_kdtree : KDTree) (unique_colors_list : list RGB)
    (tiles : list Image) (color_to_indices_map : GroupMap)
  : result Image * GroupMap :=
  match query unique_color_kdtree target_avg_color with
  | None =>
      match tiles with
      | [] => (Raise (ValueError TileListEmpty), color_to_indices_map)
      | t0 :: _ =>
          match unique_colors_list with
          | first_group_key :: _ =>
              match get color_to_indices_map first_group_key with
              | Some first_group =>
                  match indices first_group with
                  | i0 :: _ => (getitem tiles i0, color_to_indices_map)
                  | [] => (Ok t0, color_to_indices_map)
                  end
              | None => (Ok t0, color_to_indices_map)
              end
          | [] => (Ok t0, color_to_indices_map)
          end
      end
  | Some unique_color_index =>
      match getitem unique_colors_list unique_color_index with
      | Raise e => (Raise e, color_to_indices_map)
      | Ok matched_unique_color =>
          match get color_to_indices_map matched_unique_color with
          | None => (getitem tiles 0, color_to_indices_map)
          | Some group_info =>
              match indices group_info with
              | [] => (getitem tiles 0, color_to_indices_map)
              | _ :: _ =>
                  let original_tile_indices := indices group_info in
                  let current_group_idx := next_idx group_info in
                  match getitem original_tile_indices current_group_idx with
                  | Raise e => (Raise e, color_to_indices_map)
                  | Ok selected_tile_original_index =>
                      let m' :=
                        set color_to_indices_map matched_unique_color
                          (mkGroup original_tile_indices
                             ((current_group_idx + 1)
                                mod List.length original_tile_indices)) in
                      (getitem tiles selected_tile_original_index, m')
                  end
              end
          end
      end
  end.

(** The selector as the paste loop calls it. *)
Definition select (unique_color_kdtree : KDTree)
    (unique_colors_list : list RGB) (tiles : list Image)
    (cell_avg_color : RGB) (m : GroupMap) : result (Image * GroupMap) :=
  let '(r, m') := find_best_match_tile cell_avg_color unique_color_kdtree
                    unique_colors_list tiles m in
  best_tile <- r ;; Ok (best_tile, m').

(** The [try:] block of [generate_mosaic].  The array of the unique
    colours always has the shape [(N, 3)] that the second check before
    the KDTree asks for: its rows are the triples of [get_average_rgb]. *)
Definition try_generate_mosaic (fs : FileSystem)
    (base_image_path tile_images_source output_path : string)
    (tile_size : nat * nat) (grid_resolution_factor : float) : result Mosaic :=
  base_image <- open_base_image fs base_image_path ;;
  let '(base_width, base_height) := (width base_image, height base_image) in
  '(tiles, tile_avg_colors_list) <-
     snd (load_tile_images resample fs tile_images_source tile_size) ;;
  _ <- match tiles with
       | [] => Raise (ValueError EmptyTileLoad)
       | _ :: _ => Ok tt
       end ;;
  let color_to_indices_map := group_tiles tile_avg_colors_list in
  _ <- match color_to_indices_map with
       | [] => Raise (ValueError CannotGroupTiles)
       | _ :: _ => Ok tt
       end ;;
  let unique_colors_list := keys color_to_indices_map in
  _ <- match unique_colors_list with
       | [] => Raise (ValueError NoUniqueColors)
       | _ :: _ => Ok tt
       end ;;
  let unique_color_kdtree : KDTree := unique_colors_list in
  let '(tile_w, tile_h) := tile_size in
  grid_w <- grid_dimension base_width tile_w grid_resolution_factor ;;
  grid_h <- grid_dimension base_height tile_h grid_resolution_factor ;;
  base_small_for_avg <- resize resample fs base_image (grid_w, grid_h) ;;
  '(mosaic_image, _, pastes) <-
     assemble (select unique_color_kdtree unique_colors_list tiles) fs
              base_small_for_avg grid_w grid_h tile_w tile_h
              color_to_indices_map ;;
  _ <- save_mosaic fs output_path mosaic_image ;;
  Ok (mkMosaic (grid_w, grid_h) mosaic_image pastes).

(** [generate_mosaic]: every [except] clause prints the error and ends
    in [sys.exit(1)]. *)
Definition generate_mosaic (fs : FileSystem)
    (base_image_path tile_images_source output_path : string)
    (tile_size : nat * nat) (grid_resolution_factor : float) : outcome :=
  match try_generate_mosaic fs base_image_path tile_images_source output_path
          tile_size grid_resolution_factor with
  | Ok mos => Saved mos
  | Raise e => Exited e
  end.

(** The tiles returned by a run of selections, one per target colour,
    threading the dict through; it stops at the first exception. *)
Fixpoint select_all (unique_color_kdtree : KDTree)
    (unique_colors_list : list RGB) (tiles : list Image)
    (targets : list RGB) (m : GroupMap) : result (list Image) * GroupMap :=
  match targets with
  | [] => (Ok [], m)
  | x :: targets' =>
      match find_best_match_tile x unique_color_kdtree unique_colors_list
              tiles m with
      | (Raise e, m') => (Raise e, m')
      | (Ok t, m') =>
          match select_all unique_color_kdtree unique_colors_list tiles
                  targets' m' with
          | (Raise e, m'') => (Raise e, m'')
          | (Ok ts, m'') => (Ok (t :: ts), m'')
          end
      end
  end.

End Script.
End CyclePhotos.

(** ** Sample inputs *)

(** A 2 x 2 image, three pixels (10, 20, 30) and one (13, 20, 31). *)
Definition sample_image : Image :=
  mkImage 2 2 (fun x y => if (x =? 1) && (y =? 1) then (13, 20, 31)%Z
                          else (10, 20, 30)%Z).

(** 2^1023, a finite positive factor; ten times it is not finite. *)
Definition huge_factor : float := 0x1p1023%float.

(** 0.1 as Python reads it. *)
Definition one_tenth : float := 0x1.999999999999ap-4%float.

(** Nearest-pixel resampling, to run the scripts on sample inputs. *)
Definition nearest_pixel (img : Image) (size : nat * nat) (x y : nat) : RGB :=
  pixels img (x * width img / fst size) (y * height img / snd size).

Definition solid (w h : nat) (c : RGB) : Image := mkImage w h (fun _ _ => c).

Definition RED : RGB := (255, 0, 0)%Z.
Definition BLUE : RGB := (0, 0, 255)%Z.

(** Red on the left half, blue on the right half. *)
Definition red_blue (w h : nat) : Image :=
  mkImage w h (fun x _ => if 2 * x <? w then RED else BLUE).

(** A red tile with one darker corner pixel; its average is not [RED]. *)
Definition reddish : Image :=
  mkImage 4 4 (fun x y => if (x =? 0) && (y =? 0) then (15, 0, 0)%Z else RED).

(** A directory [tiles] of three images, one undecodable image and a
    text file; a directory [locked] that cannot be listed; an archive
    [tiles.zip]; an archive [empty.zip] without a usable image; an
    archive [damaged.zip] that cannot be opened; and the base image
    [base.png].  Images of more than 4096 pixels a side cannot be held,
    and nothing can be saved under [/proc/]. *)
Definition sample_fs : FileSystem := {|
  isdir := fun p => String.eqb p "tiles" || String.eqb p "locked";
  listdir := fun p =>
    if String.eqb p "tiles"
    then Some ["a.png"; "notes.txt"; "b.JPG"; "broken.gif"; "c.jpeg"]%string
    else None;
  is_zipfile := fun p =>
    String.eqb p "tiles.zip" || String.eqb p "empty.zip" ||
    String.eqb p "damaged.zip";
  namelist := fun p =>
    if String.eqb p "tiles.zip"
    then Some ["__MACOSX/._x.png"; "x.png"; "sub/y.bmp"]%string
    else if String.eqb p "empty.zip" then Some ["readme.md"; "bad.png"]%string
    else None;
  open_image := fun p =>
    if String.eqb p "tiles/a.png" then Some (solid 4 4 RED)
    else if String.eqb p "tiles/b.JPG" then Some (solid 6 2 BLUE)
    else if String.eqb p "tiles/c.jpeg" then Some (solid 2 2 RED)
    else if String.eqb p "base.png" then Some (red_blue 4 2)
    else None;
  open_zip_image := fun z name =>
    if String.eqb z "tiles.zip" then
      if String.eqb name "x.png" then Some (solid 4 4 BLUE)
      else if String.eqb name "sub/y.bmp" then Some reddish
      else None
    else None;
  allocation_error := fun size =>
    if (fst size <=? 4096) && (snd size <=? 4096) then None else Some MemoryError;
  save := fun output_path _ =>
    if startswith output_path "/proc/" then Some OSError else None
|}.

(** ** Vocabulary of the statements *)

(** A comparison of squared distances that a scan may use to replace
    its best point: it never prefers a point that is farther away. *)
Definition closer_ok (closer : Z -> Z -> bool) : Prop :=
  forall d d_best : Z,
    if closer d d_best then (d <= d_best)%Z else (d_best <= d)%Z.

(** All tile indices held by the groups, group after group. *)
Definition all_indices (m : CyclePhotos.GroupMap) : list nat :=
  flat_map (fun cg => CyclePhotos.indices (snd cg)) m.

(** The state of the grouping loop after the colours [seen]: the keys
    are distinct, every colour seen has a group, and the group of a colour
    lists, in increasing order, the positions at which it was seen; no
    cursor has moved. *)
Definition groups_of (seen : list RGB) (m : CyclePhotos.GroupMap) : Prop :=
  NoDup (CyclePhotos.keys m) /\
  (forall i c, nth_error seen i = Some c -> CyclePhotos.contains m c = true) /\
  (forall c g, CyclePhotos.get m c = Some g ->
     CyclePhotos.next_idx g = 0 /\
     CyclePhotos.indices g <> [] /\
     StronglySorted lt (CyclePhotos.indices g) /\
     forall i, In i (CyclePhotos.indices g) <-> nth_error seen i = Some c).

(** Every index held by a group points into the tile list. *)
Definition indices_in_range (tiles : list Image) (m : CyclePhotos.GroupMap) : Prop :=
  forall c g i, CyclePhotos.get m c = Some g -> In i (CyclePhotos.indices g) ->
                i < List.length tiles.

(** The list [l] read from position [n] on and then from its start. *)
Definition rotate {A} (n : nat) (l : list A) : list A := skipn n l ++ firstn n l.

(** The query for [x] is answered with the position of colour [c]. *)
Definition resolves_to (query : kd_query) (unique_color_kdtree : KDTree)
    (unique_colors_list : list RGB) (c x : RGB) : Prop :=
  exists j, query unique_color_kdtree x = Some j /\
            nth_error unique_colors_list j = Some c.

(** The wording of the specification: the first tile, in load order,
    whose average colour is [c]. *)
Fixpoint first_with_color (tiles : list Image) (avg_colors : list RGB) (c : RGB)
  : option Image :=
  match tiles, avg_colors with
  | t :: tiles', a :: avg_colors' =>
      if RGB_eqb a c then Some t else first_with_color tiles' avg_colors' c
  | _, _ => None
  end.

(** The pixel [(x, y)] lies in the box that a paste writes. *)
Definition covers (p : Paste) (x y : nat) : bool :=
  in_box (fst (offset p)) (snd (offset p)) (width (tile p)) (height (tile p)) x y.

Definition apply_paste (canvas : Image) (p : Paste) : Image :=
  paste canvas (tile p) (offset p).

(** The canvas of a mosaic is tiled exactly by its pastes: the size is
    the grid times the tile size; there is one paste per grid cell, made
    in row-major order, of a tile of the tile size at the cell's offset;
    two pastes never write the same pixel; the pixels written are those of
    the canvas; and every pixel shows the tile pasted over it. *)
Definition exact_tiling (tile_w tile_h : nat) (mos : Mosaic) : Prop :=
  let grid_w := fst (grid mos) in
  let grid_h := snd (grid mos) in
  let canvas := mosaic_image mos in
  (width canvas, height canvas) = (grid_w * tile_w, grid_h * tile_h) /\
  map cell (pastes mos) = grid_cells grid_w grid_h /\
  NoDup (map cell (pastes mos)) /\
  (forall p, In p (pastes mos) ->
     offset p = (snd (cell p) * tile_w, fst (cell p) * tile_h) /\
     (width (tile p), height (tile p)) = (tile_w, tile_h)) /\
  (forall p q x y, In p (pastes mos) -> In q (pastes mos) ->
     covers p x y = true -> covers q x y = true -> p = q) /\
  (forall x y, in_bounds canvas x y = true <->
               exists p, In p (pastes mos) /\ covers p x y = true) /\
  (forall p x y, In p (pastes mos) -> covers p x y = true ->
     pixels canvas x y =
     pixels (tile p) (x - fst (offset p)) (y - snd (offset p))).

(** The tiles that a selector hands out for a list of target colours,
    asked one after the other; the selector's state goes from each call
    to the next. *)
Fixpoint selections {Sel : Type} (select : RGB -> Sel -> result (Image * Sel))
    (targets : list RGB) (s : Sel) : result (list Image) :=
  match targets with
  | [] => Ok []
  | x :: targets' =>
      '(t, s') <- select x s ;;
      ts <- selections select targets' s' ;;
      Ok (t :: ts)
  end.

(** The colours of the grid cells in the reduced base image, row after
    row: the targets of the selections of a run. *)
Definition cell_colors (base_small_for_avg : Image) (grid_w grid_h : nat)
  : list RGB :=
  map (fun rc => pixels base_small_for_avg (snd rc) (fst rc))
      (grid_cells grid_w grid_h).

(** A mosaic shows a list of tiles: they are the tiles pasted, in this
    order, and the box of the k-th grid cell holds, pixel by pixel, the
    k-th of them. *)
Definition shows (tile_w tile_h : nat) (selected : list Image) (mos : Mosaic)
  : Prop :=
  map tile (pastes mos) = selected /\
  forall k r c t dx dy,
    nth_error (grid_cells (fst (grid mos)) (snd (grid mos))) k = Some (r, c) ->
    nth_error selected k = Some t ->
    dx < tile_w -> dy < tile_h ->
    pixels (mosaic_image mos) (c * tile_w + dx) (r * tile_h + dy) = pixels t dx dy.

(** A mosaic as a selector paints it: the canvas is tiled exactly, and
    what it shows are the tiles that the selector, started in state [s],
    hands out for the colours of the grid cells, all of them tiles that
    were loaded. *)
Definition painted_by {Sel : Type} (select : RGB -> Sel -> result (Image * Sel))
    (s : Sel) (base_small_for_avg : Image) (tiles : list Image)
    (tile_w tile_h : nat) (mos : Mosaic) : Prop :=
  exact_tiling tile_w tile_h mos /\
  exists selected,
    selections select
      (cell_colors base_small_for_avg (fst (grid mos)) (snd (grid mos))) s
    = Ok selected /\
    Forall (fun t => In t tiles) selected /\
    shows tile_w tile_h selected mos.

(** The base image and its grid, as [generate_mosaic] computes them. *)
Definition grid_of (fs : FileSystem) (base_image_path : string)
    (tile_size : nat * nat) (grid_resolution_factor : float) : result (nat * nat) :=
  base_image <- open_base_image fs base_image_path ;;
  grid_w <- grid_dimension (width base_image) (fst tile_size) grid_resolution_factor ;;
  grid_h <- grid_dimension (height base_image) (snd tile_size) grid_resolution_factor ;;
  Ok (grid_w, grid_h).

(** ** More sample inputs *)

(** The loader on the sample sources: the sizes and colours of what it
    returns, and what it prints. *)
Definition load_summary (out : list log_line * result (list Image * list RGB))
  : list log_line * result (list (nat * nat) * list RGB) :=
  (fst out,
   match snd out with
   | Ok (tiles, avg_colors) =>
       Ok (map (fun t => (width t, height t)) tiles, avg_colors)
   | Raise e => Raise e
   end).

Definition cycling_tiles : list Image :=
  [solid 2 2 RED; solid 2 2 BLUE; solid 3 3 RED; solid 4 4 RED].

(** A dict whose first key is [BLUE]. *)
Definition blue_first_map : CyclePhotos.GroupMap :=
  [(BLUE, CyclePhotos.mkGroup [1] 0); (RED, CyclePhotos.mkGroup [0; 2; 3] 0)].

(** The same dict as the script builds for colours RED, BLUE, RED, RED,
    after one selection in the red group. *)
Definition red_cursor_1 : CyclePhotos.GroupMap :=
  [(RED, CyclePhotos.mkGroup [0; 2; 3] 1); (BLUE, CyclePhotos.mkGroup [1] 0)].

Definition reddish_targets : list RGB :=
  [(250, 3, 3); (200, 40, 0); (255, 0, 0)]%Z.

(** Two tiles with the same average colour and different rasters. *)
Definition dark_light : Image :=
  mkImage 2 1 (fun x _ => if x =? 0 then (10, 0, 0)%Z else (20, 0, 0)%Z).

Definition light_dark : Image :=
  mkImage 2 1 (fun x _ => if x =? 0 then (20, 0, 0)%Z else (10, 0, 0)%Z).

Definition mosaic_or_blank (o : outcome) : Mosaic :=
  match o with
  | Saved mos => mos
  | Reported _ | Exited _ => mkMosaic (0, 0) (blank (0, 0)) []
  end.

(** The nearest-match script on the sample base image (4 x 2, red left
    and blue right) with tiles of 2 x 2. *)
Definition sample_mosaic : Mosaic :=
  mosaic_or_blank
    (ByTile.generate_mosaic nearest_pixel nearest_color_index sample_fs
       "base.png" "tiles" "out/mosaic.png" (2, 2) 1%float).

(** The cycling script on the same inputs with twice the resolution. *)
Definition sample_cycled_mosaic : Mosaic :=
  mosaic_or_blank
    (CyclePhotos.generate_mosaic nearest_pixel nearest_color_index sample_fs
       "base.png" "tiles" "out/mosaic.png" (2, 2) 2%float).

(** * Further parts of the scripts *)

(** ** hex_to_rgb *)

(** Colour codes are ASCII: a string holds one character per element, so
    that [String.length] is [len]. *)

(** The value of a hexadecimal digit. *)
Definition hex_digit (c : ascii) : option Z :=
  let n := nat_of_ascii c in
  if (48 <=? n) && (n <=? 57) then Some (Z.of_nat (n - 48))
  else if (97 <=? n) && (n <=? 102) then Some (Z.of_nat (n - 87))
  else if (65 <=? n) && (n <=? 70) then Some (Z.of_nat (n - 55))
  else None.

(** [s.lstrip('#')]: every leading ['#'] goes. *)
Fixpoint lstrip_hash (s : string) : string :=
  match s with
  | String c s' => if Ascii.eqb c "#" then lstrip_hash s' else s
  | EmptyString => s
  end.

(** What a call of [hex_to_rgb] ends in: the tuple, the [ValueError] for
    the format that the function raises itself, or the [ValueError] that
    [int(_, 16)] raises. *)
Inductive hex_result : Type :=
| HexOk (rgb : RGB)
| HexInvalidFormat
| HexInvalidLiteral.

Section HexToRgb.

(** [int(s, 16)] on a string that is not two hexadecimal digits; [None]
    stands for its [ValueError].  Python also reads a sign and surrounding
    white space there; that part is left open. *)
Variable int16_other : string -> option Z.

(** [int(s, 16)] *)
Definition int16 (s : string) : option Z :=
  match s with
  | String a (String b EmptyString) =>
      match hex_digit a, hex_digit b with
      | Some x, Some y => Some (16 * x + y)%Z
      | _, _ => int16_other s
      end
  | _ => int16_other s
  end.

Definition hex_to_rgb (hex_color : string) : hex_result :=
  let hex_color := lstrip_hash hex_color in
  if negb (String.length hex_color =? 6) then HexInvalidFormat
  else
    match int16 (substring 0 2 hex_color) with
    | None => HexInvalidLiteral
    | Some r =>
        match int16 (substring 2 2 hex_color) with
        | None => HexInvalidLiteral
        | Some g =>
            match int16 (substring 4 2 hex_color) with
            | None => HexInvalidLiteral
            | Some b => HexOk (r, g, b)
            end
        end
    end.

End HexToRgb.

(** The values of [PROFESSIONAL_PALETTE_HEX], in the order of the dict. *)
Definition PROFESSIONAL_PALETTE_HEX : list string :=
  ["#E34234"; "#B22222"; "#8B0000"; "#CD5C5C";
   "#F97306"; "#E97451";
   "#FFF44F"; "#F6A623"; "#C5A059";
   "#008878"; "#507D2A"; "#808000"; "#50C878";
   "#3F51B5"; "#00A6D6"; "#6A7BA2"; "#0077FF";
   "#6A0DAD"; "#CCCCFF"; "#915F6D";
   "#FFFFFF"; "#1C1C1C"; "#404958"; "#C0C0C0"]%string.

(** [n] times ['#']. *)
Fixpoint hashes (n : nat) : string :=
  match n with
  | 0 => EmptyString
  | S n' => String "#" (hashes n')
  end.

(** A channel of a colour lies between two bounds. *)
Definition channels_within (lo hi : Z) (c : RGB) : Prop :=
  (lo <= red c <= hi)%Z /\ (lo <= green c <= hi)%Z /\ (lo <= blue c <= hi)%Z.

(** An image of colour [c1] left of column [split] and [c2] from there. *)
Definition two_colors (w h split : nat) (c1 c2 : RGB) : Image :=
  mkImage w h (fun x _ => if x <? split then c1 else c2).

(** The mean of [k] times [a] and [n - k] times [b], truncated. *)
Definition weighted_mean (k n : nat) (a b : Z) : Z :=
  Z.quot (Z.of_nat k * a + Z.of_nat (n - k) * b) (Z.of_nat n).

(** How many tiles a call of [load_tile_images] returned. *)
Definition loaded_count (out : list log_line * result (list Image * list RGB)) : nat :=
  match snd out with
  | Ok (tiles, _) => List.length tiles
  | Raise _ => 0
  end.

Definition warning_count (out : list log_line * result (list Image * list RGB)) : nat :=
  List.length (filter is_warning (fst out)).

(** ** Vocabulary for the selectors *)

(** A query only ever answers with a position of its data. *)
Definition answers_in_range (query : kd_query) : Prop :=
  forall (data : KDTree) (x : RGB) (j : nat),
    query data x = Some j -> j < List.length data.

(** The state of the dict that the cycling selector relies on: in every
    group the cursor points into the group's list, and the list points
    into the tile list. *)
Definition cursors_in_range (tiles : list Image) (m : CyclePhotos.GroupMap) : Prop :=
  forall c g, CyclePhotos.get m c = Some g ->
    CyclePhotos.next_idx g < List.length (CyclePhotos.indices g) /\
    forall i, In i (CyclePhotos.indices g) -> i < List.length tiles.

(** The colours of a list without repeats, in the order of their first
    appearance. *)
Definition first_occurrences (colors : list RGB) : list RGB :=
  fold_left (fun seen c => if existsb (RGB_eqb c) seen then seen else seen ++ [c])
            colors [].

(** ** Vocabulary for whole runs *)


(** A call ends as the steps around its paste loop decide, in their
    order: opening the base image, loading the tiles, computing the grid,
    holding the base image reduced to the grid, holding the canvas, and,
    after the loop, saving.  The first of them that raises is what the
    [except] clauses get ([handled] says how they end the call); when none
    does, a mosaic of the grid has been saved. *)
Definition ends_as_prepared (handled : exn -> outcome) (fs : FileSystem)
    (base_image_path output_path : string) (tile_size : nat * nat)
    (loaded : result (list Image * list RGB)) (grid_or_error : result (nat * nat))
    (run : outcome) : Prop :=
  match open_base_image fs base_image_path with
  | Raise e => run = handled e
  | Ok _ =>
      match loaded with
      | Raise e => run = handled e
      | Ok _ =>
          match grid_or_error with
          | Raise e => run = handled e
          | Ok (grid_w, grid_h) =>
              match allocation_error fs (grid_w, grid_h) with
              | Some e => run = handled e
              | None =>
                  match allocation_error fs (grid_w * fst tile_size,
                                             grid_h * snd tile_size) with
                  | Some e => run = handled e
                  | None =>
                      exists canvas ps,
                        match save fs output_path canvas with
                        | Some e => run = handled e
                        | None => run = Saved (mkMosaic (grid_w, grid_h) canvas ps)
                        end
                  end
              end
          end
      end
  end.

(** The cycling script ends a failed call in [sys.exit(1)] where the
    nearest-match script returns. *)
Definition exits_where_reported (o : outcome) : outcome :=
  match o with
  | Saved mos => Saved mos
  | Reported e | Exited e => Exited e
  end.

(** ** adjustTilesBasic6Colors.py *)

(** File names are the strings that [os.listdir] returns, without a
    directory part.  The extensions and the colour names are ASCII, and
    no other character becomes one of their letters in lower case, so the
    tests below read the same on the bytes of a name. *)

Module AdjustTiles.

Definition INPUT_DIR : string := "tiles_input".
Definition OUTPUT_DIR : string := "tiles_output".

Definition SUPPORTED_EXTENSIONS : list string :=
  [".png"; ".jpg"; ".jpeg"; ".bmp"; ".gif"; ".tiff"]%string.

(** The items of [COLOR_PALETTE], in the order of the dict. *)
Definition COLOR_PALETTE : list (string * RGB) :=
  [("red", (255, 0, 0)); ("blue", (0, 0, 255)); ("yellow", (255, 255, 0));
   ("black", (30, 30, 30)); ("white", (230, 230, 230)); ("green", (0, 128, 0));
   ("magenta", (255, 0, 255))]%string%Z.

(** The leading periods of a name and what follows them. *)
Fixpoint leading_dots (s : string) : string * string :=
  match s with
  | String c s' =>
      if Ascii.eqb c "."
      then let '(dots, rest) := leading_dots s' in (String c dots, rest)
      else (EmptyString, s)
  | EmptyString => (EmptyString, EmptyString)
  end.

(** A string cut before its last period, if it has one. *)
Fixpoint rsplit_dot (s : string) : option (string * string) :=
  match s with
  | EmptyString => None
  | String c s' =>
      match rsplit_dot s' with
      | Some (root, ext) => Some (String c root, ext)
      | None => if Ascii.eqb c "." then Some (EmptyString, s) else None
      end
  end.

(** [os.path.splitext(p)] on a name without a directory part, as
    [os.listdir] gives them: the extension starts at the last period,
    and leading periods of the name belong to the root. *)
Definition splitext (p : string) : string * string :=
  let '(dots, rest) := leading_dots p in
  match rsplit_dot rest with
  | Some (root, ext) => ((dots ++ root)%string, ext)
  | None => (p, EmptyString)
  end.

(** [prepare_directories]:
    [any(f.lower().endswith(SUPPORTED_EXTENSIONS) for f in input_files)] *)
Definition image_files_found (input_files : list string) : bool :=
  existsb (fun f => endswith_any (lower f) SUPPORTED_EXTENSIONS) input_files.

(** [main]: [ext.lower() in SUPPORTED_EXTENSIONS], the negation of the
    test that skips a file name. *)
Definition supported (filename : string) : bool :=
  let '(base_name, ext) := splitext filename in
  existsb (String.eqb (lower ext)) SUPPORTED_EXTENSIONS.

Section Main.

(** Whether [shutil.copy2(src, dst)] returns rather than raises. *)
Variable copy2 : string -> string -> bool.

(** Whether a call of [adjust_image_color] saves its output; it logs its
    failures and never raises. *)
Variable adjust_image_color : string -> string -> string -> RGB -> bool.

(** What the loop of [main] carries; [written] lists the names of the
    files put into [OUTPUT_DIR], in the order of the writes. *)
Record main_state : Type := mkMain {
  written : list string;
  processed_files_count : nat;
  processed_successfully : bool
}.

(** The inner loop: one colourised version per palette item. *)
Definition colorize_step (filename base_name ext : string)
    (out : list string) (item : string * RGB) : list string :=
  let '(color_name, target_rgb) := item in
  let input_image_path := path_join INPUT_DIR filename in
  let output_filename := (base_name ++ "_" ++ color_name ++ ext)%string in
  let output_image_path := path_join OUTPUT_DIR output_filename in
  if adjust_image_color input_image_path output_image_path color_name target_rgb
  then out ++ [output_filename]
  else out.

(** The body of [for filename in input_filenames:]. *)
Definition process (st : main_state) (filename : string) : main_state :=
  let '(base_name, ext) := splitext filename in
  if negb (existsb (String.eqb (lower ext)) SUPPORTED_EXTENSIONS) then st
  else
    let input_image_path := path_join INPUT_DIR filename in
    let original_output_path := path_join OUTPUT_DIR filename in
    if copy2 input_image_path original_output_path then
      mkMain (fold_left (colorize_step filename base_name ext) COLOR_PALETTE
                (written st ++ [filename]))
             (processed_files_count st + 1)
             (processed_successfully st)
    else mkMain (written st) (processed_files_count st) false.

Definition process_all (input_filenames : list string) : main_state :=
  fold_left process input_filenames (mkMain [] 0 true).

End Main.

(** *** prepare_directories *)

(** What an answer typed at a prompt reads after [.strip().upper()]. *)
Inductive choice : Type :=
| AnswerY
| AnswerN
| AnswerOther.

(** One [while True:] loop around [input]: it asks again until the
    answer is [Y] or [N], and returns whether it was [Y] together with
    the answers not read yet.  [None]: the input ended first, and [input]
    raised [EOFError]. *)
Fixpoint ask (answers : list choice) : option (bool * list choice) :=
  match answers with
  | [] => None
  | AnswerY :: rest => Some (true, rest)
  | AnswerN :: rest => Some (false, rest)
  | AnswerOther :: rest => ask rest
  end.

(** What the operating system answers to [prepare_directories].  A
    listing is [None] when [os.listdir] raises [OSError];
    [output_isfile f] is [os.path.isfile(os.path.join(OUTPUT_DIR, f))];
    [output_exists] is [os.path.exists(OUTPUT_DIR)] as long as nothing
    was removed; the three last fields say whether
    [archive_existing_output] returns [True] and whether [shutil.rmtree]
    and [os.makedirs] return rather than raise. *)
Record World : Type := {
  input_isdir : bool;
  input_listdir : option (list string);
  output_isdir : bool;
  output_listdir : option (list string);
  output_isfile : string -> bool;
  output_exists : bool;
  archive_existing_output : bool;
  rmtree : bool;
  makedirs : bool
}.

(** The changes that [prepare_directories] attempts on the disk, each
    with whether it succeeded. *)
Inductive action : Type :=
| Archive (ok : bool)
| Rmtree (ok : bool)
| Makedirs (ok : bool).

Inductive ending : Type :=
| Return (proceed : bool)
| EOFError.

(** The end of the function, from "ensure output directory exists";
    [exists_now] is [os.path.exists(OUTPUT_DIR)] at that point. *)
Definition ensure_output (w : World) (log : list action) (exists_now : bool)
  : list action * ending :=
  if negb exists_now then
    if makedirs w then (log ++ [Makedirs true], Return true)
    else (log ++ [Makedirs false], Return false)
  else (log, Return true).

(** [prepare_directories()], fed the answers that will be typed: the
    actions attempted, in order, and how the call ends.  After an
    [rmtree] that returned, the output directory does not exist.  What
    is logged and printed, the size estimate for more than 200 files
    included, is left out. *)
Definition prepare_directories (w : World) (answers : list choice)
  : list action * ending :=
  if negb (input_isdir w) then ([], Return false)
  else
    match input_listdir w with
    | None => ([], Return false)
    | Some input_files =>
        if negb (image_files_found input_files) then ([], Return false)
        else
          let output_dir_exists := output_isdir w in
          match (if output_dir_exists
                 then option_map (filter (output_isfile w)) (output_listdir w)
                 else Some []) with
          | None => ([], Return false)
          | Some output_files =>
              match output_dir_exists, output_files with
              | true, _ :: _ =>
                  let file_count := List.length output_files in
                  match ask answers with
                  | None => ([], EOFError)
                  | Some (false, _) => ([], Return false)
                  | Some (true, answers) =>
                      match ask answers with
                      | None => ([], EOFError)
                      | Some (should_archive, answers) =>
                          match (if should_archive && (200 <? file_count)
                                 then ask answers
                                 else Some (should_archive, answers)) with
                          | None => ([], EOFError)
                          | Some (should_archive, _) =>
                              let archived :=
                                if should_archive
                                then [Archive (archive_existing_output w)]
                                else [] in
                              if should_archive && negb (archive_existing_output w)
                              then (archived, Return false)
                              else if rmtree w
                              then ensure_output w (archived ++ [Rmtree true]) false
                              else (archived ++ [Rmtree false], Return false)
                          end
                      end
                  end
              | _, _ => ensure_output w [] (output_exists w)
              end
          end
    end.

(** The regular files that [prepare_directories] finds in the output
    directory. *)
Definition output_files (w : World) : list string :=
  if output_isdir w
  then match output_listdir w with
       | Some entries => filter (output_isfile w) entries
       | None => []
       end
  else [].

End AdjustTiles.

(** A name made of periods only. *)
Fixpoint only_dots (s : string) : bool :=
  match s with
  | EmptyString => true
  | String c s' => Ascii.eqb c "." && only_dots s'
  end.

(** A name without a period. *)
Fixpoint no_dot (s : string) : bool :=
  match s with
  | EmptyString => true
  | String c s' => negb (Ascii.eqb c ".") && no_dot s'
  end.

(** * Properties *)

(** ** Small facts used throughout *)

Lemma bind_ok {A B} (r : result A) (k : A -> result B) (b : B) :
  bind r k = Ok b -> exists a, r = Ok a /\ k a = Ok b.
Proof. destruct r as [a|e]; simpl; intros H; [eauto | discriminate]. Qed.

Lemma RGB_eqb_eq (a b : RGB) : RGB_eqb a b = true <-> a = b.
Proof.
  destruct a as [[r g] b0], b as [[r' g'] b']; unfold RGB_eqb, red, green, blue; simpl.
  rewrite !andb_true_iff, !Z.eqb_eq. split.
  - intros [[-> ->] ->]; reflexivity.
  - intros H; inversion H; auto.
Qed.

Lemma RGB_eqb_refl (a : RGB) : RGB_eqb a a = true.
Proof. apply RGB_eqb_eq; reflexivity. Qed.

Lemma RGB_eqb_neq (a b : RGB) : RGB_eqb a b = false <-> a <> b.
Proof.
  rewrite <- RGB_eqb_eq. destruct (RGB_eqb a b); split; congruence.
Qed.

(** ** Average colour *)

Lemma flat_map_length_const {A B} (f : A -> list B) (w : nat) (l : list A) :
  (forall a, List.length (f a) = w) ->
  List.length (flat_map f l) = List.length l * w.
Proof.
  intros Hf. induction l as [|a l IH]; simpl; [reflexivity|].
  now rewrite length_app, Hf, IH.
Qed.

Lemma img_array_length (im : Image) :
  List.length (img_array im) = height im * width im.
Proof.
  unfold img_array. rewrite flat_map_length_const with (w := width im).
  - now rewrite length_seq.
  - intros y. now rewrite length_map, length_seq.
Qed.

Lemma img_array_in (im : Image) (p : RGB) :
  In p (img_array im) ->
  exists x y, x < width im /\ y < height im /\ p = pixels im x y.
Proof.
  unfold img_array. rewrite in_flat_map. intros [y [Hy Hp]].
  apply in_map_iff in Hp. destruct Hp as [x [Hx Hin]].
  apply in_seq in Hy. apply in_seq in Hin. exists x, y. repeat split; auto; lia.
Qed.

Lemma channel_sum_constant (ch : RGB -> Z) (c : RGB) (px : list RGB) :
  (forall p, In p px -> p = c) ->
  channel_sum ch px = (ch c * Z.of_nat (List.length px))%Z.
Proof.
  unfold channel_sum. induction px as [|p px IH]; intros H.
  - simpl; lia.
  - cbn [map fold_right List.length]. rewrite IH by (intros; apply H; right; auto).
    rewrite (H p) by (left; reflexivity). lia.
Qed.

Lemma truncate_quot (s : Z) (n : nat) :
  0 < n ->
  truncate (inject_Z s / inject_Z (Z.of_nat n)) = Z.quot s (Z.of_nat n).
Proof.
  intros Hn.
  destruct (Z.of_nat n) as [|p|p] eqn:Hp; try lia.
  unfold truncate, Qdiv, Qinv, inject_Z, Qmult, Qle_bool, Qfloor, Qceiling, Qopp. simpl.
  rewrite !Z.mul_1_r.
  destruct (Z.leb_spec 0 s) as [Hs|Hs].
  - symmetry; apply Z.quot_div_nonneg; lia.
  - replace s with (- (- s))%Z at 2 by lia.
    rewrite Z.quot_opp_l by lia. f_equal.
    symmetry; apply Z.quot_div_nonneg; lia.
Qed.

Lemma sum_below_ext (n : nat) (f g : nat -> Z) :
  (forall k, k < n -> f k = g k) -> sum_below n f = sum_below n g.
Proof.
  induction n as [|n IH]; intros H; [reflexivity|].
  cbn [sum_below]. rewrite IH, H by auto. reflexivity.
Qed.

Lemma sum_below_add (n : nat) (f g : nat -> Z) :
  sum_below n (fun k => f k + g k)%Z = (sum_below n f + sum_below n g)%Z.
Proof.
  induction n as [|n IH]; [reflexivity|]. cbn [sum_below]. rewrite IH. lia.
Qed.

(** A double sum does not depend on which index runs first. *)
Lemma sum_below_swap (n m : nat) (f : nat -> nat -> Z) :
  sum_below n (fun x => sum_below m (fun y => f x y)) =
  sum_below m (fun y => sum_below n (fun x => f x y)).
Proof.
  induction n as [|n IH].
  - cbn [sum_below]. induction m as [|m IHm]; [reflexivity|].
    cbn [sum_below]. rewrite <- IHm. reflexivity.
  - cbn [sum_below]. rewrite IH, <- sum_below_add. reflexivity.
Qed.

Lemma sum_of_seq (g : nat -> Z) (n : nat) :
  fold_right Z.add 0%Z (map g (seq 0 n)) = sum_below n g.
Proof.
  assert (Hacc : forall (l : list Z) (a : Z),
             fold_right Z.add a l = (fold_right Z.add 0 l + a)%Z).
  { intros l a. induction l as [|z l IH]; simpl; [reflexivity|]. rewrite IH. lia. }
  induction n as [|n IH]; [reflexivity|].
  rewrite seq_S, map_app, fold_right_app. cbn [map fold_right sum_below Nat.add].
  rewrite Hacc, IH. lia.
Qed.

Lemma channel_sum_flat_map {A} (ch : RGB -> Z) (f : A -> list RGB) (l : list A) :
  channel_sum ch (flat_map f l) =
  fold_right Z.add 0%Z (map (fun a => channel_sum ch (f a)) l).
Proof.
  assert (Happ : forall a b, channel_sum ch (a ++ b) =
                             (channel_sum ch a + channel_sum ch b)%Z).
  { intros a b. unfold channel_sum. induction a as [|p a IH]; simpl; [reflexivity|].
    rewrite IH. lia. }
  induction l as [|a l IH]; [reflexivity|].
  cbn [flat_map map fold_right]. now rewrite Happ, IH.
Qed.

(** The array holds every pixel once: summing a channel over it is
    summing over the positions. *)
Lemma channel_sum_img_array (ch : RGB -> Z) (image : Image) :
  channel_sum ch (img_array image) = pixel_sum ch image.
Proof.
  unfold img_array, pixel_sum. rewrite channel_sum_flat_map, sum_of_seq.
  rewrite sum_below_swap. apply sum_below_ext. intros y _.
  unfold channel_sum. rewrite map_map. apply sum_of_seq.
Qed.

Lemma channel_mean_spec (ch : RGB -> Z) (image : Image) :
  0 < width image -> 0 < height image ->
  channel_mean ch (img_array image) = truncate (arithmetic_mean ch image).
Proof.
  intros Hw Hh. unfold arithmetic_mean, pixel_count.
  rewrite truncate_quot by nia.
  unfold channel_mean. rewrite channel_sum_img_array, img_array_length.
  now rewrite Nat.mul_comm.
Qed.

(** C6.  On a non-empty image [get_average_rgb] is, channel by channel,
    the arithmetic mean over all pixels, each position of the image
    counted once, truncated to an integer; on an image of one solid colour
    it is that colour. *)
Theorem get_average_rgb_is_truncated_mean (image : Image) :
  0 < width image -> 0 < height image ->
  get_average_rgb image = spec_average_color image /\
  (forall c : RGB,
      (forall x y, x < width image -> y < height image -> pixels image x y = c) ->
      get_average_rgb image = c).
Proof.
  intros Hw Hh.
  assert (Hlen : List.length (img_array image) = height image * width image)
    by apply img_array_length.
  assert (Hne : img_array image <> []).
  { intros E. rewrite E in Hlen. simpl in Hlen. nia. }
  split.
  - unfold get_average_rgb, spec_average_color.
    now rewrite !channel_mean_spec by assumption.
  - clear Hne. intros c Hsolid.
    assert (Hall : forall p, In p (img_array image) -> p = c).
    { intros p Hp. apply img_array_in in Hp.
      destruct Hp as [x [y [Hx [Hy ->]]]]. now apply Hsolid. }
    unfold get_average_rgb, channel_mean.
    rewrite !channel_sum_constant with (c := c) by assumption.
    rewrite !Z.quot_mul by nia.
    destruct c as [[r g] b]; reflexivity.
Qed.

Lemma get_average_rgb_is_truncated_mean_witness :
  get_average_rgb sample_image = spec_average_color sample_image /\
  (forall c : RGB,
      (forall x y, x < 2 -> y < 2 -> pixels sample_image x y = c) ->
      get_average_rgb sample_image = c).
Proof.
  apply (@get_average_rgb_is_truncated_mean sample_image); simpl; lia.
Defined.

Example get_average_rgb_sample : get_average_rgb sample_image = (10, 20, 30)%Z.
Proof. reflexivity. Qed.

(** On the sample images the binary64 computation gives the same
    integers as the exact one. *)
Example get_average_rgb_float_sample :
  Forall (fun im =>
            (channel_mean_float red (img_array im),
             channel_mean_float green (img_array im),
             channel_mean_float blue (img_array im))
            = (Ok (red (get_average_rgb im)), Ok (green (get_average_rgb im)),
               Ok (blue (get_average_rgb im))))
         [sample_image; reddish; red_blue 5 3; dark_light; solid 7 3 (254, 1, 77)%Z].
Proof. repeat constructor. Qed.

(** ** Grid dimensions *)

Lemma max_quot_div (a b : Z) :
  (0 < b)%Z -> Z.max 1 (Z.quot a b) = Z.max 1 (Z.div a b).
Proof.
  intros Hb. destruct (Z.le_gt_cases 0 a) as [Ha|Ha].
  - now rewrite Z.quot_div_nonneg by lia.
  - assert (Z.quot a b <= 0)%Z.
    { replace a with (- (- a))%Z by lia. rewrite Z.quot_opp_l by lia.
      pose proof (Z.quot_pos (- a) b). lia. }
    assert (a / b < 0)%Z by (apply Z.div_lt_upper_bound; lia).
    lia.
Qed.

Lemma py_int_floor (x : float) :
  is_finite x = true ->
  exists n, py_int x = Ok n /\ Z.max 1 n = Z.max 1 (float_floor x).
Proof.
  unfold is_finite, py_int, float_floor.
  destruct (Prim2SF x) as [s|s| |s m e]; try discriminate; intros _.
  - eexists; split; reflexivity.
  - destruct e as [|p|p]; eexists; split; try reflexivity.
    apply max_quot_div. apply Z.pow_pos_nonneg; lia.
Qed.

(** C2 as stated fails: a finite positive resolution factor for which no
    grid dimension is computed at all, [int] raising on the infinite
    product. *)
Lemma grid_dimension_overflow_counterexample :
  is_finite huge_factor = true /\
  grid_dimension 500 50 huge_factor = Raise OverflowError /\
  grid_dimension 500 50 huge_factor <> Ok (spec_grid_dimension 500 50 huge_factor).
Proof. vm_compute. repeat split; discriminate. Qed.

Lemma py_int_not_finite (x : float) :
  is_finite x = false ->
  py_int x = Raise OverflowError \/ py_int x = Raise (ValueError FloatNaNToInt).
Proof.
  unfold is_finite, py_int.
  destruct (Prim2SF x) as [s|s| |s m e]; try discriminate; auto.
Qed.

(** C2, amended.  For a positive tile size: whenever the binary64
    product [base / tile * factor] is finite, the grid dimension is
    [max(1, floor(base / tile * factor))] and is at least 1, and
    otherwise [int] raises and there is no grid; the three sample grids of
    the specification come out as stated. *)
Theorem grid_dimension_formula (base tile : nat) (factor : float) :
  0 < tile ->
  (if is_finite (float_of_nat base / float_of_nat tile * factor)%float
   then grid_dimension base tile factor = Ok (spec_grid_dimension base tile factor) /\
        1 <= spec_grid_dimension base tile factor
   else grid_dimension base tile factor = Raise OverflowError \/
        grid_dimension base tile factor = Raise (ValueError FloatNaNToInt)) /\
  (grid_dimension 500 50 1%float, grid_dimension 300 50 1%float) = (Ok 10, Ok 6) /\
  (grid_dimension 500 50 2%float, grid_dimension 300 50 2%float) = (Ok 20, Ok 12) /\
  (grid_dimension 50 50 one_tenth, grid_dimension 50 50 one_tenth) = (Ok 1, Ok 1).
Proof.
  intros Ht. split; [|repeat split; vm_compute; reflexivity].
  unfold grid_dimension, true_divide, spec_grid_dimension.
  destruct (Nat.eqb_spec tile 0) as [E|_]; [lia|]. cbn [bind].
  destruct (is_finite (float_of_nat base / float_of_nat tile * factor)%float) eqn:Hfin.
  - destruct (py_int_floor _ Hfin) as [n [-> Hn]]. cbn [bind]. rewrite Hn.
    split; [reflexivity | lia].
  - destruct (py_int_not_finite _ Hfin) as [-> | ->]; cbn [bind]; auto.
Qed.

Lemma grid_dimension_formula_witness :
  (grid_dimension 640 48 one_tenth = Ok (spec_grid_dimension 640 48 one_tenth) /\
   1 <= spec_grid_dimension 640 48 one_tenth) /\
  (grid_dimension 500 50 1%float, grid_dimension 300 50 1%float) = (Ok 10, Ok 6) /\
  (grid_dimension 500 50 2%float, grid_dimension 300 50 2%float) = (Ok 20, Ok 12) /\
  (grid_dimension 50 50 one_tenth, grid_dimension 50 50 one_tenth) = (Ok 1, Ok 1).
Proof.
  apply (@grid_dimension_formula 640 48 one_tenth). lia.
Defined.

(** The product is the rounded binary64 one, not the exact one: 29 / 100
    is rounded below 0.29, and the grid for a factor of 100 has 28
    columns where exact arithmetic would give 29. *)
Example grid_dimension_rounding :
  grid_dimension 29 100 100%float = Ok 28 /\
  Qfloor (Qmult (29 # 100) (inject_Z 100)) = 29%Z.
Proof. split; vm_compute; reflexivity. Qed.

(** A negative or zero factor is clamped to a grid of one cell. *)
Example grid_dimension_clamp :
  grid_dimension 500 50 (-3.5)%float = Ok 1 /\ grid_dimension 500 50 0%float = Ok 1.
Proof. split; vm_compute; reflexivity. Qed.

(** ** The nearest-colour index *)

Lemma ltb_closer_ok : closer_ok Z.ltb.
Proof. intros d b. destruct (Z.ltb_spec d b); lia. Qed.

(** The scan returns a point of the data it ran over (or the initial
    best), at its position, and no point is closer. *)
Lemma scan_nearest_minimal (closer : Z -> Z -> bool) (x : RGB) :
  closer_ok closer ->
  forall (data : list RGB) (i : nat) (best : nat * RGB),
    let r := scan_nearest closer x data i best in
    (dist2 (snd r) x <= dist2 (snd best) x)%Z /\
    (forall c, In c data -> (dist2 (snd r) x <= dist2 c x)%Z) /\
    (r = best \/
     exists j, fst r = i + j /\ nth_error data j = Some (snd r)).
Proof.
  intros Hc. induction data as [|c data IH]; intros i best; cbn [scan_nearest].
  - repeat split; [lia | intros c [] | now left].
  - set (best' := if closer (dist2 c x) (dist2 (snd best) x) then (i, c) else best).
    destruct (IH (S i) best') as [Hle [Hall Hpos]].
    assert (Hb : (dist2 (snd best') x <= dist2 (snd best) x)%Z /\
                 (dist2 (snd best') x <= dist2 c x)%Z /\
                 (best' = best \/ best' = (i, c))).
    { subst best'. pose proof (Hc (dist2 c x) (dist2 (snd best) x)) as H.
      destruct (closer (dist2 c x) (dist2 (snd best) x)); simpl; repeat split;
        auto; lia. }
    destruct Hb as [Hb1 [Hb2 Hb3]].
    split; [lia|]. split.
    + intros c' [<-|Hin]; [lia | now apply Hall].
    + destruct Hpos as [->|[j [Hj Hnth]]].
      * destruct Hb3 as [->| ->]; [now left|].
        right. exists 0. simpl. split; [lia | reflexivity].
      * right. exists (S j). split; [lia | exact Hnth].
Qed.

Lemma scan_index_exact (closer : Z -> Z -> bool) :
  closer_ok closer -> exact_nearest (scan_index closer).
Proof.
  intros Hc data x i. unfold scan_index.
  destruct data as [|c data]; [discriminate|]. intros [= <-].
  destruct (scan_nearest_minimal x Hc data 1 (0, c)) as [Hle [Hall Hpos]].
  cbn [snd] in Hle.
  exists (snd (scan_nearest closer x data 1 (0, c))). split.
  - destruct Hpos as [->|[j [-> Hnth]]]; [reflexivity | exact Hnth].
  - intros j c' Hj. apply nth_error_In in Hj. destruct Hj as [<-|Hin]; auto.
Qed.

Lemma nearest_color_index_exact : exact_nearest nearest_color_index.
Proof. apply scan_index_exact, ltb_closer_ok. Qed.

(** C5.  On a non-empty set of indexed colours the query answers, and
    the colour at the position it returns is at least as close to the
    query colour as every indexed colour. *)
Theorem nearest_color_index_minimal (c0 : RGB) (data : list RGB) (x : RGB) :
  exists i c,
    nearest_color_index (c0 :: data) x = Some i /\
    nth_error (c0 :: data) i = Some c /\
    forall c', In c' (c0 :: data) -> (dist2 c x <= dist2 c' x)%Z.
Proof.
  unfold nearest_color_index, scan_index.
  destruct (scan_nearest_minimal x ltb_closer_ok data 1 (0, c0)) as [Hle [Hall Hpos]].
  cbn [snd] in Hle.
  exists (fst (scan_nearest Z.ltb x data 1 (0, c0))),
         (snd (scan_nearest Z.ltb x data 1 (0, c0))).
  split; [reflexivity|]. split.
  - destruct Hpos as [->|[j [-> Hnth]]]; [reflexivity | exact Hnth].
  - intros c' [<-|Hin]; auto.
Qed.

Example nearest_color_index_sample :
  nearest_color_index [RED; BLUE; (250, 10, 0)%Z] (240, 20, 10)%Z = Some 2.
Proof. reflexivity. Qed.

(** ** Tile loading *)

Section LoadingFacts.

Variable resample : Image -> nat * nat -> nat -> nat -> RGB.

(** The loop only ever appends: a tile and its colour for a candidate
    that comes through the [try:], a warning for one that does not. *)
Lemma load_loop_spec (fs : FileSystem) (candidate : string -> bool)
    (decode : string -> option Image) (warning : string -> log_line)
    (tile_size : nat * nat) (names : list string) :
  forall tiles avg_colors log,
    fold_left (load_step resample fs candidate decode warning tile_size) names
              (tiles, avg_colors, log) =
    (tiles ++ map fst (appended resample fs candidate decode tile_size names),
     avg_colors ++ map snd (appended resample fs candidate decode tile_size names),
     log ++ map warning (warned resample fs candidate decode tile_size names)).
Proof.
  unfold appended, warned.
  induction names as [|f names IH]; intros tiles avg_colors log.
  - simpl. now rewrite !app_nil_r.
  - cbn [fold_left filter]. unfold load_step at 2.
    destruct (candidate f) eqn:Hc.
    + cbn [flat_map filter].
      destruct (load_one resample fs (decode f) tile_size) as [[img avg]|e] eqn:Hl;
        rewrite IH; cbn [is_ok negb app map fst snd];
        now rewrite <- ?app_assoc.
    + now rewrite IH.
Qed.

Lemma appended_sizes (fs : FileSystem) (candidate : string -> bool)
    (decode : string -> option Image) (tile_size : nat * nat)
    (names : list string) (p : Image * RGB) :
  In p (appended resample fs candidate decode tile_size names) ->
  width (fst p) = fst tile_size /\ height (fst p) = snd tile_size /\
  0 < fst tile_size /\ 0 < snd tile_size /\
  snd p = get_average_rgb (fst p).
Proof.
  unfold appended. rewrite in_flat_map. intros [f [_ Hin]].
  unfold load_one, resize in Hin.
  destruct (decode f) as [img|]; [|destruct Hin].
  destruct ((0 <? fst tile_size) && (0 <? snd tile_size)) eqn:Hpos;
    [|destruct Hin].
  destruct (allocation_error fs tile_size); simpl in Hin; [destruct Hin|].
  destruct Hin as [<-|[]]. apply andb_true_iff in Hpos.
  destruct Hpos as [H1 H2]. apply Nat.ltb_lt in H1. apply Nat.ltb_lt in H2.
  simpl. auto.
Qed.

(** Only [os.listdir] and [zipfile.ZipFile] make a listing fail. *)
Lemma listing_raises (fs : FileSystem) (source_path : string) (e : exn) :
  listing fs source_path = Raise e -> e = OSError \/ e = BadZipFile.
Proof.
  unfold listing. destruct (isdir fs source_path).
  - destruct (listdir fs source_path); [discriminate|]. intros [= <-]. now left.
  - destruct (is_zipfile fs source_path); [|discriminate].
    destruct (namelist fs source_path); [discriminate|]. intros [= <-]. now right.
Qed.

(** The result of the loader in terms of the listing, [survivors] and
    [skipped]. *)
Lemma load_tile_images_spec (fs : FileSystem) (source_path : string)
    (tile_size : nat * nat) :
  let sv := survivors resample fs source_path tile_size in
  let r := snd (load_tile_images resample fs source_path tile_size) in
  if valid_source fs source_path then
    match listing fs source_path with
    | Raise e => r = Raise e
    | Ok _ =>
        match sv with
        | [] => r = Raise (ValueError NoValidTiles)
        | _ :: _ => r = Ok (map fst sv, map snd sv)
        end
    end
  else r = Raise (ValueError InvalidTileSource).
Proof.
  unfold survivors, candidates, listing, decode, valid_source, load_tile_images.
  destruct (isdir fs source_path) eqn:Hd; cbn [orb].
  - destruct (listdir fs source_path) as [filenames|]; [|reflexivity].
    rewrite load_loop_spec. cbn [app]. unfold appended.
    match goal with |- context [flat_map ?f ?l] => destruct (flat_map f l) end;
      reflexivity.
  - destruct (is_zipfile fs source_path) eqn:Hz; [|reflexivity].
    destruct (namelist fs source_path) as [filenames|]; [|reflexivity].
    rewrite load_loop_spec. cbn [app]. unfold appended.
    match goal with |- context [flat_map ?f ?l] => destruct (flat_map f l) end;
      reflexivity.
Qed.

Lemma load_tile_images_log (fs : FileSystem) (source_path : string)
    (tile_size : nat * nat) :
  filter is_warning (fst (load_tile_images resample fs source_path tile_size)) =
  map (if isdir fs source_path then WarningSkippingFile
       else WarningSkippingZipMember)
      (skipped resample fs source_path tile_size).
Proof.
  assert (Hw : forall (w : string -> log_line) l,
             (forall f, is_warning (w f) = true) ->
             filter is_warning (map w l) = map w l).
  { intros w l Hw. induction l as [|a l IH]; simpl; [reflexivity|].
    now rewrite Hw, IH. }
  unfold skipped, loads_ok, candidates, listing, decode, load_tile_images.
  destruct (isdir fs source_path) eqn:Hd.
  - destruct (listdir fs source_path) as [filenames|]; [|reflexivity].
    rewrite load_loop_spec. unfold warned.
    match goal with |- context [appended ?r ?s ?c ?d ?t ?l] => destruct (appended r s c d t l) end;
      cbn [fst app filter is_warning map]; apply Hw; reflexivity.
  - destruct (is_zipfile fs source_path) eqn:Hz; [|reflexivity].
    destruct (namelist fs source_path) as [filenames|]; [|reflexivity].
    rewrite load_loop_spec. unfold warned.
    match goal with |- context [appended ?r ?s ?c ?d ?t ?l] => destruct (appended r s c d t l) end;
      cbn [fst app filter is_warning map]; apply Hw; reflexivity.
Qed.

Lemma survivors_nil_iff (fs : FileSystem) (source_path : string)
    (tile_size : nat * nat) :
  survivors resample fs source_path tile_size = [] <->
  forall filename, In filename (candidates fs source_path) ->
                   loads_ok resample fs source_path tile_size filename = false.
Proof.
  unfold survivors, loads_ok.
  induction (candidates fs source_path) as [|f l IH]; simpl.
  - split; [intros _ f [] | reflexivity].
  - destruct (load_one resample fs (decode fs source_path f) tile_size) eqn:Hl; simpl.
    + split; [discriminate|]. intros H. specialize (H f (or_introl eq_refl)).
      rewrite Hl in H. discriminate.
    + rewrite IH. split.
      * intros H g [<-|Hg]; [now rewrite Hl | now apply H].
      * intros H g Hg. apply H. now right.
Qed.

Lemma survivors_sizes (fs : FileSystem) (source_path : string)
    (tile_size : nat * nat) (p : Image * RGB) :
  In p (survivors resample fs source_path tile_size) ->
  width (fst p) = fst tile_size /\ height (fst p) = snd tile_size /\
  0 < fst tile_size /\ 0 < snd tile_size /\
  snd p = get_average_rgb (fst p).
Proof.
  intros H.
  apply (@appended_sizes fs (fun _ => true) (decode fs source_path) tile_size
                         (candidates fs source_path)).
  unfold appended. replace (filter (fun _ => true) (candidates fs source_path))
    with (candidates fs source_path); [exact H|].
  induction (candidates fs source_path); simpl; congruence.
Qed.

(** What a successful load returns. *)
Lemma load_tile_images_ok (fs : FileSystem) (source_path : string)
    (tile_size : nat * nat) (tiles : list Image) (avg_colors : list RGB) :
  snd (load_tile_images resample fs source_path tile_size) = Ok (tiles, avg_colors) ->
  tiles <> [] /\
  avg_colors = map get_average_rgb tiles /\
  0 < fst tile_size /\ 0 < snd tile_size /\
  Forall (fun t => width t = fst tile_size /\ height t = snd tile_size) tiles.
Proof.
  intros Hok. pose proof (load_tile_images_spec fs source_path tile_size) as Hs.
  cbv zeta in Hs. rewrite Hok in Hs.
  destruct (valid_source fs source_path); [|discriminate].
  destruct (listing fs source_path); [|discriminate].
  pose proof (@survivors_sizes fs source_path tile_size) as Hsz.
  destruct (survivors resample fs source_path tile_size) as [|p sv];
    [discriminate|].
  assert (Ht : tiles = map fst (p :: sv)) by (inversion Hs; reflexivity).
  assert (Ha : avg_colors = map snd (p :: sv)) by (inversion Hs; reflexivity).
  clear Hs.
  destruct (Hsz p (or_introl eq_refl)) as (_ & _ & Hw & Hh & _).
  assert (Hall : forall q, In q (p :: sv) ->
                           width (fst q) = fst tile_size /\
                           height (fst q) = snd tile_size /\
                           snd q = get_average_rgb (fst q))
    by (intros q Hq; destruct (Hsz q Hq) as (?&?&?&?&?); auto).
  assert (Hne : tiles <> []) by (rewrite Ht; discriminate).
  revert Ht Ha Hall Hne. generalize (p :: sv) as l. intros l -> -> Hall Hne.
  split; [exact Hne|]. split; [|split; [exact Hw | split; [exact Hh|]]].
  - rewrite map_map. apply map_ext_in. intros q Hq. now apply Hall.
  - apply Forall_forall. intros t Ht. apply in_map_iff in Ht.
    destruct Ht as [q [<- Hq]]. destruct (Hall q Hq) as (?&?&?). auto.
Qed.

(** C7, as amended.  The loader raises the invalid-source error exactly
    when the source is neither a directory nor a zip file, as
    [os.path.isdir] and [zipfile.is_zipfile] tell.  For a source that
    passes one of the two tests and cannot be listed, the exception of
    [os.listdir] or [zipfile.ZipFile] leaves the function as it is.  The
    no-tiles error is raised exactly when the source passes a test, can be
    listed, and no candidate comes through decoding and resizing.  A
    candidate that fails is skipped with a warning and the others are
    still loaded, in order: with a source that can be listed and at least
    one candidate that loads, a non-empty tile list is returned. *)
Theorem load_tile_images_errors (fs : FileSystem) (source_path : string)
    (tile_size : nat * nat) :
  let out := load_tile_images resample fs source_path tile_size in
  (snd out = Raise (ValueError InvalidTileSource) <->
   valid_source fs source_path = false) /\
  (forall e, listing fs source_path = Raise e ->
             snd out = Raise e /\ (e = OSError \/ e = BadZipFile)) /\
  (snd out = Raise (ValueError NoValidTiles) <->
   valid_source fs source_path = true /\
   is_ok (listing fs source_path) = true /\
   forall filename, In filename (candidates fs source_path) ->
                    loads_ok resample fs source_path tile_size filename = false) /\
  (valid_source fs source_path = true ->
   is_ok (listing fs source_path) = true ->
   (exists filename, In filename (candidates fs source_path) /\
                     loads_ok resample fs source_path tile_size filename = true) ->
   exists tiles avg_colors,
     snd out = Ok (tiles, avg_colors) /\ tiles <> [] /\
     tiles = map fst (survivors resample fs source_path tile_size)) /\
  filter is_warning (fst out) =
  map (if isdir fs source_path then WarningSkippingFile
       else WarningSkippingZipMember)
      (skipped resample fs source_path tile_size).
Proof.
  cbv zeta.
  pose proof (load_tile_images_spec fs source_path tile_size) as Hs.
  pose proof (survivors_nil_iff fs source_path tile_size) as Hnil.
  pose proof (@listing_raises fs source_path) as Hraise.
  cbv zeta in Hs.
  assert (Hinv : valid_source fs source_path = false ->
                 exists l, listing fs source_path = Ok l).
  { unfold valid_source, listing. intros H. apply orb_false_iff in H.
    destruct H as [-> ->]. eauto. }
  split; [|split; [|split; [|split]]].
  - destruct (valid_source fs source_path).
    + destruct (listing fs source_path) as [l|e].
      * destruct (survivors resample fs source_path tile_size); rewrite Hs;
          split; discriminate.
      * rewrite Hs. split; [|discriminate].
        intros [= ->]. destruct (Hraise _ eq_refl); discriminate.
    + rewrite Hs. split; reflexivity.
  - intros e He. split; [|now apply Hraise].
    destruct (valid_source fs source_path).
    + now rewrite He in Hs.
    + destruct (Hinv eq_refl) as [l Hl]. congruence.
  - destruct (valid_source fs source_path).
    + destruct (listing fs source_path) as [l|e].
      * destruct (survivors resample fs source_path tile_size) eqn:Hsv; rewrite Hs.
        -- split; [intros _; repeat split; now apply Hnil | reflexivity].
        -- split; [discriminate|]. intros (_ & _ & H). apply Hnil in H. discriminate.
      * rewrite Hs. split; [|intros (_ & H & _); discriminate].
        intros [= ->]. destruct (Hraise _ eq_refl); discriminate.
    + rewrite Hs. split; [discriminate | intros [? _]; discriminate].
  - intros Hv Hl [f [Hin Hok]]. rewrite Hv in Hs.
    destruct (listing fs source_path) as [l|e]; [|discriminate].
    destruct (survivors resample fs source_path tile_size) eqn:Hsv.
    + destruct Hnil as [Hnil _]. rewrite (Hnil eq_refl f Hin) in Hok. discriminate.
    + eexists _, _. split; [exact Hs|]. split; [discriminate | reflexivity].
  - apply load_tile_images_log.
Qed.

End LoadingFacts.

Example load_tile_images_sample :
  load_summary (load_tile_images nearest_pixel sample_fs "tiles" (3, 2)) =
    ([LoadingFromDirectory "tiles"; WarningSkippingFile "broken.gif"],
     Ok ([(3, 2); (3, 2); (3, 2)], [RED; BLUE; RED])) /\
  load_summary (load_tile_images nearest_pixel sample_fs "tiles.zip" (2, 2)) =
    ([LoadingFromZip "tiles.zip"],
     Ok ([(2, 2); (2, 2)], [BLUE; (195, 0, 0)%Z])) /\
  load_summary (load_tile_images nearest_pixel sample_fs "empty.zip" (2, 2)) =
    ([LoadingFromZip "empty.zip"; WarningSkippingZipMember "bad.png"],
     Raise (ValueError NoValidTiles)) /\
  load_summary (load_tile_images nearest_pixel sample_fs "nowhere" (2, 2)) =
    ([], Raise (ValueError InvalidTileSource)) /\
  snd (load_tile_images nearest_pixel sample_fs "tiles" (0, 2)) =
    Raise (ValueError NoValidTiles) /\
  load_summary (load_tile_images nearest_pixel sample_fs "damaged.zip" (2, 2)) =
    ([LoadingFromZip "damaged.zip"], Raise BadZipFile) /\
  snd (load_tile_images nearest_pixel sample_fs "tiles" (5000, 2)) =
    Raise (ValueError NoValidTiles).
Proof. repeat split; vm_compute; reflexivity. Qed.

(** The claim of C7 as the specification words it fails on a directory
    that cannot be read: it is neither a readable directory nor a valid
    archive, and what the loader raises is the [OSError] of [os.listdir],
    not the invalid-source error. *)
Lemma load_tile_images_unreadable_counterexample :
  readable_directory sample_fs "locked" = false /\
  valid_archive sample_fs "locked" = false /\
  snd (load_tile_images nearest_pixel sample_fs "locked" (2, 2)) = Raise OSError /\
  snd (load_tile_images nearest_pixel sample_fs "locked" (2, 2)) <>
  Raise (ValueError InvalidTileSource).
Proof. vm_compute. repeat split; discriminate. Qed.

(** ** The dict of colour groups *)

Lemma get_set_same (m : CyclePhotos.GroupMap) (k : RGB) (g : CyclePhotos.Group) :
  CyclePhotos.get (CyclePhotos.set m k g) k = Some g.
Proof.
  induction m as [|[k' g'] m IH]; simpl.
  - now rewrite RGB_eqb_refl.
  - destruct (RGB_eqb k' k) eqn:E; simpl; now rewrite E.
Qed.

Lemma get_set_other (m : CyclePhotos.GroupMap) (k k' : RGB) (g : CyclePhotos.Group) :
  k <> k' ->
  CyclePhotos.get (CyclePhotos.set m k g) k' = CyclePhotos.get m k'.
Proof.
  intros Hne. induction m as [|[k0 g0] m IH]; simpl.
  - apply RGB_eqb_neq in Hne. now rewrite Hne.
  - destruct (RGB_eqb k0 k) eqn:E; simpl.
    + apply RGB_eqb_eq in E. subst k0.
      apply RGB_eqb_neq in Hne. now rewrite Hne.
    + destruct (RGB_eqb k0 k'); auto.
Qed.

Lemma keys_set (m : CyclePhotos.GroupMap) (k : RGB) (g : CyclePhotos.Group) :
  CyclePhotos.keys (CyclePhotos.set m k g) =
  if CyclePhotos.contains m k then CyclePhotos.keys m
  else CyclePhotos.keys m ++ [k].
Proof.
  unfold CyclePhotos.contains, CyclePhotos.keys.
  induction m as [|[k0 g0] m IH]; simpl; [reflexivity|].
  destruct (RGB_eqb k0 k) eqn:E; simpl; [reflexivity|].
  rewrite IH. now destruct (CyclePhotos.get m k).
Qed.

Lemma get_none_not_key (m : CyclePhotos.GroupMap) (k : RGB) :
  CyclePhotos.get m k = None <-> ~ In k (CyclePhotos.keys m).
Proof.
  unfold CyclePhotos.keys. induction m as [|[k0 g0] m IH]; simpl.
  - split; [intros _ [] | reflexivity].
  - destruct (RGB_eqb k0 k) eqn:E.
    + apply RGB_eqb_eq in E. split; [discriminate | intros H; exfalso; auto].
    + apply RGB_eqb_neq in E. rewrite IH. split; [intros H [?|?]; auto | auto].
Qed.

Lemma In_get (m : CyclePhotos.GroupMap) (k : RGB) (g : CyclePhotos.Group) :
  NoDup (CyclePhotos.keys m) ->
  (In (k, g) m <-> CyclePhotos.get m k = Some g).
Proof.
  unfold CyclePhotos.keys. induction m as [|[k0 g0] m IH]; simpl; intros Hnd.
  - split; [intros [] | discriminate].
  - inversion Hnd as [|? ? Hnotin Hnd']; subst.
    destruct (RGB_eqb k0 k) eqn:E.
    + apply RGB_eqb_eq in E. subst k0. split.
      * intros [H|H]; [congruence|]. exfalso. apply Hnotin.
        apply in_map_iff. now exists (k, g).
      * intros [= ->]. now left.
    + apply RGB_eqb_neq in E. rewrite <- (IH Hnd'). split.
      * intros [H|H]; [congruence | exact H].
      * now right.
Qed.

Lemma all_indices_set_absent (m : CyclePhotos.GroupMap) (k : RGB)
    (g : CyclePhotos.Group) :
  CyclePhotos.get m k = None ->
  all_indices (CyclePhotos.set m k g) = all_indices m ++ CyclePhotos.indices g.
Proof.
  unfold all_indices. induction m as [|[k0 g0] m IH]; simpl; intros H.
  - now rewrite app_nil_r.
  - destruct (RGB_eqb k0 k); [discriminate|]. simpl.
    now rewrite IH, app_assoc.
Qed.

Lemma all_indices_set_present (m : CyclePhotos.GroupMap) (k : RGB)
    (g : CyclePhotos.Group) (i n : nat) :
  CyclePhotos.get m k = Some g ->
  Permutation
    (all_indices (CyclePhotos.set m k
                    (CyclePhotos.mkGroup (CyclePhotos.indices g ++ [i]) n)))
    (i :: all_indices m).
Proof.
  unfold all_indices. induction m as [|[k0 g0] m IH]; simpl; intros H.
  - discriminate.
  - destruct (RGB_eqb k0 k); simpl.
    + injection H as ->. rewrite <- app_assoc. simpl.
      apply Permutation_sym, Permutation_middle.
    + rewrite (IH H). apply Permutation_sym, Permutation_middle.
Qed.

(** What one step of the grouping loop does to the dict. *)
Lemma group_step_get (m : CyclePhotos.GroupMap) (i : nat) (c k : RGB) :
  CyclePhotos.get (CyclePhotos.group_step m (i, c)) k =
  if RGB_eqb c k then
    Some (match CyclePhotos.get m c with
          | Some g => CyclePhotos.mkGroup (CyclePhotos.indices g ++ [i])
                                          (CyclePhotos.next_idx g)
          | None => CyclePhotos.mkGroup [i] 0
          end)
  else CyclePhotos.get m k.
Proof.
  unfold CyclePhotos.group_step, CyclePhotos.contains.
  destruct (RGB_eqb c k) eqn:E.
  - apply RGB_eqb_eq in E. subst k.
    destruct (CyclePhotos.get m c) as [g|] eqn:Hg.
    + rewrite Hg. apply get_set_same.
    + rewrite get_set_same. simpl.
      change (CyclePhotos.indices (CyclePhotos.mkGroup [] 0) ++ [i]) with [i].
      apply get_set_same.
  - apply RGB_eqb_neq in E.
    destruct (CyclePhotos.get m c) as [g|] eqn:Hg.
    + rewrite Hg. now apply get_set_other.
    + rewrite get_set_same. now rewrite !get_set_other.
Qed.

Lemma group_step_keys (m : CyclePhotos.GroupMap) (i : nat) (c : RGB) :
  CyclePhotos.keys (CyclePhotos.group_step m (i, c)) =
  if CyclePhotos.contains m c then CyclePhotos.keys m
  else CyclePhotos.keys m ++ [c].
Proof.
  unfold CyclePhotos.group_step.
  destruct (CyclePhotos.contains m c) eqn:Hc.
  - unfold CyclePhotos.contains in Hc.
    destruct (CyclePhotos.get m c) eqn:Hg; [|discriminate].
    rewrite keys_set. unfold CyclePhotos.contains. now rewrite Hg.
  - rewrite get_set_same, keys_set.
    unfold CyclePhotos.contains at 1. rewrite get_set_same.
    rewrite keys_set. now rewrite Hc.
Qed.

Lemma group_step_all_indices (m : CyclePhotos.GroupMap) (i : nat) (c : RGB) :
  Permutation (all_indices (CyclePhotos.group_step m (i, c)))
              (all_indices m ++ [i]).
Proof.
  rewrite <- Permutation_cons_append.
  unfold CyclePhotos.group_step, CyclePhotos.contains.
  destruct (CyclePhotos.get m c) as [g|] eqn:Hg.
  - rewrite Hg. now apply all_indices_set_present.
  - rewrite get_set_same.
    rewrite (@all_indices_set_present _ c (CyclePhotos.mkGroup [] 0) i 0)
      by apply get_set_same.
    rewrite all_indices_set_absent by assumption. simpl.
    now rewrite app_nil_r.
Qed.

Lemma StronglySorted_snoc (l : list nat) (i : nat) :
  StronglySorted lt l -> (forall x, In x l -> x < i) ->
  StronglySorted lt (l ++ [i]).
Proof.
  induction 1 as [|a l Hs IH Hall]; intros Hlt; simpl.
  - constructor; constructor.
  - constructor.
    + apply IH. intros x Hx. apply Hlt. now right.
    + apply Forall_app. split; [exact Hall|].
      constructor; [apply Hlt; now left | constructor].
Qed.

Lemma nth_error_snoc {A} (l : list A) (a b : A) (i : nat) :
  nth_error (l ++ [a]) i = Some b <->
  nth_error l i = Some b \/ (i = List.length l /\ a = b).
Proof.
  destruct (Nat.lt_ge_cases i (List.length l)) as [Hlt|Hge].
  - rewrite nth_error_app1 by assumption. split; [now left|].
    intros [H|[-> _]]; [exact H | lia].
  - rewrite nth_error_app2 by assumption.
    assert (Hnone : nth_error l i = None) by now apply nth_error_None.
    rewrite Hnone. destruct (i - List.length l) as [|d] eqn:Hd; simpl.
    + split.
      * intros [= ->]. right. split; [lia | reflexivity].
      * intros [H|[_ ->]]; [discriminate | reflexivity].
    + split.
      * destruct d; discriminate.
      * intros [H|[-> _]]; [discriminate | lia].
Qed.

Lemma groups_of_nil : groups_of [] [].
Proof.
  split; [constructor|]. split.
  - intros [|i] c H; discriminate.
  - intros c g H; discriminate.
Qed.

Lemma groups_of_step (seen : list RGB) (m : CyclePhotos.GroupMap) (c : RGB) :
  groups_of seen m ->
  groups_of (seen ++ [c]) (CyclePhotos.group_step m (List.length seen, c)).
Proof.
  intros (Hnd & Hcov & Hgrp). split; [|split].
  - rewrite group_step_keys.
    destruct (CyclePhotos.contains m c) eqn:Hc; [exact Hnd|].
    apply NoDup_app; [exact Hnd | repeat constructor; intros [] |].
    intros k Hk [E|[]]. subst k. unfold CyclePhotos.contains in Hc.
    destruct (CyclePhotos.get m c) eqn:Hg; [discriminate|].
    now apply get_none_not_key in Hg.
  - intros i k Hi. unfold CyclePhotos.contains. rewrite group_step_get.
    destruct (RGB_eqb c k) eqn:E; [reflexivity|].
    apply nth_error_snoc in Hi. destruct Hi as [Hi|[_ ->]].
    + apply (Hcov i k Hi).
    + now rewrite RGB_eqb_refl in E.
  - intros k g. rewrite group_step_get.
    destruct (RGB_eqb c k) eqn:E.
    + apply RGB_eqb_eq in E. subst k. intros [= <-].
      destruct (CyclePhotos.get m c) as [g0|] eqn:Hg0.
      * destruct (Hgrp c g0 Hg0) as (Hn & _ & Hs & Hin). cbn.
        split; [exact Hn|]. split; [now destruct (CyclePhotos.indices g0)|]. split.
        -- apply StronglySorted_snoc; [exact Hs|].
           intros x Hx. apply Hin in Hx.
           apply nth_error_Some. congruence.
        -- intros i. rewrite in_app_iff, nth_error_snoc, Hin. simpl.
           split; intros [H|H]; auto.
           ++ destruct H as [<-|[]]. now right.
           ++ destruct H as [-> _]. right. now left.
      * cbn. split; [reflexivity|]. split; [discriminate|].
        split; [repeat constructor|].
        intros i. rewrite nth_error_snoc. simpl. split.
        -- intros [<-|[]]. now right.
        -- intros [H|[-> _]]; [|now left]. exfalso.
           specialize (Hcov i c H). unfold CyclePhotos.contains in Hcov.
           rewrite Hg0 in Hcov. discriminate.
    + apply RGB_eqb_neq in E. intros Hg.
      destruct (Hgrp k g Hg) as (Hn & Hne & Hs & Hin).
      split; [exact Hn|]. split; [exact Hne|]. split; [exact Hs|].
      intros i. rewrite Hin, nth_error_snoc. split; [now left|].
      intros [H|[_ H]]; [exact H | congruence].
Qed.

Lemma groups_of_loop (l seen : list RGB) (m : CyclePhotos.GroupMap) :
  groups_of seen m ->
  let m' := fold_left CyclePhotos.group_step
              (combine (seq (List.length seen) (List.length l)) l) m in
  groups_of (seen ++ l) m' /\
  Permutation (all_indices m')
              (all_indices m ++ seq (List.length seen) (List.length l)).
Proof.
  revert seen m. induction l as [|c l IH]; intros seen m Hm; cbn zeta.
  - simpl. rewrite !app_nil_r. split; [exact Hm | reflexivity].
  - cbn [List.length seq combine fold_left].
    pose proof (groups_of_step c Hm) as Hstep.
    specialize (IH (seen ++ [c]) _ Hstep). cbn zeta in IH.
    rewrite length_app in IH. cbn [List.length] in IH.
    rewrite Nat.add_1_r in IH. rewrite <- app_assoc in IH. cbn [app] in IH.
    destruct IH as [IH1 IH2]. split; [exact IH1|].
    rewrite IH2, group_step_all_indices, <- app_assoc. reflexivity.
Qed.

(** The dict built by step 3 of the cycling script. *)
Lemma group_tiles_groups (avg_colors : list RGB) :
  groups_of avg_colors (CyclePhotos.group_tiles avg_colors) /\
  Permutation (all_indices (CyclePhotos.group_tiles avg_colors))
              (seq 0 (List.length avg_colors)).
Proof.
  exact (@groups_of_loop avg_colors [] [] groups_of_nil).
Qed.

(** C10.  A successful load returns as many colours as tiles, at least
    one; the i-th colour is [get_average_rgb] of the i-th tile, and every
    tile has the requested size.  The dict that the cycling script then
    builds has distinct keys, its groups together hold every index below
    the number of tiles once, and the group of a colour lists in
    increasing order the indices of the tiles of that colour. *)
Theorem load_tile_images_invariants
    (resample : Image -> nat * nat -> nat -> nat -> RGB) (fs : FileSystem)
    (source_path : string) (tile_size : nat * nat)
    (tiles : list Image) (avg_colors : list RGB) :
  snd (load_tile_images resample fs source_path tile_size) = Ok (tiles, avg_colors) ->
  let n := List.length tiles in
  let m := CyclePhotos.group_tiles avg_colors in
  List.length avg_colors = n /\ 1 <= n /\
  (forall i t, nth_error tiles i = Some t ->
     nth_error avg_colors i = Some (get_average_rgb t) /\
     (width t, height t) = tile_size) /\
  NoDup (CyclePhotos.keys m) /\
  Permutation (all_indices m) (seq 0 n) /\
  (forall c g, In (c, g) m ->
     CyclePhotos.indices g <> [] /\
     StronglySorted lt (CyclePhotos.indices g) /\
     forall i, In i (CyclePhotos.indices g) <-> nth_error avg_colors i = Some c).
Proof.
  intros Hok. cbv zeta.
  destruct (load_tile_images_ok _ _ _ _ Hok) as (Hne & Havg & _ & _ & Hsize).
  destruct (group_tiles_groups avg_colors) as ((Hnd & _ & Hgrp) & Hperm).
  assert (Hlen : List.length avg_colors = List.length tiles)
    by (rewrite Havg; apply length_map).
  split; [exact Hlen|]. split; [destruct tiles; simpl; [congruence | lia]|].
  split; [|split; [exact Hnd | split; [now rewrite <- Hlen|]]].
  - intros i t Hi. split.
    + rewrite Havg. now apply map_nth_error.
    + rewrite Forall_forall in Hsize.
      destruct (Hsize t (nth_error_In _ _ Hi)) as [-> ->].
      now destruct tile_size.
  - intros c g Hin. apply In_get in Hin; [|exact Hnd].
    destruct (Hgrp c g Hin) as (_ & H1 & H2 & H3). auto.
Qed.

Lemma load_tile_images_invariants_witness :
  let tiles := [solid 3 2 RED; solid 3 2 BLUE; solid 3 2 RED] in
  let avg_colors := [RED; BLUE; RED] in
  let n := List.length tiles in
  let m := CyclePhotos.group_tiles avg_colors in
  List.length avg_colors = n /\ 1 <= n /\
  (forall i t, nth_error tiles i = Some t ->
     nth_error avg_colors i = Some (get_average_rgb t) /\
     (width t, height t) = (3, 2)) /\
  NoDup (CyclePhotos.keys m) /\
  Permutation (all_indices m) (seq 0 n) /\
  (forall c g, In (c, g) m ->
     CyclePhotos.indices g <> [] /\
     StronglySorted lt (CyclePhotos.indices g) /\
     forall i, In i (CyclePhotos.indices g) <-> nth_error avg_colors i = Some c).
Proof.
  apply (@load_tile_images_invariants (fun img _ => pixels img) sample_fs "tiles" (3, 2)).
  reflexivity.
Defined.

Example group_tiles_sample :
  CyclePhotos.group_tiles [RED; BLUE; RED; RED; BLUE] =
  [(RED, CyclePhotos.mkGroup [0; 2; 3] 0); (BLUE, CyclePhotos.mkGroup [1; 4] 0)].
Proof. reflexivity. Qed.

(** ** Nearest match: the selector of generatePhotoMosaicByTile.py *)

Example nearest_match_sample :
  let tiles := [solid 2 2 RED; solid 2 2 BLUE; solid 2 2 RED] in
  let kdtree := map get_average_rgb tiles in
  ByTile.find_best_match_tile nearest_color_index (200, 30, 30)%Z kdtree tiles
    = Ok (solid 2 2 RED) /\
  ByTile.find_best_match_tile nearest_color_index (0, 30, 130)%Z kdtree tiles
    = Ok (solid 2 2 BLUE) /\
  ByTile.find_best_match_tile failing_index (0, 30, 130)%Z kdtree tiles
    = Ok (solid 2 2 RED) /\
  ByTile.find_best_match_tile failing_index (0, 30, 130)%Z kdtree []
    = Raise (ValueError TileListEmpty).
Proof. repeat split. Qed.

(** ** Cycling: the selector of generatePhotoMosaicCyclePhotos.py *)

(** C9.  When the query raises, [find_best_match_tile] of the cycling
    script leaves the dict as it was, cursors included; with a non-empty
    tile list and group indices in range it returns the first tile of the
    first colour group, or else the first loaded tile. *)
Theorem fallback_keeps_cursors (query : kd_query) (target_avg_color : RGB)
    (unique_color_kdtree : KDTree) (unique_colors_list : list RGB)
    (tiles : list Image) (color_to_indices_map : CyclePhotos.GroupMap) :
  query unique_color_kdtree target_avg_color = None ->
  tiles <> [] ->
  indices_in_range tiles color_to_indices_map ->
  let out := CyclePhotos.find_best_match_tile query target_avg_color
               unique_color_kdtree unique_colors_list tiles color_to_indices_map in
  snd out = color_to_indices_map /\
  exists t, fst out = Ok t /\
    ((exists first_group_key rest first_group i0 others,
         unique_colors_list = first_group_key :: rest /\
         CyclePhotos.get color_to_indices_map first_group_key = Some first_group /\
         CyclePhotos.indices first_group = i0 :: others /\
         nth_error tiles i0 = Some t)
     \/ nth_error tiles 0 = Some t).
Proof.
  intros Hq Hne Hrange. cbv zeta. unfold CyclePhotos.find_best_match_tile.
  rewrite Hq. destruct tiles as [|t0 tiles']; [congruence|].
  destruct unique_colors_list as [|key rest].
  { split; [reflexivity|]. exists t0. split; [reflexivity | now right]. }
  destruct (CyclePhotos.get color_to_indices_map key) as [g|] eqn:Hg.
  2:{ split; [reflexivity|]. exists t0. split; [reflexivity | now right]. }
  destruct (CyclePhotos.indices g) as [|i0 others] eqn:Hi.
  { split; [reflexivity|]. exists t0. split; [reflexivity | now right]. }
  split; [reflexivity|]. cbn [fst]. unfold getitem.
  assert (Hlt : i0 < List.length (t0 :: tiles')).
  { apply (Hrange key g i0 Hg). rewrite Hi. now left. }
  destruct (nth_error (t0 :: tiles') i0) as [t|] eqn:Ht.
  - exists t. split; [reflexivity|]. left. exists key, rest, g, i0, others. auto.
  - apply nth_error_None in Ht. lia.
Qed.

(** Whatever the arguments, a raising query never touches the dict. *)
Lemma fallback_frame (query : kd_query) (target_avg_color : RGB)
    (unique_color_kdtree : KDTree) (unique_colors_list : list RGB)
    (tiles : list Image) (color_to_indices_map : CyclePhotos.GroupMap) :
  query unique_color_kdtree target_avg_color = None ->
  snd (CyclePhotos.find_best_match_tile query target_avg_color
         unique_color_kdtree unique_colors_list tiles color_to_indices_map)
  = color_to_indices_map.
Proof.
  intros Hq. unfold CyclePhotos.find_best_match_tile. rewrite Hq.
  destruct tiles; [reflexivity|].
  destruct unique_colors_list; [reflexivity|].
  destruct (CyclePhotos.get color_to_indices_map r); [|reflexivity].
  destruct (CyclePhotos.indices g); reflexivity.
Qed.

Lemma blue_first_map_in_range : indices_in_range cycling_tiles blue_first_map.
Proof.
  intros c g i. unfold blue_first_map. cbn [CyclePhotos.get].
  destruct (RGB_eqb BLUE c); [|destruct (RGB_eqb RED c); [|discriminate]];
    intros [= <-]; simpl; lia.
Qed.

Lemma fallback_keeps_cursors_witness :
  let out := CyclePhotos.find_best_match_tile failing_index (10, 20, 30)%Z
               [BLUE; RED] [BLUE; RED] cycling_tiles blue_first_map in
  snd out = blue_first_map /\
  exists t, fst out = Ok t /\
    ((exists first_group_key rest first_group i0 others,
         [BLUE; RED] = first_group_key :: rest /\
         CyclePhotos.get blue_first_map first_group_key = Some first_group /\
         CyclePhotos.indices first_group = i0 :: others /\
         nth_error cycling_tiles i0 = Some t)
     \/ nth_error cycling_tiles 0 = Some t).
Proof.
  apply (@fallback_keeps_cursors failing_index (10, 20, 30)%Z [BLUE; RED]
           [BLUE; RED] cycling_tiles blue_first_map).
  - reflexivity.
  - discriminate.
  - exact blue_first_map_in_range.
Defined.

Example fallback_sample :
  CyclePhotos.find_best_match_tile failing_index (10, 20, 30)%Z
    [BLUE; RED] [BLUE; RED] cycling_tiles blue_first_map
  = (Ok (solid 2 2 BLUE), blue_first_map).
Proof. reflexivity. Qed.

Lemma set_get_same (m : CyclePhotos.GroupMap) (k : RGB) (g : CyclePhotos.Group) :
  CyclePhotos.get m k = Some g -> CyclePhotos.set m k g = m.
Proof.
  induction m as [|[k0 g0] m IH]; simpl; [discriminate|].
  destruct (RGB_eqb k0 k) eqn:E.
  - now intros [= ->].
  - intros H. now rewrite IH.
Qed.

Lemma set_set (m : CyclePhotos.GroupMap) (k : RGB) (g1 g2 : CyclePhotos.Group) :
  CyclePhotos.get m k <> None ->
  CyclePhotos.set (CyclePhotos.set m k g1) k g2 = CyclePhotos.set m k g2.
Proof.
  induction m as [|[k0 g0] m IH]; simpl; [congruence|].
  destruct (RGB_eqb k0 k) eqn:E; simpl; rewrite E; [reflexivity|].
  intros H. now rewrite IH.
Qed.

Section CyclingFacts.

Variable query : kd_query.
Variable unique_color_kdtree : KDTree.
Variable unique_colors_list : list RGB.
Variable tiles : list Image.

(** One selection that resolves to the group of [c]: the tile at the
    cursor, and the cursor moved by one, wrapping. *)
Lemma find_best_match_tile_step (m : CyclePhotos.GroupMap) (c x : RGB)
    (l : list nat) (n : nat) :
  resolves_to query unique_color_kdtree unique_colors_list c x ->
  CyclePhotos.get m c = Some (CyclePhotos.mkGroup l n) ->
  n < List.length l ->
  exists i, nth_error l n = Some i /\
    CyclePhotos.find_best_match_tile query x unique_color_kdtree
      unique_colors_list tiles m =
    (getitem tiles i,
     CyclePhotos.set m c (CyclePhotos.mkGroup l ((n + 1) mod List.length l))).
Proof.
  intros [j [Hq Hj]] Hg Hn.
  destruct (nth_error l n) as [i|] eqn:Hi;
    [|apply nth_error_None in Hi; lia].
  exists i. split; [reflexivity|].
  unfold CyclePhotos.find_best_match_tile, getitem at 1.
  rewrite Hq, Hj, Hg. cbn [CyclePhotos.indices CyclePhotos.next_idx].
  destruct l as [|i0 l']; [simpl in Hn; lia|].
  unfold getitem at 1. now rewrite Hi.
Qed.

(** A run of selections for one group that does not pass the end of the
    group's list. *)
Lemma select_all_segment (m : CyclePhotos.GroupMap) (c : RGB) (l : list nat) :
  CyclePhotos.get m c <> None ->
  (forall i, In i l -> i < List.length tiles) ->
  forall (targets : list RGB) (n : nat),
    n < List.length l ->
    n + List.length targets <= List.length l ->
    Forall (resolves_to query unique_color_kdtree unique_colors_list c) targets ->
    exists ts,
      CyclePhotos.select_all query unique_color_kdtree unique_colors_list tiles
        targets (CyclePhotos.set m c (CyclePhotos.mkGroup l n)) =
      (Ok ts,
       CyclePhotos.set m c
         (CyclePhotos.mkGroup l ((n + List.length targets) mod List.length l))) /\
      map Some ts = map (nth_error tiles) (firstn (List.length targets) (skipn n l)).
Proof.
  intros Hc Hrange. induction targets as [|x targets IH]; intros n Hn Hle Hres.
  - exists []. simpl. rewrite Nat.add_0_r, Nat.mod_small by assumption.
    split; reflexivity.
  - inversion Hres as [|? ? Hx Hres']; subst.
    destruct (@find_best_match_tile_step
                (CyclePhotos.set m c (CyclePhotos.mkGroup l n)) c x l n Hx
                (get_set_same m c _) Hn) as [i [Hi Hstep]].
    cbn [CyclePhotos.select_all]. rewrite Hstep, set_set by assumption.
    assert (Hlt : i < List.length tiles)
      by (apply Hrange; eapply nth_error_In; eassumption).
    unfold getitem. destruct (nth_error tiles i) as [t|] eqn:Ht;
      [|apply nth_error_None in Ht; lia].
    assert (Hskip : skipn n l = i :: skipn (S n) l).
    { clear - Hi. revert n Hi. induction l as [|a l IHl]; intros [|n] Hi;
        simpl in *; try discriminate.
      - now injection Hi as ->.
      - now apply IHl. }
    cbn [List.length] in Hle |- *.
    destruct targets as [|x' targets'].
    + exists [t]. cbn [CyclePhotos.select_all List.length].
      rewrite Hskip. simpl. rewrite Ht. split; reflexivity.
    + assert (Hn' : n + 1 < List.length l) by (simpl in Hle; lia).
      rewrite (Nat.mod_small (n + 1)) by assumption.
      destruct (IH (n + 1)) as [ts [Hrun Hts]]; [lia | simpl in *; lia | assumption |].
      rewrite Hrun. exists (t :: ts). split.
      * do 2 f_equal. f_equal. f_equal. simpl. lia.
      * rewrite Hskip. cbn [firstn map]. rewrite Ht. f_equal.
        rewrite Hts. now rewrite Nat.add_1_r.
Qed.

Lemma select_all_app (xs ys : list RGB) (m m1 m2 : CyclePhotos.GroupMap)
    (ts1 ts2 : list Image) :
  CyclePhotos.select_all query unique_color_kdtree unique_colors_list tiles xs m
    = (Ok ts1, m1) ->
  CyclePhotos.select_all query unique_color_kdtree unique_colors_list tiles ys m1
    = (Ok ts2, m2) ->
  CyclePhotos.select_all query unique_color_kdtree unique_colors_list tiles
    (xs ++ ys) m = (Ok (ts1 ++ ts2), m2).
Proof.
  revert m ts1. induction xs as [|x xs IH]; intros m ts1 H1 H2.
  - simpl in H1. injection H1 as <- <-. exact H2.
  - cbn [app CyclePhotos.select_all] in *.
    destruct (CyclePhotos.find_best_match_tile query x unique_color_kdtree
                unique_colors_list tiles m) as [[t|e] m'] eqn:Hstep;
      [|discriminate].
    destruct (CyclePhotos.select_all query unique_color_kdtree
                unique_colors_list tiles xs m') as [[ts|e] m''] eqn:Hrest;
      [|discriminate].
    injection H1 as <- <-. now rewrite (IH _ _ Hrest H2).
Qed.

End CyclingFacts.

(** C3.  Take a colour group with [k] tile indices and its cursor inside
    the list.  Then [k] consecutive selections that all resolve to the
    group succeed and return the group's tiles in the order of the list,
    read from the cursor on and wrapping round: every index of the group
    once.  The dict ends as it started; and one such selection alone moves
    the cursor of the group by one modulo [k]. *)
Theorem cycling_round_robin (query : kd_query) (unique_color_kdtree : KDTree)
    (unique_colors_list : list RGB) (tiles : list Image)
    (color_to_indices_map : CyclePhotos.GroupMap) (c : RGB)
    (group_info : CyclePhotos.Group) (targets : list RGB) :
  let l := CyclePhotos.indices group_info in
  let n := CyclePhotos.next_idx group_info in
  let k := List.length l in
  CyclePhotos.get color_to_indices_map c = Some group_info ->
  n < k ->
  (forall i, In i l -> i < List.length tiles) ->
  List.length targets = k ->
  Forall (resolves_to query unique_color_kdtree unique_colors_list c) targets ->
  (exists ts,
     CyclePhotos.select_all query unique_color_kdtree unique_colors_list tiles
       targets color_to_indices_map = (Ok ts, color_to_indices_map) /\
     map Some ts = map (nth_error tiles) (rotate n l)) /\
  Permutation (rotate n l) l /\
  (forall x, resolves_to query unique_color_kdtree unique_colors_list c x ->
     exists i, nth_error l n = Some i /\
       CyclePhotos.find_best_match_tile query x unique_color_kdtree
         unique_colors_list tiles color_to_indices_map =
       (getitem tiles i,
        CyclePhotos.set color_to_indices_map c
          (CyclePhotos.mkGroup l ((n + 1) mod k)))).
Proof.
  cbv zeta. destruct group_info as [l n]. cbn [CyclePhotos.indices CyclePhotos.next_idx].
  intros Hg Hn Hrange Hlen Hres.
  assert (Hpres : CyclePhotos.get color_to_indices_map c <> None) by congruence.
  split; [|split].
  - assert (Hxs : List.length (firstn (List.length l - n) targets) = List.length l - n)
      by (rewrite length_firstn; lia).
    assert (Hys : List.length (skipn (List.length l - n) targets) = n)
      by (rewrite length_skipn; lia).
    pose proof (firstn_skipn (List.length l - n) targets) as Hsplit.
    remember (firstn (List.length l - n) targets) as xs eqn:Exs.
    remember (skipn (List.length l - n) targets) as ys eqn:Eys.
    clear Exs Eys. subst targets.
    apply Forall_app in Hres. destruct Hres as [Hres1 Hres2].
    destruct (@select_all_segment query unique_color_kdtree unique_colors_list
                tiles color_to_indices_map c l Hpres Hrange xs n)
      as [ts1 [Hrun1 Hts1]]; [assumption | lia | assumption |].
    destruct (@select_all_segment query unique_color_kdtree unique_colors_list
                tiles color_to_indices_map c l Hpres Hrange ys 0)
      as [ts2 [Hrun2 Hts2]]; [lia | lia | assumption |].
    rewrite (set_get_same _ _ Hg) in Hrun1.
    rewrite Hxs in Hrun1, Hts1. rewrite Hys in Hrun2, Hts2.
    replace (n + (List.length l - n)) with (List.length l) in Hrun1 by lia.
    rewrite Nat.Div0.mod_same in Hrun1.
    rewrite Nat.add_0_l, Nat.mod_small in Hrun2 by assumption.
    rewrite (set_get_same _ _ Hg) in Hrun2.
    exists (ts1 ++ ts2). split.
    + eapply select_all_app; eassumption.
    + unfold rotate. rewrite !map_app, Hts1, Hts2. f_equal.
      rewrite firstn_all2; [reflexivity|]. rewrite length_skipn. lia.
  - unfold rotate. rewrite Permutation_app_comm. now rewrite firstn_skipn.
  - intros x Hx.
    exact (@find_best_match_tile_step query unique_color_kdtree
             unique_colors_list tiles color_to_indices_map c x l n Hx Hg Hn).
Qed.

Lemma cycling_round_robin_witness :
  (exists ts,
     CyclePhotos.select_all nearest_color_index [RED; BLUE] [RED; BLUE]
       cycling_tiles reddish_targets red_cursor_1 = (Ok ts, red_cursor_1) /\
     map Some ts = map (nth_error cycling_tiles) (rotate 1 [0; 2; 3])) /\
  Permutation (rotate 1 [0; 2; 3]) [0; 2; 3] /\
  (forall x, resolves_to nearest_color_index [RED; BLUE] [RED; BLUE] RED x ->
     exists i, nth_error [0; 2; 3] 1 = Some i /\
       CyclePhotos.find_best_match_tile nearest_color_index x [RED; BLUE]
         [RED; BLUE] cycling_tiles red_cursor_1 =
       (getitem cycling_tiles i,
        CyclePhotos.set red_cursor_1 RED (CyclePhotos.mkGroup [0; 2; 3] ((1 + 1) mod 3)))).
Proof.
  apply (@cycling_round_robin nearest_color_index [RED; BLUE] [RED; BLUE]
           cycling_tiles red_cursor_1 RED (CyclePhotos.mkGroup [0; 2; 3] 1)
           reddish_targets).
  - reflexivity.
  - simpl; lia.
  - simpl. intros i [<-|[<-|[<-|[]]]]; lia.
  - reflexivity.
  - repeat constructor; exists 0; split; reflexivity.
Defined.

Example cycling_sample :
  CyclePhotos.select_all nearest_color_index [RED; BLUE] [RED; BLUE]
    cycling_tiles reddish_targets red_cursor_1
  = (Ok [solid 3 3 RED; solid 4 4 RED; solid 2 2 RED], red_cursor_1).
Proof. reflexivity. Qed.

(** The cycling selector is not idempotent: the same colour asked twice
    gives two different tiles. *)
Example cycling_not_idempotent :
  CyclePhotos.select_all nearest_color_index [RED; BLUE] [RED; BLUE]
    cycling_tiles [RED; RED] red_cursor_1
  = (Ok [solid 3 3 RED; solid 4 4 RED],
     [(RED, CyclePhotos.mkGroup [0; 2; 3] 0); (BLUE, CyclePhotos.mkGroup [1] 0)]).
Proof. reflexivity. Qed.

(** ** Which tile the nearest-match selector returns *)

Lemma first_with_color_at (tiles : list Image) (avg_colors : list RGB) :
  forall (i : nat) (t : Image) (c : RGB),
    nth_error tiles i = Some t ->
    nth_error avg_colors i = Some c ->
    (forall j c', j < i -> nth_error avg_colors j = Some c' -> c' <> c) ->
    first_with_color tiles avg_colors c = Some t.
Proof.
  revert avg_colors. induction tiles as [|t0 tiles IH];
    intros [|a avg_colors] [|i] t c Ht Hc Hfirst; simpl in *; try discriminate.
  - injection Ht as ->. injection Hc as ->. now rewrite RGB_eqb_refl.
  - assert (Ha : a <> c) by (apply (Hfirst 0 a); [lia | reflexivity]).
    apply RGB_eqb_neq in Ha. rewrite Ha.
    apply (IH avg_colors i); auto.
    intros j c' Hj Hc'. apply (Hfirst (S j) c'); [lia | exact Hc'].
Qed.

(** Whatever way an exact index breaks ties: when the query answers
    position [i], the selector returns the tile loaded at position [i];
    its average colour is at minimum distance from the query colour among
    all tiles; and it is the first tile with that average colour whenever
    no tile loaded before it has the same colour. *)
Lemma find_best_match_tile_indexed (query : kd_query)
    (tiles : list Image) (target_avg_color : RGB) (i : nat) :
  let tile_avg_colors := map get_average_rgb tiles in
  exact_nearest query ->
  query tile_avg_colors target_avg_color = Some i ->
  exists t,
    ByTile.find_best_match_tile query target_avg_color tile_avg_colors tiles = Ok t /\
    nth_error tiles i = Some t /\
    (forall t', In t' tiles ->
       (dist2 (get_average_rgb t) target_avg_color
        <= dist2 (get_average_rgb t') target_avg_color)%Z) /\
    ((forall j t', j < i -> nth_error tiles j = Some t' ->
        get_average_rgb t' <> get_average_rgb t) ->
     first_with_color tiles tile_avg_colors (get_average_rgb t) = Some t).
Proof.
  cbv zeta. intros Hexact Hq.
  destruct (Hexact _ _ _ Hq) as [c [Hc Hmin]].
  rewrite nth_error_map in Hc.
  destruct (nth_error tiles i) as [t|] eqn:Ht; [|discriminate].
  injection Hc as <-. exists t.
  unfold ByTile.find_best_match_tile, getitem. rewrite Hq, Ht.
  split; [reflexivity|]. split; [reflexivity|]. split.
  - intros t' Hin. apply In_nth_error in Hin. destruct Hin as [j Hj].
    apply (Hmin j). now rewrite nth_error_map, Hj.
  - intros Hfirst. apply (@first_with_color_at tiles _ i).
    + exact Ht.
    + now rewrite nth_error_map, Ht.
    + intros j c' Hj Hc'. rewrite nth_error_map in Hc'.
      destruct (nth_error tiles j) as [t'|] eqn:Ht'; [|discriminate].
      injection Hc' as <-. now apply (Hfirst j).
Qed.





Example nearest_match_first_sample :
  let tiles := [solid 2 2 BLUE; dark_light; light_dark] in
  map get_average_rgb tiles = [BLUE; (15, 0, 0)%Z; (15, 0, 0)%Z] /\
  nearest_color_index (map get_average_rgb tiles) (30, 0, 0)%Z = Some 1 /\
  ByTile.find_best_match_tile nearest_color_index (30, 0, 0)%Z
    (map get_average_rgb tiles) tiles = Ok dark_light.
Proof. repeat split. Qed.

(** ** The paste loop *)

Lemma grid_cells_in (grid_w grid_h r c : nat) :
  In (r, c) (grid_cells grid_w grid_h) <-> r < grid_h /\ c < grid_w.
Proof.
  unfold grid_cells. rewrite in_flat_map. split.
  - intros [r' [Hr Hc]]. apply in_seq in Hr. apply in_map_iff in Hc.
    destruct Hc as [c' [[= <- <-] Hc']]. apply in_seq in Hc'. lia.
  - intros [Hr Hc]. exists r. split; [apply in_seq; lia|].
    apply in_map_iff. exists c. split; [reflexivity | apply in_seq; lia].
Qed.

Lemma NoDup_flat_map {A B} (f : A -> list B) (l : list A) :
  NoDup l -> (forall a, NoDup (f a)) ->
  (forall a b x, In x (f a) -> In x (f b) -> a = b) ->
  NoDup (flat_map f l).
Proof.
  intros Hl Hf Hinj. induction Hl as [|a l Hnotin Hl IH]; simpl; [constructor|].
  apply NoDup_app; [apply Hf | exact IH |].
  intros x Hx Hx'. apply in_flat_map in Hx'. destruct Hx' as [b [Hb Hxb]].
  assert (a = b) by (eapply Hinj; eassumption). subst b. contradiction.
Qed.

Lemma grid_cells_NoDup (grid_w grid_h : nat) : NoDup (grid_cells grid_w grid_h).
Proof.
  unfold grid_cells. apply NoDup_flat_map.
  - apply seq_NoDup.
  - intros r. generalize (seq_NoDup grid_w 0). generalize (seq 0 grid_w).
    induction 1 as [|c l Hnotin Hl IH]; simpl; constructor; [|exact IH].
    intros Hin. apply in_map_iff in Hin. destruct Hin as [c' [[= ->] Hc']].
    contradiction.
  - intros r r' [r0 c0] Hin Hin'. apply in_map_iff in Hin, Hin'.
    destruct Hin as [c [[= <- <-] _]]. destruct Hin' as [c' [[= <- _] _]].
    reflexivity.
Qed.

Lemma NoDup_map_eq {A B} (f : A -> B) (l : list A) (a b : A) :
  NoDup (map f l) -> In a l -> In b l -> f a = f b -> a = b.
Proof.
  induction l as [|x l IH]; simpl; intros Hnd Ha Hb Hf; [contradiction|].
  inversion Hnd as [|? ? Hnotin Hnd']; subst.
  destruct Ha as [->|Ha], Hb as [->|Hb]; auto.
  - exfalso. apply Hnotin. rewrite Hf. now apply in_map.
  - exfalso. apply Hnotin. rewrite <- Hf. now apply in_map.
Qed.

(** A box of the tile size at the offset of cell [(r, c)] holds the
    pixels whose column and row, divided by the tile size, give [c] and
    [r]. *)
Lemma in_box_cell (tile_w tile_h r c x y : nat) :
  0 < tile_w -> 0 < tile_h ->
  in_box (c * tile_w) (r * tile_h) tile_w tile_h x y = true <->
  x / tile_w = c /\ y / tile_h = r.
Proof.
  intros Hw Hh. unfold in_box.
  rewrite !andb_true_iff, !Nat.leb_le, !Nat.ltb_lt.
  pose proof (Nat.div_mod_eq x tile_w) as Hx.
  pose proof (Nat.mod_upper_bound x tile_w) as Hxm.
  pose proof (Nat.div_mod_eq y tile_h) as Hy.
  pose proof (Nat.mod_upper_bound y tile_h) as Hym.
  split.
  - intros [[[H1 H2] H3] H4]. split.
    + symmetry. apply Nat.div_unique with (x - c * tile_w); lia.
    + symmetry. apply Nat.div_unique with (y - r * tile_h); lia.
  - intros [<- <-]. nia.
Qed.

Lemma fold_paste_size (new : list Paste) (canvas : Image) :
  width (fold_left apply_paste new canvas) = width canvas /\
  height (fold_left apply_paste new canvas) = height canvas.
Proof.
  revert canvas. induction new as [|p new IH]; intros canvas; simpl; [auto|].
  destruct (IH (apply_paste canvas p)) as [-> ->]. auto.
Qed.

Lemma fold_paste_untouched (new : list Paste) (canvas : Image) (x y : nat) :
  (forall q, In q new -> covers q x y = false) ->
  pixels (fold_left apply_paste new canvas) x y = pixels canvas x y.
Proof.
  revert canvas. induction new as [|p new IH]; intros canvas Hnone; simpl;
    [reflexivity|].
  rewrite IH by (intros q Hq; apply Hnone; now right).
  unfold apply_paste, paste. cbn [pixels].
  specialize (Hnone p (or_introl eq_refl)). unfold covers in Hnone.
  now rewrite Hnone.
Qed.

(** Hard replacement: where exactly one paste of a sequence covers a
    pixel, the pixel ends as that paste wrote it. *)
Lemma fold_paste_pixel (new : list Paste) (canvas : Image) (p : Paste) (x y : nat) :
  In p new -> covers p x y = true ->
  (forall q, In q new -> covers q x y = true -> q = p) ->
  pixels (fold_left apply_paste new canvas) x y =
  pixels (tile p) (x - fst (offset p)) (y - snd (offset p)).
Proof.
  revert canvas. induction new as [|q new IH]; intros canvas Hin Hcov Huniq;
    [contradiction|].
  cbn [fold_left].
  destruct (existsb (fun q' => covers q' x y) new) eqn:Hex.
  - apply existsb_exists in Hex. destruct Hex as [q' [Hq' Hc']].
    assert (q' = p) by (apply Huniq; [now right | exact Hc']). subst q'.
    apply IH; auto. intros q0 Hq0. apply Huniq. now right.
  - assert (Hnone : forall q', In q' new -> covers q' x y = false).
    { intros q' Hq'. destruct (covers q' x y) eqn:Hc; [|reflexivity].
      assert (existsb (fun q' => covers q' x y) new = true)
        by (apply existsb_exists; eauto).
      congruence. }
    rewrite fold_paste_untouched by exact Hnone.
    destruct Hin as [->|Hin].
    + unfold apply_paste, paste. cbn [pixels]. unfold covers in Hcov.
      now rewrite Hcov.
    + rewrite (Hnone p Hin) in Hcov. discriminate.
Qed.

Section AssembleFacts.

Variable Sel : Type.
Variable select : RGB -> Sel -> result (Image * Sel).
Variables tile_w tile_h : nat.
Variable tiles : list Image.

(** The selector hands out loaded tiles, and these have the tile size. *)
Hypothesis select_in :
  forall x s t s', select x s = Ok (t, s') -> In t tiles.
Hypothesis tiles_size :
  Forall (fun t => width t = tile_w /\ height t = tile_h) tiles.

Lemma for_each_paint_cell (base_small_for_avg : Image) (cells : list (nat * nat)) :
  forall canvas s pastes canvas' s' pastes',
    for_each (paint_cell select base_small_for_avg tile_w tile_h)
             (canvas, s, pastes) cells = Ok (canvas', s', pastes') ->
    exists new,
      pastes' = pastes ++ new /\
      map cell new = cells /\
      canvas' = fold_left apply_paste new canvas /\
      Forall (fun p => offset p = (snd (cell p) * tile_w, fst (cell p) * tile_h) /\
                       width (tile p) = tile_w /\ height (tile p) = tile_h /\
                       In (tile p) tiles) new /\
      selections select
        (map (fun rc => pixels base_small_for_avg (snd rc) (fst rc)) cells) s
      = Ok (map tile new).
Proof.
  rewrite Forall_forall in tiles_size.
  induction cells as [|[r c] cells IH]; intros canvas s pastes canvas' s' pastes' H.
  - simpl in H. injection H as <- <- <-. exists []. rewrite app_nil_r.
    repeat split. constructor.
  - cbn [for_each] in H. apply bind_ok in H. destruct H as [[[cv1 s1] ps1] [Hstep Hrest]].
    unfold paint_cell in Hstep.
    apply bind_ok in Hstep. destruct Hstep as [col [Hcol Hstep]].
    apply bind_ok in Hstep. destruct Hstep as [[t s2] [Hsel Hstep]].
    injection Hstep as <- <- <-.
    unfold getpixel in Hcol. cbn [fst snd] in Hcol.
    destruct (in_bounds base_small_for_avg c r); [|discriminate].
    injection Hcol as <-.
    destruct (IH _ _ _ _ _ _ Hrest) as [new [-> [Hcells [-> [Hall Hsels]]]]].
    exists (mkPaste (r, c) t (c * tile_w, r * tile_h) :: new).
    rewrite <- app_assoc. cbn [app map cell fold_left]. split; [reflexivity|].
    split; [now rewrite Hcells|]. split; [reflexivity|]. split.
    + constructor; [|exact Hall]. cbn. split; [reflexivity|].
      pose proof (select_in Hsel) as Hin.
      destruct (tiles_size t Hin). auto.
    + cbn [selections fst snd]. rewrite Hsel. cbn [bind]. rewrite Hsels.
      reflexivity.
Qed.

(** The canvas and the pastes that [assemble] returns. *)
Lemma assemble_exact_tiling (fs : FileSystem) (base_small_for_avg : Image)
    (grid_w grid_h : nat) (s s' : Sel) (canvas : Image) (ps : list Paste) :
  0 < tile_w -> 0 < tile_h ->
  assemble select fs base_small_for_avg grid_w grid_h tile_w tile_h s
    = Ok (canvas, s', ps) ->
  painted_by select s base_small_for_avg tiles tile_w tile_h
    (mkMosaic (grid_w, grid_h) canvas ps).
Proof.
  intros Hw Hh Hasm. unfold assemble in Hasm.
  apply bind_ok in Hasm. destruct Hasm as [canvas0 [Hnew Hasm]].
  unfold Image_new in Hnew.
  destruct (allocation_error fs (grid_w * tile_w, grid_h * tile_h));
    [discriminate|]. injection Hnew as <-.
  apply for_each_paint_cell in Hasm.
  destruct Hasm as [new [Hp [Hcells [Hcanvas [Hall Hsels]]]]].
  simpl in Hp. subst ps.
  rewrite Forall_forall in Hall.
  destruct (fold_paste_size new (blank (grid_w * tile_w, grid_h * tile_h)))
    as [Hcw Hch]. rewrite <- Hcanvas in Hcw, Hch. cbn in Hcw, Hch.
  assert (Hnd : NoDup (map cell new)) by (rewrite Hcells; apply grid_cells_NoDup).
  assert (Hcov : forall p x y, In p new ->
            (covers p x y = true <->
             x / tile_w = snd (cell p) /\ y / tile_h = fst (cell p))).
  { intros p x y Hin. destruct (Hall p Hin) as [Hoff [Htw [Hth _]]].
    unfold covers. rewrite Hoff, Htw, Hth. cbn [fst snd].
    now apply in_box_cell. }
  assert (Huniq : forall p q x y, In p new -> In q new ->
            covers p x y = true -> covers q x y = true -> p = q).
  { intros p q x y Hp Hq Hcp Hcq. apply Hcov in Hcp, Hcq; auto.
    apply (NoDup_map_eq cell new); auto.
    destruct (cell p), (cell q). cbn in *. f_equal; lia. }
  assert (Hpix : forall p x y, In p new -> covers p x y = true ->
            pixels canvas x y =
            pixels (tile p) (x - fst (offset p)) (y - snd (offset p))).
  { intros p x y Hin Hc. rewrite Hcanvas.
    apply fold_paste_pixel; auto. intros q Hq Hcq. now apply (Huniq q p x y). }
  unfold painted_by, exact_tiling. cbn [grid mosaic_image pastes fst snd].
  split.
  - split; [now rewrite Hcw, Hch|]. split; [exact Hcells|]. split; [exact Hnd|].
    split; [|split; [exact Huniq | split; [|exact Hpix]]].
    + intros p Hin. destruct (Hall p Hin) as [Hoff [-> [-> _]]]. auto.
    + intros x y. unfold in_bounds. rewrite Hcw, Hch, andb_true_iff, !Nat.ltb_lt.
      split.
      * intros [Hx Hy].
        assert (Hin : In (y / tile_h, x / tile_w) (map cell new)).
        { rewrite Hcells. apply grid_cells_in. split.
          - apply Nat.Div0.div_lt_upper_bound. lia.
          - apply Nat.Div0.div_lt_upper_bound. lia. }
        apply in_map_iff in Hin. destruct Hin as [p [Hcell Hin]].
        exists p. split; [exact Hin|]. apply Hcov; [exact Hin|].
        rewrite Hcell. auto.
      * intros [p [Hin Hc]]. apply Hcov in Hc; [|exact Hin].
        assert (Hg : In (cell p) (grid_cells grid_w grid_h))
          by (rewrite <- Hcells; now apply in_map).
        destruct (cell p) as [r c]. apply grid_cells_in in Hg. cbn in Hc.
        destruct Hc as [Hc Hr]. subst r c.
        pose proof (Nat.div_mod_eq x tile_w). pose proof (Nat.div_mod_eq y tile_h).
        pose proof (Nat.mod_upper_bound x tile_w). pose proof (Nat.mod_upper_bound y tile_h).
        nia.
  - exists (map tile new). split; [exact Hsels|]. split.
    + apply Forall_forall. intros t Ht. apply in_map_iff in Ht.
      destruct Ht as [p [<- Hp]]. now destruct (Hall p Hp) as (_ & _ & _ & Hin).
    + unfold shows. cbn [grid mosaic_image pastes fst snd].
      split; [reflexivity|].
      intros k r c t dx dy Hk Ht Hdx Hdy.
      rewrite nth_error_map in Ht.
      destruct (nth_error new k) as [p|] eqn:Hpk; [|discriminate].
      injection Ht as <-.
      assert (Hcell : cell p = (r, c)).
      { rewrite <- Hcells, nth_error_map, Hpk in Hk. now injection Hk. }
      assert (Hin : In p new) by (eapply nth_error_In; eassumption).
      destruct (Hall p Hin) as [Hoff _]. rewrite Hcell in Hoff. cbn [fst snd] in Hoff.
      rewrite (Hpix p (c * tile_w + dx) (r * tile_h + dy) Hin).
      * rewrite Hoff. cbn [fst snd]. f_equal; lia.
      * apply Hcov; [exact Hin|]. rewrite Hcell. cbn [fst snd]. split.
        -- symmetry. apply Nat.div_unique with dx; lia.
        -- symmetry. apply Nat.div_unique with dy; lia.
Qed.

End AssembleFacts.

Lemma ByTile_select_in (query : kd_query) (kdtree : KDTree) (tiles : list Image)
    (x : RGB) (u u' : unit) (t : Image) :
  ByTile.select query kdtree tiles x u = Ok (t, u') -> In t tiles.
Proof.
  unfold ByTile.select, ByTile.find_best_match_tile, getitem. intros H.
  apply bind_ok in H. destruct H as [t' [H [= <- _]]].
  destruct (query kdtree x) as [i|].
  - destruct (nth_error tiles i) eqn:Hi; [|discriminate].
    injection H as <-. eapply nth_error_In; eassumption.
  - destruct tiles; [discriminate|]. injection H as <-. now left.
Qed.

Lemma CyclePhotos_select_in (query : kd_query) (kdtree : KDTree)
    (unique_colors_list : list RGB) (tiles : list Image)
    (x : RGB) (m m' : CyclePhotos.GroupMap) (t : Image) :
  CyclePhotos.select query kdtree unique_colors_list tiles x m = Ok (t, m') ->
  In t tiles.
Proof.
  assert (Hget : forall i, getitem tiles i = Ok t -> In t tiles).
  { unfold getitem. intros i H. destruct (nth_error tiles i) eqn:Hi; [|discriminate].
    injection H as <-. eapply nth_error_In; eassumption. }
  unfold CyclePhotos.select, CyclePhotos.find_best_match_tile.
  destruct (query kdtree x) as [j|].
  - destruct (getitem unique_colors_list j) as [c|e]; [|discriminate].
    destruct (CyclePhotos.get m c) as [g|].
    + destruct (CyclePhotos.indices g) as [|i0 l] eqn:Hl.
      * intros H. apply bind_ok in H. destruct H as [t' [H [= <- _]]]. eauto.
      * destruct (getitem (i0 :: l) (CyclePhotos.next_idx g)) as [i|e];
          [|discriminate].
        intros H. apply bind_ok in H. destruct H as [t' [H [= <- _]]]. eauto.
    + intros H. apply bind_ok in H. destruct H as [t' [H [= <- _]]]. eauto.
  - destruct tiles as [|t0 tiles']; [discriminate|].
    assert (H0 : forall r, bind (Ok t0) (fun best_tile => Ok (best_tile, m)) = Ok (t, r)
                           -> In t (t0 :: tiles'))
      by (intros r [= <- _]; now left).
    destruct unique_colors_list as [|key rest]; [apply H0|].
    destruct (CyclePhotos.get m key) as [g|]; [|apply H0].
    destruct (CyclePhotos.indices g) as [|i0 l]; [apply H0|].
    intros H. apply bind_ok in H. destruct H as [t' [H [= <- _]]]. eauto.
Qed.

Lemma resize_ok (resample : Image -> nat * nat -> nat -> nat -> RGB)
    (fs : FileSystem) (img img' : Image) (size : nat * nat) :
  resize resample fs img size = Ok img' ->
  img' = mkImage (fst size) (snd size) (resample img size) /\
  0 < fst size /\ 0 < snd size /\ allocation_error fs size = None.
Proof.
  unfold resize.
  destruct ((0 <? fst size) && (0 <? snd size)) eqn:Hpos; [|discriminate].
  destruct (allocation_error fs size); [discriminate|]. intros [= <-].
  apply andb_true_iff in Hpos. destruct Hpos as [H1 H2].
  apply Nat.ltb_lt in H1. apply Nat.ltb_lt in H2. auto.
Qed.

Section RunToTheEnd.

Variable resample : Image -> nat * nat -> nat -> nat -> RGB.
Variable query : kd_query.
Variable fs : FileSystem.
Variables base_image_path tile_images_source output_path : string.
Variables tile_w tile_h : nat.
Variable grid_resolution_factor : float.

(** What the [try:] of the nearest-match script has done when it
    reaches its end. *)
Lemma ByTile_try_generate_mosaic_ok (mos : Mosaic) :
  ByTile.try_generate_mosaic resample query fs base_image_path
    tile_images_source output_path (tile_w, tile_h) grid_resolution_factor
  = Ok mos ->
  exists base_image tiles tile_avg_colors,
    open_base_image fs base_image_path = Ok base_image /\
    snd (load_tile_images resample fs tile_images_source (tile_w, tile_h))
    = Ok (tiles, tile_avg_colors) /\
    grid_of fs base_image_path (tile_w, tile_h) grid_resolution_factor
    = Ok (grid mos) /\
    save fs output_path (mosaic_image mos) = None /\
    painted_by (ByTile.select query tile_avg_colors tiles) tt
      (mkImage (fst (grid mos)) (snd (grid mos)) (resample base_image (grid mos)))
      tiles tile_w tile_h mos.
Proof.
  unfold ByTile.try_generate_mosaic, grid_of. cbn [fst snd]. intros H.
  apply bind_ok in H. destruct H as [base_image [Hbase H]]. rewrite Hbase.
  apply bind_ok in H. destruct H as [[tiles avgs] [Hload H]].
  apply bind_ok in H. destruct H as [_ [_ H]].
  apply bind_ok in H. destruct H as [grid_w [Hgw H]].
  apply bind_ok in H. destruct H as [grid_h [Hgh H]].
  apply bind_ok in H. destruct H as [base_small [Hsmall H]].
  apply bind_ok in H. destruct H as [[[canvas u] ps] [Hasm H]].
  apply bind_ok in H. destruct H as [[] [Hsave [= <-]]].
  apply resize_ok in Hsmall. destruct Hsmall as (-> & _).
  cbn [bind grid mosaic_image fst snd]. rewrite Hgw. cbn [bind]. rewrite Hgh.
  exists base_image, tiles, avgs.
  split; [reflexivity|]. split; [exact Hload|]. split; [reflexivity|]. split.
  { unfold save_mosaic in Hsave.
    destruct (save fs output_path canvas); [discriminate | reflexivity]. }
  destruct (load_tile_images_ok _ _ _ _ Hload) as (_ & _ & Hw & Hh & Hsize).
  destruct u. eapply assemble_exact_tiling; [| exact Hsize | exact Hw | exact Hh | exact Hasm].
  intros x s t s' Hsel. now apply ByTile_select_in in Hsel.
Qed.

(** The same for the cycling script: its selector starts from the
    dict that the grouping loop builds. *)
Lemma CyclePhotos_try_generate_mosaic_ok (mos : Mosaic) :
  CyclePhotos.try_generate_mosaic resample query fs base_image_path
    tile_images_source output_path (tile_w, tile_h) grid_resolution_factor
  = Ok mos ->
  exists base_image tiles tile_avg_colors,
    open_base_image fs base_image_path = Ok base_image /\
    snd (load_tile_images resample fs tile_images_source (tile_w, tile_h))
    = Ok (tiles, tile_avg_colors) /\
    grid_of fs base_image_path (tile_w, tile_h) grid_resolution_factor
    = Ok (grid mos) /\
    save fs output_path (mosaic_image mos) = None /\
    painted_by
      (CyclePhotos.select query
         (CyclePhotos.keys (CyclePhotos.group_tiles tile_avg_colors))
         (CyclePhotos.keys (CyclePhotos.group_tiles tile_avg_colors)) tiles)
      (CyclePhotos.group_tiles tile_avg_colors)
      (mkImage (fst (grid mos)) (snd (grid mos)) (resample base_image (grid mos)))
      tiles tile_w tile_h mos.
Proof.
  unfold CyclePhotos.try_generate_mosaic, grid_of. cbn [fst snd]. intros H.
  apply bind_ok in H. destruct H as [base_image [Hbase H]]. rewrite Hbase.
  apply bind_ok in H. destruct H as [[tiles avgs] [Hload H]].
  apply bind_ok in H. destruct H as [_ [_ H]].
  apply bind_ok in H. destruct H as [_ [_ H]].
  apply bind_ok in H. destruct H as [_ [_ H]].
  apply bind_ok in H. destruct H as [grid_w [Hgw H]].
  apply bind_ok in H. destruct H as [grid_h [Hgh H]].
  apply bind_ok in H. destruct H as [base_small [Hsmall H]].
  apply bind_ok in H. destruct H as [[[canvas u] ps] [Hasm H]].
  apply bind_ok in H. destruct H as [[] [Hsave [= <-]]].
  apply resize_ok in Hsmall. destruct Hsmall as (-> & _).
  cbn [bind grid mosaic_image fst snd]. rewrite Hgw. cbn [bind]. rewrite Hgh.
  exists base_image, tiles, avgs.
  split; [reflexivity|]. split; [exact Hload|]. split; [reflexivity|]. split.
  { unfold save_mosaic in Hsave.
    destruct (save fs output_path canvas); [discriminate | reflexivity]. }
  destruct (load_tile_images_ok _ _ _ _ Hload) as (_ & _ & Hw & Hh & Hsize).
  eapply assemble_exact_tiling; [| exact Hsize | exact Hw | exact Hh | exact Hasm].
  intros x s t s' Hsel. now apply CyclePhotos_select_in in Hsel.
Qed.

End RunToTheEnd.

(** C1.  A run of [generate_mosaic], of either script, that reaches the
    end has tiled its canvas exactly: the canvas has the size of the grid
    times the tile size, one tile was pasted per grid cell, in row-major
    order, at offset [(c * tile_w, r * tile_h)], the boxes pasted are
    pairwise disjoint and together are the canvas.  The tiles pasted are
    the tiles that the selector of the script hands out, called once per
    cell in this order on the colour of the cell in the base image reduced
    to the grid; each is one of the loaded tiles, and the box of each cell
    holds the pixels of its tile, none blended. *)
Theorem generate_mosaic_exact_tiling
    (resample : Image -> nat * nat -> nat -> nat -> RGB) (query : kd_query)
    (fs : FileSystem) (base_image_path tile_images_source output_path : string)
    (tile_size : nat * nat) (grid_resolution_factor : float) (mos : Mosaic) :
  let by_tile :=
    ByTile.generate_mosaic resample query fs base_image_path tile_images_source
      output_path tile_size grid_resolution_factor in
  let cycling :=
    CyclePhotos.generate_mosaic resample query fs base_image_path
      tile_images_source output_path tile_size grid_resolution_factor in
  by_tile = Saved mos \/ cycling = Saved mos ->
  grid_of fs base_image_path tile_size grid_resolution_factor = Ok (grid mos) /\
  exists base_image tiles tile_avg_colors,
    open_base_image fs base_image_path = Ok base_image /\
    snd (load_tile_images resample fs tile_images_source tile_size)
    = Ok (tiles, tile_avg_colors) /\
    let base_small_for_avg :=
      mkImage (fst (grid mos)) (snd (grid mos)) (resample base_image (grid mos)) in
    let color_to_indices_map := CyclePhotos.group_tiles tile_avg_colors in
    let unique_colors_list := CyclePhotos.keys color_to_indices_map in
    (by_tile = Saved mos ->
     painted_by (ByTile.select query tile_avg_colors tiles) tt
       base_small_for_avg tiles (fst tile_size) (snd tile_size) mos) /\
    (cycling = Saved mos ->
     painted_by
       (CyclePhotos.select query unique_colors_list unique_colors_list tiles)
       color_to_indices_map
       base_small_for_avg tiles (fst tile_size) (snd tile_size) mos).
Proof.
  destruct tile_size as [tile_w tile_h]. cbv zeta. cbn [fst snd].
  assert (Hby : ByTile.generate_mosaic resample query fs base_image_path
                  tile_images_source output_path (tile_w, tile_h)
                  grid_resolution_factor = Saved mos ->
                ByTile.try_generate_mosaic resample query fs base_image_path
                  tile_images_source output_path (tile_w, tile_h)
                  grid_resolution_factor = Ok mos).
  { unfold ByTile.generate_mosaic.
    destruct (ByTile.try_generate_mosaic _ _ _ _ _ _ _ _); congruence. }
  assert (Hcy : CyclePhotos.generate_mosaic resample query fs base_image_path
                  tile_images_source output_path (tile_w, tile_h)
                  grid_resolution_factor = Saved mos ->
                CyclePhotos.try_generate_mosaic resample query fs base_image_path
                  tile_images_source output_path (tile_w, tile_h)
                  grid_resolution_factor = Ok mos).
  { unfold CyclePhotos.generate_mosaic.
    destruct (CyclePhotos.try_generate_mosaic _ _ _ _ _ _ _ _); congruence. }
  intros H.
  assert (Hprep : exists base_image tiles tile_avg_colors,
             open_base_image fs base_image_path = Ok base_image /\
             snd (load_tile_images resample fs tile_images_source (tile_w, tile_h))
             = Ok (tiles, tile_avg_colors) /\
             grid_of fs base_image_path (tile_w, tile_h) grid_resolution_factor
             = Ok (grid mos)).
  { destruct H as [H|H].
    - apply Hby, ByTile_try_generate_mosaic_ok in H.
      destruct H as (b & t & a & ? & ? & ? & _). eauto 6.
    - apply Hcy, CyclePhotos_try_generate_mosaic_ok in H.
      destruct H as (b & t & a & ? & ? & ? & _). eauto 6. }
  destruct Hprep as (base_image & tiles & avgs & Hopen & Hload & Hgrid).
  split; [exact Hgrid|]. exists base_image, tiles, avgs.
  split; [exact Hopen|]. split; [exact Hload|]. split.
  - intros Hs. apply Hby, ByTile_try_generate_mosaic_ok in Hs.
    destruct Hs as (b & t & a & Hb & Hl & _ & _ & Hp).
    rewrite Hopen in Hb. rewrite Hload in Hl.
    injection Hb as <-. injection Hl as <- <-. exact Hp.
  - intros Hs. apply Hcy, CyclePhotos_try_generate_mosaic_ok in Hs.
    destruct Hs as (b & t & a & Hb & Hl & _ & _ & Hp).
    rewrite Hopen in Hb. rewrite Hload in Hl.
    injection Hb as <-. injection Hl as <- <-. exact Hp.
Qed.

Lemma generate_mosaic_exact_tiling_witness :
  let by_tile :=
    ByTile.generate_mosaic nearest_pixel nearest_color_index sample_fs
      "base.png" "tiles" "out/mosaic.png" (2, 2) 1%float in
  let cycling :=
    CyclePhotos.generate_mosaic nearest_pixel nearest_color_index sample_fs
      "base.png" "tiles" "out/mosaic.png" (2, 2) 1%float in
  grid_of sample_fs "base.png" (2, 2) 1%float = Ok (grid sample_mosaic) /\
  exists base_image tiles tile_avg_colors,
    open_base_image sample_fs "base.png" = Ok base_image /\
    snd (load_tile_images nearest_pixel sample_fs "tiles" (2, 2))
    = Ok (tiles, tile_avg_colors) /\
    let base_small_for_avg :=
      mkImage (fst (grid sample_mosaic)) (snd (grid sample_mosaic))
        (nearest_pixel base_image (grid sample_mosaic)) in
    let color_to_indices_map := CyclePhotos.group_tiles tile_avg_colors in
    let unique_colors_list := CyclePhotos.keys color_to_indices_map in
    (by_tile = Saved sample_mosaic ->
     painted_by (ByTile.select nearest_color_index tile_avg_colors tiles) tt
       base_small_for_avg tiles 2 2 sample_mosaic) /\
    (cycling = Saved sample_mosaic ->
     painted_by
       (CyclePhotos.select nearest_color_index unique_colors_list
          unique_colors_list tiles)
       color_to_indices_map base_small_for_avg tiles 2 2 sample_mosaic).
Proof.
  apply (@generate_mosaic_exact_tiling nearest_pixel nearest_color_index
           sample_fs "base.png" "tiles" "out/mosaic.png" (2, 2) 1%float
           sample_mosaic).
  left. vm_compute. reflexivity.
Defined.

Example generate_mosaic_sample :
  grid sample_mosaic = (2, 1) /\
  (width (mosaic_image sample_mosaic), height (mosaic_image sample_mosaic)) = (4, 2) /\
  map (fun p => (cell p, offset p, get_average_rgb (tile p))) (pastes sample_mosaic)
    = [((0, 0), (0, 0), RED); ((0, 1), (2, 0), BLUE)] /\
  map (getpixel (mosaic_image sample_mosaic)) [(0, 0); (1, 1); (2, 0); (3, 1); (4, 0)]
    = [Ok RED; Ok RED; Ok BLUE; Ok BLUE; Raise IndexError].
Proof. vm_compute. repeat split. Qed.

Example generate_mosaic_cycled_sample :
  grid sample_cycled_mosaic = (4, 2) /\
  (width (mosaic_image sample_cycled_mosaic),
   height (mosaic_image sample_cycled_mosaic)) = (8, 4) /\
  map cell (pastes sample_cycled_mosaic)
    = [(0, 0); (0, 1); (0, 2); (0, 3); (1, 0); (1, 1); (1, 2); (1, 3)] /\
  map offset (pastes sample_cycled_mosaic)
    = [(0, 0); (2, 0); (4, 0); (6, 0); (0, 2); (2, 2); (4, 2); (6, 2)].
Proof. vm_compute. repeat split. Qed.

(** * Further properties *)

(** ** Average colour *)

Lemma channel_sum_bounds (ch : RGB -> Z) (lo hi : Z) (px : list RGB) :
  (forall p, In p px -> (lo <= ch p <= hi)%Z) ->
  (lo * Z.of_nat (List.length px) <= channel_sum ch px
   <= hi * Z.of_nat (List.length px))%Z.
Proof.
  unfold channel_sum. induction px as [|p px IH]; intros H.
  - simpl. lia.
  - cbn [map fold_right List.length].
    specialize (IH (fun q Hq => H q (or_intror Hq))).
    specialize (H p (or_introl eq_refl)). lia.
Qed.

Lemma quot_between (s n lo hi : Z) :
  (0 < n)%Z -> (lo * n <= s <= hi * n)%Z -> (lo <= Z.quot s n <= hi)%Z.
Proof.
  intros Hn [Hlo Hhi].
  pose proof (Z.quot_rem s n ltac:(lia)) as Hqr.
  set (q := Z.quot s n) in *. set (r := Z.rem s n) in *.
  assert (Hr : (- n < r < n)%Z).
  { subst r. pose proof (Z.rem_bound_abs s n ltac:(lia)). lia. }
  assert (Hsign : (0 <= s -> 0 <= r)%Z /\ (s <= 0 -> r <= 0)%Z).
  { subst r. split; intros Hs.
    - apply Z.rem_nonneg; lia.
    - apply Z.rem_nonpos; lia. }
  destruct Hsign as [Hpos Hneg].
  split.
  - apply Z.nlt_ge. intros Hlt.
    assert (n * q <= n * (lo - 1))%Z by (apply Z.mul_le_mono_nonneg_l; lia).
    destruct (Z.le_gt_cases 0 s); [specialize (Hpos ltac:(lia)) | specialize (Hneg ltac:(lia))]; lia.
  - apply Z.nlt_ge. intros Hlt.
    assert (n * (hi + 1) <= n * q)%Z by (apply Z.mul_le_mono_nonneg_l; lia).
    destruct (Z.le_gt_cases 0 s); [specialize (Hpos ltac:(lia)) | specialize (Hneg ltac:(lia))]; lia.
Qed.

(** The average colour of a non-empty image lies, channel by channel,
    between any two bounds that hold for all of its pixels. *)
Theorem get_average_rgb_within (image : Image) (lo hi : Z) :
  0 < width image -> 0 < height image ->
  (forall x y, x < width image -> y < height image ->
               channels_within lo hi (pixels image x y)) ->
  channels_within lo hi (get_average_rgb image).
Proof.
  intros Hw Hh Hpx.
  assert (Hlen : (0 < Z.of_nat (List.length (img_array image)))%Z)
    by (rewrite img_array_length; nia).
  assert (Hall : forall p, In p (img_array image) -> channels_within lo hi p).
  { intros p Hp. apply img_array_in in Hp.
    destruct Hp as [x [y [Hx [Hy ->]]]]. now apply Hpx. }
  unfold channels_within, get_average_rgb, channel_mean. cbn [red green blue fst snd].
  split; [|split]; (apply quot_between; [assumption|]);
    apply channel_sum_bounds; intros p Hp; apply Hall in Hp;
    unfold channels_within in Hp; tauto.
Qed.

Lemma get_average_rgb_within_witness :
  channels_within 0 255 (get_average_rgb reddish).
Proof.
  apply (@get_average_rgb_within reddish 0 255); [simpl; lia | simpl; lia |].
  intros x y _ _. unfold reddish, channels_within, red, green, blue; cbn [pixels].
  destruct ((x =? 0) && (y =? 0)); cbn; lia.
Defined.

Lemma channel_sum_app (ch : RGB -> Z) (a b : list RGB) :
  channel_sum ch (a ++ b) = (channel_sum ch a + channel_sum ch b)%Z.
Proof.
  unfold channel_sum. induction a as [|p a IH]; simpl; [reflexivity|].
  rewrite IH. lia.
Qed.

Lemma channel_sum_rows (ch : RGB -> Z) (row : list RGB) (ys : list nat) :
  channel_sum ch (flat_map (fun _ => row) ys) =
  (Z.of_nat (List.length ys) * channel_sum ch row)%Z.
Proof.
  induction ys as [|y ys IH]; [reflexivity|].
  cbn [flat_map List.length]. rewrite channel_sum_app, IH. lia.
Qed.

Lemma two_colors_row (ch : RGB -> Z) (w split : nat) (c1 c2 : RGB) :
  split <= w ->
  channel_sum ch (map (fun x => if x <? split then c1 else c2) (seq 0 w)) =
  (Z.of_nat split * ch c1 + Z.of_nat (w - split) * ch c2)%Z.
Proof.
  intros Hle. replace w with (split + (w - split)) at 1 by lia.
  rewrite seq_app, map_app, channel_sum_app. cbn [Nat.add].
  rewrite channel_sum_constant with (c := c1), channel_sum_constant with (c := c2).
  - rewrite !length_map, !length_seq. lia.
  - intros p Hp. apply in_map_iff in Hp. destruct Hp as [x [<- Hx]].
    apply in_seq in Hx. destruct (Nat.ltb_spec x split); [lia | reflexivity].
  - intros p Hp. apply in_map_iff in Hp. destruct Hp as [x [<- Hx]].
    apply in_seq in Hx. destruct (Nat.ltb_spec x split); [reflexivity | lia].
Qed.

(** An image split at a column into two colours averages to the mean of
    the two colours weighted by the widths of the two parts, truncated;
    the height plays no part. *)
Theorem get_average_rgb_two_colors (w h split : nat) (c1 c2 : RGB) :
  0 < w -> 0 < h -> split <= w ->
  get_average_rgb (two_colors w h split c1 c2) =
  (weighted_mean split w (red c1) (red c2),
   weighted_mean split w (green c1) (green c2),
   weighted_mean split w (blue c1) (blue c2)).
Proof.
  intros Hw Hh Hle.
  assert (Hch : forall ch,
             channel_mean ch (img_array (two_colors w h split c1 c2)) =
             weighted_mean split w (ch c1) (ch c2)).
  { intros ch. unfold channel_mean, weighted_mean.
    rewrite img_array_length. unfold img_array. cbn [width height pixels two_colors].
    rewrite channel_sum_rows, length_seq, two_colors_row by assumption.
    rewrite Nat2Z.inj_mul. apply Z.quot_mul_cancel_l; lia. }
  unfold get_average_rgb. now rewrite !Hch.
Qed.

Lemma get_average_rgb_two_colors_witness :
  get_average_rgb (two_colors 4 3 1 RED BLUE) =
  (weighted_mean 1 4 (red RED) (red BLUE),
   weighted_mean 1 4 (green RED) (green BLUE),
   weighted_mean 1 4 (blue RED) (blue BLUE)).
Proof.
  apply (@get_average_rgb_two_colors 4 3 1 RED BLUE); lia.
Defined.

Example get_average_rgb_two_colors_sample :
  get_average_rgb (two_colors 4 3 1 RED BLUE) = (63, 0, 191)%Z.
Proof. reflexivity. Qed.

(** ** hex_to_rgb *)

Lemma hex_digit_range (c : ascii) (x : Z) :
  hex_digit c = Some x -> (0 <= x <= 15)%Z.
Proof.
  unfold hex_digit. generalize (nat_of_ascii c) as n. intros n.
  destruct ((48 <=? n) && (n <=? 57)) eqn:E1.
  - apply andb_true_iff in E1. destruct E1 as [H1 H2].
    apply Nat.leb_le in H1, H2. intros [= <-]. lia.
  - destruct ((97 <=? n) && (n <=? 102)) eqn:E2.
    + apply andb_true_iff in E2. destruct E2 as [H1 H2].
      apply Nat.leb_le in H1, H2. intros [= <-]. lia.
    + destruct ((65 <=? n) && (n <=? 70)) eqn:E3; [|discriminate].
      apply andb_true_iff in E3. destruct E3 as [H1 H2].
      apply Nat.leb_le in H1, H2. intros [= <-]. lia.
Qed.

Lemma lstrip_hash_hashes (n : nat) (c : ascii) (s : string) :
  hex_digit c <> None ->
  lstrip_hash (hashes n ++ String c s) = String c s.
Proof.
  intros Hc. induction n as [|n IH]; simpl.
  - destruct (Ascii.eqb_spec c "#") as [->|_]; [|reflexivity].
    exfalso. apply Hc. reflexivity.
  - exact IH.
Qed.

(** Six hexadecimal digits, behind any number of ['#'] marks and in
    either case of the letters, are read as three channels
    [16 * high + low], each between 0 and 255. *)
Theorem hex_to_rgb_six_digits (int16_other : string -> option Z) (n : nat)
    (d1 d2 d3 d4 d5 d6 : ascii) (x1 x2 x3 x4 x5 x6 : Z) :
  hex_digit d1 = Some x1 -> hex_digit d2 = Some x2 ->
  hex_digit d3 = Some x3 -> hex_digit d4 = Some x4 ->
  hex_digit d5 = Some x5 -> hex_digit d6 = Some x6 ->
  let rgb := (16 * x1 + x2, 16 * x3 + x4, 16 * x5 + x6)%Z in
  hex_to_rgb int16_other
    (hashes n ++ String d1 (String d2 (String d3 (String d4 (String d5 (String d6 ""))))))
  = HexOk rgb /\
  channels_within 0 255 rgb.
Proof.
  intros H1 H2 H3 H4 H5 H6. cbv zeta. split.
  - unfold hex_to_rgb. rewrite lstrip_hash_hashes by congruence.
    cbn [String.length Nat.eqb negb substring int16].
    now rewrite H1, H2, H3, H4, H5, H6.
  - apply hex_digit_range in H1, H2, H3, H4, H5, H6.
    unfold channels_within, red, green, blue. cbn [fst snd]. lia.
Qed.

Lemma hex_to_rgb_six_digits_witness :
  hex_to_rgb (fun _ => None) "##e34234" = HexOk (16 * 14 + 3, 16 * 4 + 2, 16 * 3 + 4)%Z /\
  channels_within 0 255 (16 * 14 + 3, 16 * 4 + 2, 16 * 3 + 4)%Z.
Proof.
  apply (@hex_to_rgb_six_digits (fun _ => None) 2 "e" "3" "4" "2" "3" "4"
           14 3 4 2 3 4); reflexivity.
Defined.

(** Without its leading ['#'] marks the string must have six characters;
    anything else is the format error, before any digit is read. *)
Lemma hex_to_rgb_format (int16_other : string -> option Z) (hex_color : string) :
  hex_to_rgb int16_other hex_color = HexInvalidFormat <->
  String.length (lstrip_hash hex_color) <> 6.
Proof.
  unfold hex_to_rgb.
  destruct (Nat.eqb_spec (String.length (lstrip_hash hex_color)) 6) as [E|E];
    cbn [negb].
  - split; [|congruence].
    destruct (int16 int16_other (substring 0 2 (lstrip_hash hex_color)));
      [|discriminate].
    destruct (int16 int16_other (substring 2 2 (lstrip_hash hex_color)));
      [|discriminate].
    destruct (int16 int16_other (substring 4 2 (lstrip_hash hex_color)));
      discriminate.
  - split; [intros _; exact E | reflexivity].
Qed.

(** The palette of the scripts is read without error, so the scripts
    never exit at import time. *)
Example palette_is_valid :
  map (hex_to_rgb (fun _ => None)) PROFESSIONAL_PALETTE_HEX =
  map HexOk
    [(227, 66, 52); (178, 34, 34); (139, 0, 0); (205, 92, 92);
     (249, 115, 6); (233, 116, 81);
     (255, 244, 79); (246, 166, 35); (197, 160, 89);
     (0, 136, 120); (80, 125, 42); (128, 128, 0); (80, 200, 120);
     (63, 81, 181); (0, 166, 214); (106, 123, 162); (0, 119, 255);
     (106, 13, 173); (204, 204, 255); (145, 95, 109);
     (255, 255, 255); (28, 28, 28); (64, 73, 88); (192, 192, 192)]%Z.
Proof. reflexivity. Qed.

(** ** Tile loading *)

Lemma survivors_skipped_count
    (resample : Image -> nat * nat -> nat -> nat -> RGB) (fs : FileSystem)
    (source_path : string) (tile_size : nat * nat) :
  List.length (survivors resample fs source_path tile_size) +
  List.length (skipped resample fs source_path tile_size) =
  List.length (candidates fs source_path).
Proof.
  unfold survivors, skipped, loads_ok.
  induction (candidates fs source_path) as [|f l IH]; [reflexivity|].
  cbn [flat_map filter].
  destruct (load_one resample fs (decode fs source_path f) tile_size);
    cbn [is_ok negb app List.length]; lia.
Qed.

(** Every candidate file is accounted for: the tiles returned and the
    warnings printed add up to the number of candidates, whether the load
    succeeds or raises. *)
Theorem load_tile_images_accounts_for_candidates
    (resample : Image -> nat * nat -> nat -> nat -> RGB) (fs : FileSystem)
    (source_path : string) (tile_size : nat * nat) :
  let out := load_tile_images resample fs source_path tile_size in
  loaded_count out + warning_count out = List.length (candidates fs source_path).
Proof.
  cbv zeta. unfold loaded_count, warning_count.
  rewrite load_tile_images_log, length_map.
  pose proof (load_tile_images_spec resample fs source_path tile_size) as Hs.
  pose proof (survivors_skipped_count resample fs source_path tile_size) as Hc.
  cbv zeta in Hs.
  destruct (valid_source fs source_path) eqn:Hv.
  - destruct (listing fs source_path) as [filenames|e] eqn:Hl.
    + destruct (survivors resample fs source_path tile_size) as [|p sv] eqn:Hsv;
        rewrite Hs.
      * simpl in Hc. exact Hc.
      * rewrite length_map. exact Hc.
    + rewrite Hs. unfold skipped, candidates. rewrite Hl. reflexivity.
  - rewrite Hs. unfold valid_source in Hv. apply orb_false_iff in Hv.
    destruct Hv as [Hd Hz].
    unfold skipped, candidates, listing. rewrite Hd, Hz. reflexivity.
Qed.

(** With a tile size that no image can be resized to, because its width
    or height is zero or because PIL cannot hold an image of that size,
    a source that can be listed always ends in the no-tiles error, with a
    warning for every candidate: the exception of every [resize] is
    caught in the loop. *)
Theorem load_tile_images_zero_size
    (resample : Image -> nat * nat -> nat -> nat -> RGB) (fs : FileSystem)
    (source_path : string) (tile_size : nat * nat) :
  fst tile_size = 0 \/ snd tile_size = 0 \/ allocation_error fs tile_size <> None ->
  valid_source fs source_path = true ->
  is_ok (listing fs source_path) = true ->
  let out := load_tile_images resample fs source_path tile_size in
  snd out = Raise (ValueError NoValidTiles) /\
  warning_count out = List.length (candidates fs source_path).
Proof.
  intros Hzero Hv Hl. cbv zeta.
  assert (Hnone : survivors resample fs source_path tile_size = []).
  { apply survivors_nil_iff. intros f _. unfold loads_ok, load_one, resize.
    destruct (decode fs source_path f); [|reflexivity].
    destruct ((0 <? fst tile_size) && (0 <? snd tile_size)) eqn:Hpos;
      [|reflexivity].
    apply andb_true_iff in Hpos. destruct Hpos as [H1 H2].
    apply Nat.ltb_lt in H1. apply Nat.ltb_lt in H2.
    destruct Hzero as [H0 | [H0 | H0]]; [lia | lia |].
    destruct (allocation_error fs tile_size); [reflexivity | congruence]. }
  pose proof (load_tile_images_spec resample fs source_path tile_size) as Hs.
  cbv zeta in Hs. rewrite Hv, Hnone in Hs.
  destruct (listing fs source_path); [|discriminate].
  split; [exact Hs|].
  pose proof (survivors_skipped_count resample fs source_path tile_size) as Hc.
  rewrite Hnone in Hc. unfold warning_count.
  now rewrite load_tile_images_log, length_map.
Qed.

Lemma load_tile_images_zero_size_witness :
  let out := load_tile_images nearest_pixel sample_fs "tiles" (5000, 2) in
  snd out = Raise (ValueError NoValidTiles) /\
  warning_count out = List.length (candidates sample_fs "tiles").
Proof.
  apply (@load_tile_images_zero_size nearest_pixel sample_fs "tiles" (5000, 2)).
  - right. right. discriminate.
  - reflexivity.
  - reflexivity.
Defined.

Example load_tile_images_zero_size_sample :
  let out := load_tile_images nearest_pixel sample_fs "tiles" (0, 2) in
  snd out = Raise (ValueError NoValidTiles) /\
  warning_count out = 4 /\ List.length (candidates sample_fs "tiles") = 4.
Proof. repeat split. Qed.

(** ** Which file names are candidates *)

Lemma string_length_app (a b : string) :
  String.length (a ++ b) = String.length a + String.length b.
Proof. induction a as [|c a IH]; simpl; [reflexivity | now rewrite IH]. Qed.

Lemma substring_all (s : string) : substring 0 (String.length s) s = s.
Proof. induction s as [|c s IH]; simpl; [reflexivity | now rewrite IH]. Qed.

Lemma substring_skip (p t : string) (k : nat) :
  substring (String.length p) k (p ++ t) = substring 0 k t.
Proof. induction p as [|c p IH]; simpl; [reflexivity | exact IH]. Qed.

Lemma substring_split (s : string) (m : nat) :
  m <= String.length s ->
  s = (substring 0 m s ++ substring m (String.length s - m) s)%string.
Proof.
  revert m. induction s as [|c s IH]; intros [|m] Hm; simpl in *; try lia.
  - reflexivity.
  - now rewrite substring_all.
  - rewrite <- IH by lia. reflexivity.
Qed.

Lemma endswith_iff (s suffix : string) :
  endswith s suffix = true <-> exists p, s = (p ++ suffix)%string.
Proof.
  unfold endswith. rewrite andb_true_iff, Nat.leb_le, String.eqb_eq. split.
  - intros [Hle Hsub].
    exists (substring 0 (String.length s - String.length suffix) s).
    pose proof (@substring_split s (String.length s - String.length suffix)
                  ltac:(lia)) as H.
    replace (String.length s - (String.length s - String.length suffix))
      with (String.length suffix) in H by lia.
    now rewrite Hsub in H.
  - intros [p ->]. rewrite string_length_app. split; [lia|].
    replace (String.length p + String.length suffix - String.length suffix)
      with (String.length p) by lia.
    now rewrite substring_skip, substring_all.
Qed.

Lemma prefix_iff (p s : string) :
  String.prefix p s = true <-> exists r, s = (p ++ r)%string.
Proof.
  revert s. induction p as [|c p IH]; intros s.
  - split; [intros _; now exists s | intros _; destruct s; reflexivity].
  - destruct s as [|c' s]; cbn [String.prefix append].
    + split; [discriminate | intros [r Hr]; discriminate].
    + destruct (Ascii.ascii_dec c c') as [<-|Hne].
      * rewrite IH. split; intros [r Hr]; exists r;
          [now rewrite Hr | now injection Hr].
      * split; [discriminate | intros [r Hr]; injection Hr; congruence].
Qed.

Example candidate_names_sample :
  map is_image_name ["a.PNG"; "b.Jpeg"; ".gif"; "png"; "c.png.txt"; "d.tif"]%string
    = [true; true; true; false; false; false] /\
  map is_zip_image_name ["__MACOSX/a.png"; "x/__MACOSX/a.png"; "__macosx/a.png"]%string
    = [false; true; true].
Proof. split; reflexivity. Qed.

(** ** The dict of the cycling selector *)

Section CyclingFrame.

Variable query : kd_query.
Variable unique_color_kdtree : KDTree.
Variable unique_colors_list : list RGB.
Variable tiles : list Image.

(** What a call can have done to the dict: nothing, or moved the cursor
    of the group it resolved to. *)
Lemma find_best_match_tile_effect (x : RGB) (m : CyclePhotos.GroupMap) :
  let m' := snd (CyclePhotos.find_best_match_tile query x unique_color_kdtree
                   unique_colors_list tiles m) in
  m' = m \/
  exists c l n,
    resolves_to query unique_color_kdtree unique_colors_list c x /\
    CyclePhotos.get m c = Some (CyclePhotos.mkGroup l n) /\
    n < List.length l /\
    m' = CyclePhotos.set m c (CyclePhotos.mkGroup l ((n + 1) mod List.length l)).
Proof.
  cbv zeta. unfold CyclePhotos.find_best_match_tile, getitem.
  destruct (query unique_color_kdtree x) as [j|] eqn:Hq.
  - destruct (nth_error unique_colors_list j) as [c|] eqn:Hj; [|now left].
    destruct (CyclePhotos.get m c) as [[l n]|] eqn:Hg; [|now left].
    cbn [CyclePhotos.indices CyclePhotos.next_idx].
    destruct l as [|i0 l']; [now left|].
    destruct (nth_error (i0 :: l') n) as [i|] eqn:Hi; [|now left].
    right. exists c, (i0 :: l'), n.
    split; [exists j; auto|]. split; [exact Hg|].
    split; [apply nth_error_Some; congruence | reflexivity].
  - left. destruct tiles; [reflexivity|].
    destruct unique_colors_list as [|key rest]; [reflexivity|].
    destruct (CyclePhotos.get m key) as [g|]; [|reflexivity].
    destruct (CyclePhotos.indices g); reflexivity.
Qed.

Lemma find_best_match_tile_other_groups (x c : RGB) (m : CyclePhotos.GroupMap) :
  resolves_to query unique_color_kdtree unique_colors_list c x \/
  CyclePhotos.get
    (snd (CyclePhotos.find_best_match_tile query x unique_color_kdtree
            unique_colors_list tiles m)) c
  = CyclePhotos.get m c.
Proof.
  destruct (find_best_match_tile_effect x m) as [->|Heff]; [now right|].
  destruct Heff as (c0 & l & n & Hres & Hg & Hn & ->).
  destruct (RGB_eqb c0 c) eqn:E.
  - apply RGB_eqb_eq in E. subst c0. now left.
  - apply RGB_eqb_neq in E. right. now apply get_set_other.
Qed.

(** A call never adds, removes or reorders a key, never changes the
    tile indices of a group, and leaves alone every group but the one the
    query resolved to. *)
Theorem find_best_match_tile_frame (x : RGB) (m : CyclePhotos.GroupMap) :
  let m' := snd (CyclePhotos.find_best_match_tile query x unique_color_kdtree
                   unique_colors_list tiles m) in
  CyclePhotos.keys m' = CyclePhotos.keys m /\
  (forall c, option_map CyclePhotos.indices (CyclePhotos.get m' c) =
             option_map CyclePhotos.indices (CyclePhotos.get m c)) /\
  (forall c, resolves_to query unique_color_kdtree unique_colors_list c x \/
             CyclePhotos.get m' c = CyclePhotos.get m c).
Proof.
  cbv zeta. destruct (find_best_match_tile_effect x m) as [->|Heff].
  - repeat split; auto.
  - destruct Heff as (c & l & n & Hres & Hg & Hn & ->). split; [|split].
    + rewrite keys_set. unfold CyclePhotos.contains. now rewrite Hg.
    + intros c'. destruct (RGB_eqb c c') eqn:E.
      * apply RGB_eqb_eq in E. subst c'. now rewrite get_set_same, Hg.
      * apply RGB_eqb_neq in E. now rewrite get_set_other.
    + intros c'. destruct (RGB_eqb c c') eqn:E.
      * apply RGB_eqb_eq in E. subst c'. now left.
      * apply RGB_eqb_neq in E. right. now apply get_set_other.
Qed.

Lemma find_best_match_tile_cursors (x : RGB)
    (m : CyclePhotos.GroupMap) :
  cursors_in_range tiles m ->
  cursors_in_range tiles
    (snd (CyclePhotos.find_best_match_tile query x unique_color_kdtree
            unique_colors_list tiles m)).
Proof.
  intros Hwf. destruct (find_best_match_tile_effect x m) as [->|Heff];
    [exact Hwf|].
  destruct Heff as (c & l & n & _ & Hg & Hn & ->).
  intros c' g'. destruct (RGB_eqb c c') eqn:E.
  - apply RGB_eqb_eq in E. subst c'. rewrite get_set_same. intros [= <-].
    cbn [CyclePhotos.indices CyclePhotos.next_idx]. split.
    + apply Nat.mod_upper_bound. lia.
    + exact (proj2 (Hwf c _ Hg)).
  - apply RGB_eqb_neq in E. rewrite get_set_other by assumption. apply Hwf.
Qed.

End CyclingFrame.

Lemma find_best_match_tile_ok (query : kd_query)
    (unique_colors_list : list RGB) (tiles : list Image)
    (m : CyclePhotos.GroupMap) (x : RGB) :
  answers_in_range query ->
  cursors_in_range tiles m ->
  tiles <> [] ->
  exists t,
    fst (CyclePhotos.find_best_match_tile query x unique_colors_list
           unique_colors_list tiles m) = Ok t /\
    In t tiles.
Proof.
  intros Hq Hwf Hne.
  assert (Hget : forall i, i < List.length tiles ->
                           exists t, getitem tiles i = Ok t /\ In t tiles).
  { intros i Hi. unfold getitem.
    destruct (nth_error tiles i) as [t|] eqn:Ht.
    - exists t. split; [reflexivity | eapply nth_error_In; eassumption].
    - apply nth_error_None in Ht. lia. }
  assert (H0 : 0 < List.length tiles) by (destruct tiles; simpl; [congruence | lia]).
  unfold CyclePhotos.find_best_match_tile.
  destruct (query unique_colors_list x) as [j|] eqn:Hqx.
  - apply Hq in Hqx. unfold getitem at 1.
    destruct (nth_error unique_colors_list j) as [c|] eqn:Hj;
      [|apply nth_error_None in Hj; lia].
    destruct (CyclePhotos.get m c) as [g|] eqn:Hg; [|now apply Hget].
    destruct (Hwf c g Hg) as [Hn Hrange].
    destruct (CyclePhotos.indices g) as [|i0 l] eqn:Hl; [now apply Hget|].
    unfold getitem at 1.
    destruct (nth_error (i0 :: l) (CyclePhotos.next_idx g)) as [i|] eqn:Hi;
      [|apply nth_error_None in Hi; lia].
    cbn [fst]. apply Hget, Hrange. eapply nth_error_In; eassumption.
  - destruct tiles as [|t0 tiles'] eqn:Ht; [congruence|].
    assert (Hhead : exists t, Ok t0 = Ok t /\ In t (t0 :: tiles'))
      by (exists t0; split; [reflexivity | now left]).
    destruct unique_colors_list as [|key rest]; [exact Hhead|].
    destruct (CyclePhotos.get m key) as [g|] eqn:Hg; [|exact Hhead].
    destruct (CyclePhotos.indices g) as [|i0 l] eqn:Hl; [exact Hhead|].
    cbn [fst]. apply Hget. apply (proj2 (Hwf key g Hg)). rewrite Hl. now left.
Qed.

Lemma red_cursor_1_in_range : cursors_in_range cycling_tiles red_cursor_1.
Proof.
  intros c g. unfold red_cursor_1. cbn [CyclePhotos.get].
  destruct (RGB_eqb RED c); [|destruct (RGB_eqb BLUE c); [|discriminate]];
    intros [= <-]; cbn; (split; [lia|]); intros i Hi; simpl in Hi;
    repeat (destruct Hi as [<-|Hi]; [lia|]); destruct Hi.
Qed.

Lemma exact_nearest_in_range (query : kd_query) :
  exact_nearest query -> answers_in_range query.
Proof.
  intros Hex data x j Hq. destruct (Hex data x j Hq) as [c [Hc _]].
  apply nth_error_Some. congruence.
Qed.

(** Cursors and group indices that are in range are an invariant of
    the cycling selector, and under it, with a non-empty tile list and an
    index that answers within the list of unique colours it was built
    from, a selection cannot raise: it returns one of the loaded tiles. *)
Theorem cycling_selector_invariant (query : kd_query)
    (unique_colors_list : list RGB) (tiles : list Image)
    (m : CyclePhotos.GroupMap) (x : RGB) :
  answers_in_range query ->
  cursors_in_range tiles m ->
  tiles <> [] ->
  let out := CyclePhotos.find_best_match_tile query x unique_colors_list
               unique_colors_list tiles m in
  (exists t, fst out = Ok t /\ In t tiles) /\
  cursors_in_range tiles (snd out).
Proof.
  intros Hq Hwf Hne. cbv zeta. split.
  - now apply find_best_match_tile_ok.
  - now apply find_best_match_tile_cursors.
Qed.

Lemma cycling_selector_invariant_witness :
  let out := CyclePhotos.find_best_match_tile nearest_color_index (250, 0, 0)%Z
               [RED; BLUE] [RED; BLUE] cycling_tiles red_cursor_1 in
  (exists t, fst out = Ok t /\ In t cycling_tiles) /\
  cursors_in_range cycling_tiles (snd out).
Proof.
  apply (@cycling_selector_invariant nearest_color_index [RED; BLUE]
           cycling_tiles red_cursor_1 (250, 0, 0)%Z).
  - exact (exact_nearest_in_range nearest_color_index_exact).
  - exact red_cursor_1_in_range.
  - discriminate.
Defined.

(** ** Rotation over runs of any length, and among other groups *)

Section CyclingRuns.

Variable query : kd_query.
Variable unique_color_kdtree : KDTree.
Variable unique_colors_list : list RGB.
Variable tiles : list Image.

(** The tile returned depends on the dict only through the group the
    query resolves to. *)
Lemma find_best_match_tile_reads_one_group (x c : RGB)
    (m1 m2 : CyclePhotos.GroupMap) :
  resolves_to query unique_color_kdtree unique_colors_list c x ->
  CyclePhotos.get m1 c = CyclePhotos.get m2 c ->
  fst (CyclePhotos.find_best_match_tile query x unique_color_kdtree
         unique_colors_list tiles m1) =
  fst (CyclePhotos.find_best_match_tile query x unique_color_kdtree
         unique_colors_list tiles m2).
Proof.
  intros [j [Hq Hj]] Hget. unfold CyclePhotos.find_best_match_tile, getitem.
  rewrite Hq, Hj, Hget.
  destruct (CyclePhotos.get m2 c) as [g|]; [|reflexivity].
  destruct (CyclePhotos.indices g); [reflexivity|].
  destruct (nth_error (n :: l) (CyclePhotos.next_idx g)); reflexivity.
Qed.

Lemma select_all_other_groups (c : RGB) (others : list RGB) :
  Forall (fun y => ~ resolves_to query unique_color_kdtree unique_colors_list c y)
         others ->
  forall m,
    CyclePhotos.get
      (snd (CyclePhotos.select_all query unique_color_kdtree unique_colors_list
              tiles others m)) c
    = CyclePhotos.get m c.
Proof.
  induction 1 as [|y others Hy _ IH]; intros m; [reflexivity|].
  cbn [CyclePhotos.select_all].
  destruct (find_best_match_tile_other_groups query unique_color_kdtree
              unique_colors_list tiles y c m) as [Hres|Hsame]; [contradiction|].
  destruct (CyclePhotos.find_best_match_tile query y unique_color_kdtree
              unique_colors_list tiles m) as [[t|e] m'] eqn:Hstep;
    cbn [snd] in Hsame |- *; [|exact Hsame].
  specialize (IH m').
  destruct (CyclePhotos.select_all query unique_color_kdtree unique_colors_list
              tiles others m') as [[ts|e] m''];
    cbn [snd] in IH |- *; congruence.
Qed.

(** Selections that resolve to other groups, however many come first,
    do not change which tile a group hands out next. *)
Theorem other_groups_do_not_disturb (c x : RGB) (others : list RGB)
    (m : CyclePhotos.GroupMap) :
  resolves_to query unique_color_kdtree unique_colors_list c x ->
  Forall (fun y => ~ resolves_to query unique_color_kdtree unique_colors_list c y)
         others ->
  let m' := snd (CyclePhotos.select_all query unique_color_kdtree
                   unique_colors_list tiles others m) in
  CyclePhotos.get m' c = CyclePhotos.get m c /\
  fst (CyclePhotos.find_best_match_tile query x unique_color_kdtree
         unique_colors_list tiles m') =
  fst (CyclePhotos.find_best_match_tile query x unique_color_kdtree
         unique_colors_list tiles m).
Proof.
  intros Hres Hothers. cbv zeta.
  pose proof (select_all_other_groups Hothers m) as Hget.
  split; [exact Hget|].
  now apply find_best_match_tile_reads_one_group with (c := c).
Qed.

(** A run of any length within one group: the j-th selection returns the
    tile at position [(n + j) mod k] of the group's list, so the run
    repeats with period [k]. *)
Lemma select_all_periodic (m : CyclePhotos.GroupMap) (c : RGB) (l : list nat) :
  CyclePhotos.get m c <> None ->
  (forall i, In i l -> i < List.length tiles) ->
  forall (targets : list RGB) (n : nat),
    n < List.length l ->
    Forall (resolves_to query unique_color_kdtree unique_colors_list c) targets ->
    exists ts,
      CyclePhotos.select_all query unique_color_kdtree unique_colors_list tiles
        targets (CyclePhotos.set m c (CyclePhotos.mkGroup l n)) =
      (Ok ts,
       CyclePhotos.set m c
         (CyclePhotos.mkGroup l ((n + List.length targets) mod List.length l))) /\
      map Some ts =
      map (fun j => nth_error tiles (nth ((n + j) mod List.length l) l 0))
          (seq 0 (List.length targets)).
Proof.
  intros Hc Hrange. induction targets as [|x targets IH]; intros n Hn Hres.
  - exists []. simpl. rewrite Nat.add_0_r, Nat.mod_small by assumption.
    split; reflexivity.
  - inversion Hres as [|? ? Hx Hres']; subst.
    destruct (@find_best_match_tile_step query unique_color_kdtree
                unique_colors_list tiles
                (CyclePhotos.set m c (CyclePhotos.mkGroup l n)) c x l n Hx
                (get_set_same m c _) Hn) as [i [Hi Hstep]].
    cbn [CyclePhotos.select_all]. rewrite Hstep, set_set by assumption.
    assert (Hlt : i < List.length tiles)
      by (apply Hrange; eapply nth_error_In; eassumption).
    unfold getitem. destruct (nth_error tiles i) as [t|] eqn:Ht;
      [|apply nth_error_None in Ht; lia].
    assert (Hn' : (n + 1) mod List.length l < List.length l)
      by (apply Nat.mod_upper_bound; lia).
    destruct (IH _ Hn' Hres') as [ts [Hrun Hts]]. rewrite Hrun.
    exists (t :: ts). split.
    + cbn [List.length]. rewrite Nat.Div0.add_mod_idemp_l.
      replace (n + 1 + List.length targets) with (n + S (List.length targets))
        by lia.
      reflexivity.
    + cbn [List.length seq map]. rewrite Nat.add_0_r, Nat.mod_small by assumption.
      rewrite (nth_error_nth _ _ 0 Hi), Ht. f_equal.
      rewrite Hts, <- seq_shift, map_map. apply map_ext. intros j.
      rewrite Nat.Div0.add_mod_idemp_l. do 3 f_equal. lia.
Qed.

End CyclingRuns.

(** A run of any number of selections that all resolve to one group
    succeeds; its j-th tile is the one at position [(n + j) mod k] of the
    group's list, where [n] is the cursor at the start and [k] the size of
    the group, and the cursor ends at [(n + N) mod k]. *)
Theorem cycling_is_periodic (query : kd_query) (unique_color_kdtree : KDTree)
    (unique_colors_list : list RGB) (tiles : list Image)
    (m : CyclePhotos.GroupMap) (c : RGB) (group_info : CyclePhotos.Group)
    (targets : list RGB) :
  let l := CyclePhotos.indices group_info in
  let n := CyclePhotos.next_idx group_info in
  let k := List.length l in
  CyclePhotos.get m c = Some group_info ->
  n < k ->
  (forall i, In i l -> i < List.length tiles) ->
  Forall (resolves_to query unique_color_kdtree unique_colors_list c) targets ->
  exists ts,
    CyclePhotos.select_all query unique_color_kdtree unique_colors_list tiles
      targets m =
    (Ok ts,
     CyclePhotos.set m c (CyclePhotos.mkGroup l ((n + List.length targets) mod k))) /\
    map Some ts =
    map (fun j => nth_error tiles (nth ((n + j) mod k) l 0))
        (seq 0 (List.length targets)).
Proof.
  cbv zeta. destruct group_info as [l n].
  cbn [CyclePhotos.indices CyclePhotos.next_idx].
  intros Hg Hn Hrange Hres.
  assert (Hpres : CyclePhotos.get m c <> None) by congruence.
  destruct (@select_all_periodic query unique_color_kdtree unique_colors_list
              tiles m c l Hpres Hrange targets n Hn Hres) as [ts [Hrun Hts]].
  rewrite (set_get_same _ _ Hg) in Hrun. eauto.
Qed.

Lemma cycling_is_periodic_witness :
  exists ts,
    CyclePhotos.select_all nearest_color_index [RED; BLUE] [RED; BLUE]
      cycling_tiles (reddish_targets ++ reddish_targets) red_cursor_1 =
    (Ok ts,
     CyclePhotos.set red_cursor_1 RED
       (CyclePhotos.mkGroup [0; 2; 3] ((1 + 6) mod 3))) /\
    map Some ts =
    map (fun j => nth_error cycling_tiles (nth ((1 + j) mod 3) [0; 2; 3] 0))
        (seq 0 6).
Proof.
  apply (@cycling_is_periodic nearest_color_index [RED; BLUE] [RED; BLUE]
           cycling_tiles red_cursor_1 RED (CyclePhotos.mkGroup [0; 2; 3] 1)
           (reddish_targets ++ reddish_targets)).
  - reflexivity.
  - simpl; lia.
  - simpl. intros i [<-|[<-|[<-|[]]]]; lia.
  - repeat constructor; exists 0; split; reflexivity.
Defined.

Lemma other_groups_do_not_disturb_witness :
  let m' := snd (CyclePhotos.select_all nearest_color_index [RED; BLUE]
                   [RED; BLUE] cycling_tiles [BLUE; (0, 0, 200)%Z] red_cursor_1) in
  CyclePhotos.get m' RED = CyclePhotos.get red_cursor_1 RED /\
  fst (CyclePhotos.find_best_match_tile nearest_color_index (250, 0, 0)%Z
         [RED; BLUE] [RED; BLUE] cycling_tiles m') =
  fst (CyclePhotos.find_best_match_tile nearest_color_index (250, 0, 0)%Z
         [RED; BLUE] [RED; BLUE] cycling_tiles red_cursor_1).
Proof.
  apply (@other_groups_do_not_disturb nearest_color_index [RED; BLUE]
           [RED; BLUE] cycling_tiles RED (250, 0, 0)%Z [BLUE; (0, 0, 200)%Z]
           red_cursor_1).
  - exists 0. split; reflexivity.
  - repeat constructor; intros [j [Hq Hj]]; vm_compute in Hq;
      injection Hq as <-; discriminate.
Defined.

(** ** The unique colours *)

Lemma contains_keys (m : CyclePhotos.GroupMap) (c : RGB) :
  CyclePhotos.contains m c = existsb (RGB_eqb c) (CyclePhotos.keys m).
Proof.
  unfold CyclePhotos.contains, CyclePhotos.keys.
  induction m as [|[k g] m IH]; simpl; [reflexivity|].
  assert (Hsym : RGB_eqb c k = RGB_eqb k c).
  { destruct (RGB_eqb k c) eqn:E.
    - apply RGB_eqb_eq in E. subst. apply RGB_eqb_refl.
    - apply RGB_eqb_neq in E. apply RGB_eqb_neq. congruence. }
  rewrite Hsym. destruct (RGB_eqb k c); [reflexivity | exact IH].
Qed.

Lemma group_loop_keys (es : list (nat * RGB)) (m : CyclePhotos.GroupMap) :
  CyclePhotos.keys (fold_left CyclePhotos.group_step es m) =
  fold_left (fun seen c => if existsb (RGB_eqb c) seen then seen else seen ++ [c])
            (map snd es) (CyclePhotos.keys m).
Proof.
  revert m. induction es as [|[i c] es IH]; intros m; [reflexivity|].
  cbn [fold_left map snd]. rewrite IH, group_step_keys, contains_keys.
  now destruct (existsb (RGB_eqb c) (CyclePhotos.keys m)).
Qed.

Lemma map_snd_enumerate {A} (l : list A) : map snd (CyclePhotos.enumerate l) = l.
Proof.
  unfold CyclePhotos.enumerate. generalize 0 as k.
  induction l as [|a l IH]; intros k; [reflexivity|].
  cbn [List.length seq combine map snd]. now rewrite IH.
Qed.

Lemma group_tiles_keys (tile_avg_colors_list : list RGB) :
  CyclePhotos.keys (CyclePhotos.group_tiles tile_avg_colors_list) =
  first_occurrences tile_avg_colors_list.
Proof.
  unfold CyclePhotos.group_tiles, first_occurrences.
  now rewrite group_loop_keys, map_snd_enumerate.
Qed.

(** [unique_colors_list], the data of the KDTree of the cycling script,
    holds the average colours of the tiles without repeats, in the order
    in which they first appear among the tiles. *)
Theorem unique_colors_are_first_occurrences (tile_avg_colors_list : list RGB) :
  CyclePhotos.keys (CyclePhotos.group_tiles tile_avg_colors_list) =
  first_occurrences tile_avg_colors_list /\
  (forall c, In c (first_occurrences tile_avg_colors_list) <->
             In c tile_avg_colors_list) /\
  NoDup (first_occurrences tile_avg_colors_list).
Proof.
  pose proof (group_tiles_keys tile_avg_colors_list) as Hkeys.
  destruct (group_tiles_groups tile_avg_colors_list) as ((Hnd & Hcov & Hgrp) & _).
  split; [exact Hkeys|]. rewrite <- Hkeys. split; [|exact Hnd].
  intros c. split.
  - intros Hin.
    destruct (CyclePhotos.get (CyclePhotos.group_tiles tile_avg_colors_list) c)
      as [g|] eqn:Hg.
    + destruct (Hgrp c g Hg) as (_ & Hne & _ & Hmem).
      destruct (CyclePhotos.indices g) as [|i l] eqn:Hl; [congruence|].
      apply (nth_error_In _ i). apply Hmem. now left.
    + apply get_none_not_key in Hg. contradiction.
  - intros Hin. apply In_nth_error in Hin. destruct Hin as [i Hi].
    specialize (Hcov i c Hi). unfold CyclePhotos.contains in Hcov.
    destruct (CyclePhotos.get (CyclePhotos.group_tiles tile_avg_colors_list) c)
      eqn:Hg; [|discriminate].
    destruct (in_dec (fun a b => match Bool.bool_dec (RGB_eqb a b) true with
                                 | left e => left (proj1 (RGB_eqb_eq a b) e)
                                 | right n => right (fun e => n (proj2 (RGB_eqb_eq a b) e))
                                 end)
                c (CyclePhotos.keys (CyclePhotos.group_tiles tile_avg_colors_list)))
      as [Hk|Hk]; [exact Hk|].
    apply get_none_not_key in Hk. congruence.
Qed.

Example first_occurrences_sample :
  first_occurrences [RED; BLUE; RED; (1, 2, 3)%Z; BLUE] = [RED; BLUE; (1, 2, 3)%Z].
Proof. reflexivity. Qed.

(** ** The fallback tile and the case of pairwise distinct colours *)

Lemma first_occurrences_loop_prefix (l acc : list RGB) :
  exists tl,
    fold_left (fun seen c => if existsb (RGB_eqb c) seen then seen else seen ++ [c])
              l acc = acc ++ tl.
Proof.
  revert acc. induction l as [|c l IH]; intros acc.
  - exists []. now rewrite app_nil_r.
  - cbn [fold_left]. destruct (existsb (RGB_eqb c) acc).
    + apply IH.
    + destruct (IH (acc ++ [c])) as [tl ->]. exists ([c] ++ tl).
      now rewrite app_assoc.
Qed.

Lemma first_occurrences_loop_NoDup (l acc : list RGB) :
  NoDup (acc ++ l) ->
  fold_left (fun seen c => if existsb (RGB_eqb c) seen then seen else seen ++ [c])
            l acc = acc ++ l.
Proof.
  revert acc. induction l as [|c l IH]; intros acc Hnd.
  - now rewrite app_nil_r.
  - cbn [fold_left].
    assert (Hnot : existsb (RGB_eqb c) acc = false).
    { destruct (existsb (RGB_eqb c) acc) eqn:E; [|reflexivity].
      apply existsb_exists in E. destruct E as [c' [Hin Heq]].
      apply RGB_eqb_eq in Heq. subst c'.
      apply NoDup_remove_2 in Hnd. exfalso. apply Hnd.
      apply in_or_app. now left. }
    rewrite Hnot, IH; rewrite <- app_assoc; [reflexivity | exact Hnd].
Qed.

Lemma sorted_head_zero (l : list nat) :
  StronglySorted lt l -> In 0 l -> exists tl, l = 0 :: tl.
Proof.
  intros Hs Hin. destruct l as [|a tl]; [destruct Hin|].
  destruct Hin as [->|Hin]; [eauto|].
  inversion Hs as [|? ? _ Hall]; subst. rewrite Forall_forall in Hall.
  specialize (Hall 0 Hin). lia.
Qed.

Lemma sorted_singleton (l : list nat) (j : nat) :
  StronglySorted lt l -> l <> [] -> (forall i, In i l -> i = j) -> l = [j].
Proof.
  intros Hs Hne Hall. destruct l as [|a tl]; [congruence|].
  assert (a = j) by (apply Hall; now left). subst a.
  destruct tl as [|b tl]; [reflexivity|].
  assert (b = j) by (apply Hall; right; now left). subst b.
  inversion Hs as [|? ? _ Hlt]; subst. inversion Hlt; subst. lia.
Qed.

Lemma group_tiles_first_group (c : RGB) (avgs : list RGB) :
  exists tl g rest,
    CyclePhotos.keys (CyclePhotos.group_tiles (c :: avgs)) = c :: tl /\
    CyclePhotos.get (CyclePhotos.group_tiles (c :: avgs)) c = Some g /\
    CyclePhotos.indices g = 0 :: rest.
Proof.
  destruct (first_occurrences_loop_prefix avgs [c]) as [tl Htl].
  destruct (group_tiles_groups (c :: avgs)) as ((_ & Hcov & Hgrp) & _).
  specialize (Hcov 0 c eq_refl). unfold CyclePhotos.contains in Hcov.
  destruct (CyclePhotos.get (CyclePhotos.group_tiles (c :: avgs)) c) as [g|] eqn:Hg;
    [|discriminate].
  destruct (Hgrp c g Hg) as (_ & _ & Hsorted & Hmem).
  destruct (sorted_head_zero Hsorted (proj2 (Hmem 0) eq_refl)) as [rest Hrest].
  exists tl, g, rest. split; [|split; [reflexivity | exact Hrest]].
  rewrite group_tiles_keys. unfold first_occurrences. cbn [fold_left existsb app].
  exact Htl.
Qed.

(** In the cycling script the two fallbacks are one: the first tile of
    the first colour group is the first tile that was loaded, so a
    selection whose query raises returns [tiles[0]]. *)
Theorem fallback_is_first_tile (query : kd_query) (tiles : list Image)
    (tile_avg_colors_list : list RGB) (x : RGB) :
  let m := CyclePhotos.group_tiles tile_avg_colors_list in
  let unique_colors_list := CyclePhotos.keys m in
  List.length tiles = List.length tile_avg_colors_list ->
  tiles <> [] ->
  query unique_colors_list x = None ->
  CyclePhotos.find_best_match_tile query x unique_colors_list unique_colors_list
    tiles m = (getitem tiles 0, m) /\
  exists t0, getitem tiles 0 = Ok t0.
Proof.
  cbv zeta. intros Hlen Hne Hq.
  destruct tiles as [|t0 tiles']; [congruence|].
  destruct tile_avg_colors_list as [|c avgs]; [discriminate|].
  split; [|now exists t0].
  destruct (group_tiles_first_group c avgs) as (tl & g & rest & Hk & Hg & Hrest).
  unfold CyclePhotos.find_best_match_tile. rewrite Hq, Hk, Hg, Hrest.
  reflexivity.
Qed.

Lemma fallback_is_first_tile_witness :
  let m := CyclePhotos.group_tiles [BLUE; RED; BLUE] in
  let tiles := [solid 2 2 BLUE; solid 2 2 RED; solid 3 3 BLUE] in
  CyclePhotos.find_best_match_tile failing_index RED (CyclePhotos.keys m)
    (CyclePhotos.keys m) tiles m = (getitem tiles 0, m) /\
  exists t0, getitem tiles 0 = Ok t0.
Proof.
  apply (@fallback_is_first_tile failing_index
           [solid 2 2 BLUE; solid 2 2 RED; solid 3 3 BLUE] [BLUE; RED; BLUE] RED).
  - reflexivity.
  - discriminate.
  - reflexivity.
Defined.

Lemma group_tiles_keys_NoDup (tile_avg_colors : list RGB) :
  NoDup tile_avg_colors ->
  CyclePhotos.keys (CyclePhotos.group_tiles tile_avg_colors) = tile_avg_colors.
Proof.
  intros Hnd. rewrite group_tiles_keys.
  unfold first_occurrences. now rewrite first_occurrences_loop_NoDup.
Qed.

Lemma distinct_colors_one_tile_groups (query : kd_query) (tiles : list Image)
    (tile_avg_colors : list RGB) (x : RGB) :
  NoDup tile_avg_colors ->
  List.length tiles = List.length tile_avg_colors ->
  CyclePhotos.find_best_match_tile query x tile_avg_colors tile_avg_colors tiles
    (CyclePhotos.group_tiles tile_avg_colors) =
  (ByTile.find_best_match_tile query x tile_avg_colors tiles,
   CyclePhotos.group_tiles tile_avg_colors).
Proof.
  intros Hnd Hlen.
  pose proof (group_tiles_keys_NoDup Hnd) as Hkeys.
  destruct (query tile_avg_colors x) as [j|] eqn:Hq.
  - unfold CyclePhotos.find_best_match_tile, ByTile.find_best_match_tile.
    rewrite Hq. unfold getitem at 1.
    destruct (nth_error tile_avg_colors j) as [c|] eqn:Hj.
    + destruct (group_tiles_groups tile_avg_colors) as ((_ & Hcov & Hgrp) & _).
      specialize (Hcov j c Hj). unfold CyclePhotos.contains in Hcov.
      destruct (CyclePhotos.get (CyclePhotos.group_tiles tile_avg_colors) c)
        as [[l n]|] eqn:Hg; [|discriminate].
      destruct (Hgrp c _ Hg) as (Hn & Hne & Hsorted & Hmem).
      cbn [CyclePhotos.indices CyclePhotos.next_idx] in *. subst n.
      assert (Hl : l = [j]).
      { apply sorted_singleton; auto. intros i Hi. apply Hmem in Hi.
        apply (proj1 (NoDup_nth_error tile_avg_colors) Hnd).
        - apply nth_error_Some. congruence.
        - congruence. }
      subst l. cbn [getitem nth_error List.length].
      change ((0 + 1) mod 1) with 0.
      now rewrite (set_get_same _ _ Hg).
    + unfold getitem. apply nth_error_None in Hj.
      assert (Hnone : nth_error tiles j = None) by (apply nth_error_None; lia).
      now rewrite Hnone.
  - unfold CyclePhotos.find_best_match_tile, ByTile.find_best_match_tile.
    rewrite Hq. destruct tiles as [|t0 tiles']; [reflexivity|].
    destruct tile_avg_colors as [|c avgs]; [discriminate|].
    destruct (group_tiles_first_group c avgs) as (tl & g & rest & _ & Hg & Hrest).
    now rewrite Hg, Hrest.
Qed.

(** When the tiles have pairwise distinct average colours, every group
    has one tile and cycling changes nothing: the cycling selector returns
    what the nearest-match selector returns for the same query, or raises
    the same exception, and leaves the dict as it was. *)
Theorem distinct_colors_cycling_is_nearest (query : kd_query) (tiles : list Image)
    (tile_avg_colors : list RGB) (x : RGB) :
  let m := CyclePhotos.group_tiles tile_avg_colors in
  NoDup tile_avg_colors ->
  List.length tiles = List.length tile_avg_colors ->
  CyclePhotos.keys m = tile_avg_colors /\
  CyclePhotos.find_best_match_tile query x (CyclePhotos.keys m)
    (CyclePhotos.keys m) tiles m =
  (ByTile.find_best_match_tile query x tile_avg_colors tiles, m).
Proof.
  cbv zeta. intros Hnd Hlen.
  rewrite (group_tiles_keys_NoDup Hnd). split; [reflexivity|].
  now apply distinct_colors_one_tile_groups.
Qed.

Lemma distinct_colors_cycling_is_nearest_witness :
  let tiles := [solid 2 2 BLUE; solid 2 2 RED] in
  let m := CyclePhotos.group_tiles [BLUE; RED] in
  CyclePhotos.keys m = [BLUE; RED] /\
  CyclePhotos.find_best_match_tile nearest_color_index (200, 0, 90)%Z
    (CyclePhotos.keys m) (CyclePhotos.keys m) tiles m =
  (ByTile.find_best_match_tile nearest_color_index (200, 0, 90)%Z [BLUE; RED] tiles, m).
Proof.
  apply (@distinct_colors_cycling_is_nearest nearest_color_index
           [solid 2 2 BLUE; solid 2 2 RED] [BLUE; RED] (200, 0, 90)%Z).
  - repeat constructor; simpl; intuition discriminate.
  - reflexivity.
Defined.

(** ** Whole runs of generate_mosaic *)

Section LoopFacts.

Variable Sel : Type.
Variable select : RGB -> Sel -> result (Image * Sel).
Variable Inv : Sel -> Prop.

Hypothesis select_total :
  forall x s, Inv s -> exists t s', select x s = Ok (t, s') /\ Inv s'.

(** The paste loop cannot raise when the selector cannot and every cell
    is a pixel of the reduced base image. *)
Lemma for_each_paint_cell_total (base_small_for_avg : Image)
    (tile_w tile_h : nat) (cells : list (nat * nat)) :
  (forall r c, In (r, c) cells -> in_bounds base_small_for_avg c r = true) ->
  forall canvas s ps, Inv s ->
    exists st, for_each (paint_cell select base_small_for_avg tile_w tile_h)
                        (canvas, s, ps) cells = Ok st.
Proof.
  induction cells as [|[r c] cells IH]; intros Hb canvas s ps Hs.
  - eexists. reflexivity.
  - cbn [for_each]. unfold paint_cell at 1, getpixel. cbn [fst snd].
    rewrite (Hb r c (or_introl eq_refl)). cbn [bind].
    destruct (select_total (pixels base_small_for_avg c r) Hs)
      as (t & s' & -> & Hs').
    cbn [bind]. apply IH; [|exact Hs'].
    intros r' c' Hin. apply Hb. now right.
Qed.

End LoopFacts.

Lemma grid_cells_in_bounds (img : Image) (grid_w grid_h r c : nat) :
  width img = grid_w -> height img = grid_h ->
  In (r, c) (grid_cells grid_w grid_h) -> in_bounds img c r = true.
Proof.
  intros Hw Hh Hin. apply grid_cells_in in Hin. unfold in_bounds.
  rewrite Hw, Hh. apply andb_true_iff. split; apply Nat.ltb_lt; lia.
Qed.

Lemma grid_dimension_positive (base tile : nat) (factor : float) (n : nat) :
  grid_dimension base tile factor = Ok n -> 0 < n.
Proof.
  unfold grid_dimension. intros H.
  apply bind_ok in H. destruct H as [q [_ H]].
  apply bind_ok in H. destruct H as [z [_ [= <-]]]. lia.
Qed.

Lemma ByTile_select_total (query : kd_query) (tiles : list Image) (x : RGB) (u : unit) :
  answers_in_range query -> tiles <> [] ->
  exists t u', ByTile.select query (map get_average_rgb tiles) tiles x u = Ok (t, u') /\ True.
Proof.
  intros Hq Hne. unfold ByTile.select, ByTile.find_best_match_tile, getitem.
  destruct (query (map get_average_rgb tiles) x) as [j|] eqn:Hqx.
  - apply Hq in Hqx. rewrite length_map in Hqx.
    destruct (nth_error tiles j) as [t|] eqn:Ht;
      [|apply nth_error_None in Ht; lia].
    exists t, u. split; [reflexivity | exact I].
  - destruct tiles as [|t0 tiles']; [congruence|].
    exists t0, u. split; [reflexivity | exact I].
Qed.

Lemma group_tiles_cursors_in_range (tiles : list Image) (avg_colors : list RGB) :
  List.length tiles = List.length avg_colors ->
  cursors_in_range tiles (CyclePhotos.group_tiles avg_colors).
Proof.
  intros Hlen c g Hg.
  destruct (group_tiles_groups avg_colors) as ((_ & _ & Hgrp) & _).
  destruct (Hgrp c g Hg) as (Hn & Hne & _ & Hmem). split.
  - rewrite Hn. destruct (CyclePhotos.indices g); simpl; [congruence | lia].
  - intros i Hi. apply Hmem in Hi. rewrite Hlen. apply nth_error_Some. congruence.
Qed.

Lemma CyclePhotos_select_total (query : kd_query) (unique_colors_list : list RGB)
    (tiles : list Image) (x : RGB) (m : CyclePhotos.GroupMap) :
  answers_in_range query -> tiles <> [] ->
  cursors_in_range tiles m ->
  exists t m',
    CyclePhotos.select query unique_colors_list unique_colors_list tiles x m
      = Ok (t, m') /\
    cursors_in_range tiles m'.
Proof.
  intros Hq Hne Hwf.
  destruct (@find_best_match_tile_ok query unique_colors_list tiles m x
              Hq Hwf Hne) as [t [Ht _]].
  pose proof (@find_best_match_tile_cursors query
                unique_colors_list unique_colors_list tiles x m Hwf) as Hwf'.
  unfold CyclePhotos.select.
  destruct (CyclePhotos.find_best_match_tile query x unique_colors_list
              unique_colors_list tiles m) as [r m'].
  cbn [fst snd] in *. subst r. exists t, m'. split; [reflexivity | exact Hwf'].
Qed.

Lemma group_tiles_not_empty (c : RGB) (avg_colors : list RGB) :
  CyclePhotos.group_tiles (c :: avg_colors) <> [].
Proof.
  intros E. destruct (group_tiles_groups (c :: avg_colors)) as ((_ & Hcov & _) & _).
  specialize (Hcov 0 c eq_refl). rewrite E in Hcov. discriminate.
Qed.

Section RunFacts.

Variable resample : Image -> nat * nat -> nat -> nat -> RGB.
Variable query : kd_query.
Variable fs : FileSystem.
Variables base_image_path tile_images_source output_path : string.
Variables tile_w tile_h : nat.
Variable grid_resolution_factor : float.

(** A failure of one of the first two steps is what the [try:] raises. *)
Lemma try_generate_mosaic_raises_early (e : exn) :
  open_base_image fs base_image_path = Raise e \/
  (exists base_image, open_base_image fs base_image_path = Ok base_image /\
     snd (load_tile_images resample fs tile_images_source (tile_w, tile_h)) = Raise e) ->
  ByTile.try_generate_mosaic resample query fs base_image_path tile_images_source
    output_path (tile_w, tile_h) grid_resolution_factor = Raise e /\
  CyclePhotos.try_generate_mosaic resample query fs base_image_path
    tile_images_source output_path (tile_w, tile_h) grid_resolution_factor
  = Raise e.
Proof.
  unfold ByTile.try_generate_mosaic, CyclePhotos.try_generate_mosaic.
  intros [-> | [base_image [-> ->]]]; split; reflexivity.
Qed.

Variable base_image : Image.
Variable tiles : list Image.
Variable avgs : list RGB.

Hypothesis base_opens : open_base_image fs base_image_path = Ok base_image.
Hypothesis tiles_load :
  snd (load_tile_images resample fs tile_images_source (tile_w, tile_h))
  = Ok (tiles, avgs).

(** After the base image and the tiles, the [try:] depends on the grid,
    the two images to hold, the paste loop and the saving only: the
    checks in between always pass. *)
Lemma ByTile_try_generate_mosaic_after_load :
  ByTile.try_generate_mosaic resample query fs base_image_path
    tile_images_source output_path (tile_w, tile_h) grid_resolution_factor =
  (grid_w <- grid_dimension (width base_image) tile_w grid_resolution_factor ;;
   grid_h <- grid_dimension (height base_image) tile_h grid_resolution_factor ;;
   base_small_for_avg <- resize resample fs base_image (grid_w, grid_h) ;;
   st <- assemble (ByTile.select query avgs tiles) fs base_small_for_avg
           grid_w grid_h tile_w tile_h tt ;;
   _ <- save_mosaic fs output_path (fst (fst st)) ;;
   Ok (mkMosaic (grid_w, grid_h) (fst (fst st)) (snd st))).
Proof.
  unfold ByTile.try_generate_mosaic. rewrite base_opens. cbn [bind].
  rewrite tiles_load. cbn [bind].
  destruct (load_tile_images_ok _ _ _ _ tiles_load) as (Hne & Havg & _ & _ & _).
  destruct avgs as [|c avgs'] eqn:Hav.
  { destruct tiles; [congruence | discriminate]. }
  cbn [bind]. rewrite <- Hav.
  destruct (grid_dimension (width base_image) tile_w grid_resolution_factor)
    as [grid_w|e]; [|reflexivity].
  cbn [bind].
  destruct (grid_dimension (height base_image) tile_h grid_resolution_factor)
    as [grid_h|e]; [|reflexivity].
  cbn [bind].
  destruct (resize resample fs base_image (grid_w, grid_h)) as [small|e];
    [|reflexivity].
  cbn [bind].
  match goal with
  | |- context [assemble ?sel ?f ?img ?gw ?gh ?tw ?th ?st] =>
      destruct (assemble sel f img gw gh tw th st) as [[[cv u] ps]|e]
  end; reflexivity.
Qed.

Lemma CyclePhotos_try_generate_mosaic_after_load :
  CyclePhotos.try_generate_mosaic resample query fs base_image_path
    tile_images_source output_path (tile_w, tile_h) grid_resolution_factor =
  (let m := CyclePhotos.group_tiles avgs in
   grid_w <- grid_dimension (width base_image) tile_w grid_resolution_factor ;;
   grid_h <- grid_dimension (height base_image) tile_h grid_resolution_factor ;;
   base_small_for_avg <- resize resample fs base_image (grid_w, grid_h) ;;
   st <- assemble (CyclePhotos.select query (CyclePhotos.keys m)
                     (CyclePhotos.keys m) tiles)
           fs base_small_for_avg grid_w grid_h tile_w tile_h m ;;
   _ <- save_mosaic fs output_path (fst (fst st)) ;;
   Ok (mkMosaic (grid_w, grid_h) (fst (fst st)) (snd st))).
Proof.
  unfold CyclePhotos.try_generate_mosaic. rewrite base_opens. cbn [bind].
  rewrite tiles_load. cbn [bind].
  destruct (load_tile_images_ok _ _ _ _ tiles_load) as (Hne & Havg & _ & _ & _).
  destruct tiles as [|t0 tiles'] eqn:Ht; [congruence|].
  cbn [bind]. rewrite <- Ht.
  assert (Hm : CyclePhotos.group_tiles avgs <> []).
  { rewrite Havg. cbn [map]. apply group_tiles_not_empty. }
  cbv zeta.
  destruct (CyclePhotos.group_tiles avgs) as [|kg m'] eqn:Hmap; [congruence|].
  cbn [bind CyclePhotos.keys map]. rewrite <- Hmap.
  destruct (grid_dimension (width base_image) tile_w grid_resolution_factor)
    as [grid_w|e]; [|reflexivity].
  cbn [bind].
  destruct (grid_dimension (height base_image) tile_h grid_resolution_factor)
    as [grid_h|e]; [|reflexivity].
  cbn [bind].
  destruct (resize resample fs base_image (grid_w, grid_h)) as [small|e];
    [|reflexivity].
  cbn [bind]. rewrite Hmap. change (fst kg :: map fst m') with (CyclePhotos.keys (kg :: m')).
  match goal with
  | |- context [assemble ?sel ?f ?img ?gw ?gh ?tw ?th ?st] =>
      destruct (assemble sel f img gw gh tw th st) as [[[cv u] ps]|e]
  end; reflexivity.
Qed.

End RunFacts.

Lemma assemble_total_ByTile (query : kd_query) (fs : FileSystem)
    (tiles : list Image) (base_small : Image) (grid_w grid_h tile_w tile_h : nat) :
  answers_in_range query -> tiles <> [] ->
  width base_small = grid_w -> height base_small = grid_h ->
  allocation_error fs (grid_w * tile_w, grid_h * tile_h) = None ->
  exists st, assemble (ByTile.select query (map get_average_rgb tiles) tiles)
               fs base_small grid_w grid_h tile_w tile_h tt = Ok st.
Proof.
  intros Hq Hne Hw Hh Halloc. unfold assemble, Image_new. rewrite Halloc.
  cbn [bind].
  apply for_each_paint_cell_total with (Inv := fun _ : unit => True).
  - intros x s _. apply ByTile_select_total; assumption.
  - intros r c. now apply grid_cells_in_bounds.
  - exact I.
Qed.

Lemma assemble_total_CyclePhotos (query : kd_query) (fs : FileSystem)
    (tiles : list Image) (avgs : list RGB) (base_small : Image)
    (grid_w grid_h tile_w tile_h : nat) :
  answers_in_range query -> tiles <> [] ->
  List.length tiles = List.length avgs ->
  width base_small = grid_w -> height base_small = grid_h ->
  allocation_error fs (grid_w * tile_w, grid_h * tile_h) = None ->
  exists st,
    assemble (CyclePhotos.select query
                (CyclePhotos.keys (CyclePhotos.group_tiles avgs))
                (CyclePhotos.keys (CyclePhotos.group_tiles avgs)) tiles)
      fs base_small grid_w grid_h tile_w tile_h (CyclePhotos.group_tiles avgs)
    = Ok st.
Proof.
  intros Hq Hne Hlen Hw Hh Halloc. unfold assemble, Image_new. rewrite Halloc.
  cbn [bind].
  apply for_each_paint_cell_total with (Inv := cursors_in_range tiles).
  - intros x s Hs. apply CyclePhotos_select_total; assumption.
  - intros r c. now apply grid_cells_in_bounds.
  - now apply group_tiles_cursors_in_range.
Qed.

(** The end of a [try:] from the grid on, when the paste loop cannot
    fail. *)
Lemma ends_after_grid (handled : exn -> outcome)
    (resample : Image -> nat * nat -> nat -> nat -> RGB) (fs : FileSystem)
    (output_path : string) (base_image : Image)
    (grid_w grid_h tile_w tile_h : nat) (Sel : Type)
    (select : RGB -> Sel -> result (Image * Sel)) (s : Sel) :
  0 < grid_w -> 0 < grid_h ->
  (forall base_small,
     width base_small = grid_w -> height base_small = grid_h ->
     allocation_error fs (grid_w * tile_w, grid_h * tile_h) = None ->
     exists st, assemble select fs base_small grid_w grid_h tile_w tile_h s = Ok st) ->
  let run :=
    match (base_small_for_avg <- resize resample fs base_image (grid_w, grid_h) ;;
           st <- assemble select fs base_small_for_avg grid_w grid_h tile_w tile_h s ;;
           _ <- save_mosaic fs output_path (fst (fst st)) ;;
           Ok (mkMosaic (grid_w, grid_h) (fst (fst st)) (snd st))) with
    | Ok mos => Saved mos
    | Raise e => handled e
    end in
  match allocation_error fs (grid_w, grid_h) with
  | Some e => run = handled e
  | None =>
      match allocation_error fs (grid_w * tile_w, grid_h * tile_h) with
      | Some e => run = handled e
      | None =>
          exists canvas ps,
            match save fs output_path canvas with
            | Some e => run = handled e
            | None => run = Saved (mkMosaic (grid_w, grid_h) canvas ps)
            end
      end
  end.
Proof.
  intros Hgw Hgh Htotal. cbv zeta. unfold resize. cbn [fst snd].
  destruct (Nat.ltb_spec 0 grid_w) as [_|]; [|lia].
  destruct (Nat.ltb_spec 0 grid_h) as [_|]; [|lia].
  cbn [andb].
  destruct (allocation_error fs (grid_w, grid_h)) as [e|]; [reflexivity|].
  cbn [bind].
  destruct (allocation_error fs (grid_w * tile_w, grid_h * tile_h)) as [e|] eqn:Ha.
  - unfold assemble, Image_new. rewrite Ha. reflexivity.
  - destruct (Htotal (mkImage grid_w grid_h (resample base_image (grid_w, grid_h)))
                eq_refl eq_refl eq_refl) as [[[canvas s'] ps] ->].
    cbn [bind fst snd]. exists canvas, ps. unfold save_mosaic.
    destruct (save fs output_path canvas); reflexivity.
Qed.

(** With an index that answers in range, a call of [generate_mosaic], of
    either script, ends exactly as the steps around its paste loop decide:
    the [except] clauses get what opening the base image, loading the
    tiles, computing the grid, holding the reduced base image, holding the
    canvas or, after the loop, saving raises, the first of them in this
    order, and otherwise a mosaic of the computed grid is saved; the paste
    loop itself cannot fail.  The nearest-match script then returns, the
    cycling script exits. *)
Theorem generate_mosaic_ends_as_prepared
    (resample : Image -> nat * nat -> nat -> nat -> RGB) (query : kd_query)
    (fs : FileSystem) (base_image_path tile_images_source output_path : string)
    (tile_size : nat * nat) (grid_resolution_factor : float) :
  answers_in_range query ->
  let loaded := snd (load_tile_images resample fs tile_images_source tile_size) in
  let grid_or_error := grid_of fs base_image_path tile_size grid_resolution_factor in
  ends_as_prepared Reported fs base_image_path output_path tile_size
    loaded grid_or_error
    (ByTile.generate_mosaic resample query fs base_image_path tile_images_source
       output_path tile_size grid_resolution_factor) /\
  ends_as_prepared Exited fs base_image_path output_path tile_size
    loaded grid_or_error
    (CyclePhotos.generate_mosaic resample query fs base_image_path
       tile_images_source output_path tile_size grid_resolution_factor).
Proof.
  intros Hq. cbv zeta. destruct tile_size as [tile_w tile_h].
  unfold ends_as_prepared, grid_of, ByTile.generate_mosaic,
    CyclePhotos.generate_mosaic. cbn [fst snd].
  destruct (open_base_image fs base_image_path) as [base_image|e] eqn:Hopen.
  2:{ destruct (@try_generate_mosaic_raises_early resample query fs
                  base_image_path tile_images_source output_path tile_w tile_h
                  grid_resolution_factor e (or_introl Hopen)) as [-> ->].
      split; reflexivity. }
  destruct (snd (load_tile_images resample fs tile_images_source (tile_w, tile_h)))
    as [[tiles avgs]|e] eqn:Hload.
  2:{ destruct (@try_generate_mosaic_raises_early resample query fs
                  base_image_path tile_images_source output_path tile_w tile_h
                  grid_resolution_factor e) as [-> ->]; [right; eauto|].
      split; reflexivity. }
  rewrite (@ByTile_try_generate_mosaic_after_load resample query fs
             base_image_path tile_images_source output_path tile_w tile_h
             grid_resolution_factor base_image tiles avgs Hopen Hload).
  rewrite (@CyclePhotos_try_generate_mosaic_after_load resample query fs
             base_image_path tile_images_source output_path tile_w tile_h
             grid_resolution_factor base_image tiles avgs Hopen Hload).
  cbv zeta. cbn [bind].
  destruct (load_tile_images_ok _ _ _ _ Hload) as (Hne & Havg & _ & _ & _).
  destruct (grid_dimension (width base_image) tile_w grid_resolution_factor)
    as [grid_w|e] eqn:Hgw; [|split; reflexivity].
  cbn [bind].
  destruct (grid_dimension (height base_image) tile_h grid_resolution_factor)
    as [grid_h|e] eqn:Hgh; [|split; reflexivity].
  cbn [bind].
  apply grid_dimension_positive in Hgw, Hgh. split.
  - apply (@ends_after_grid Reported resample fs output_path base_image
             grid_w grid_h tile_w tile_h); [exact Hgw | exact Hgh |].
    intros base_small Hw Hh Halloc. rewrite Havg.
    now apply assemble_total_ByTile.
  - apply (@ends_after_grid Exited resample fs output_path base_image
             grid_w grid_h tile_w tile_h); [exact Hgw | exact Hgh |].
    intros base_small Hw Hh Halloc.
    apply assemble_total_CyclePhotos; auto.
    rewrite Havg. now rewrite length_map.
Qed.

Lemma generate_mosaic_ends_as_prepared_witness :
  let loaded := snd (load_tile_images nearest_pixel sample_fs "tiles" (2, 2)) in
  let grid_or_error := grid_of sample_fs "base.png" (2, 2) 1%float in
  ends_as_prepared Reported sample_fs "base.png" "out/mosaic.png" (2, 2)
    loaded grid_or_error
    (ByTile.generate_mosaic nearest_pixel nearest_color_index sample_fs
       "base.png" "tiles" "out/mosaic.png" (2, 2) 1%float) /\
  ends_as_prepared Exited sample_fs "base.png" "out/mosaic.png" (2, 2)
    loaded grid_or_error
    (CyclePhotos.generate_mosaic nearest_pixel nearest_color_index sample_fs
       "base.png" "tiles" "out/mosaic.png" (2, 2) 1%float).
Proof.
  apply (@generate_mosaic_ends_as_prepared nearest_pixel nearest_color_index
           sample_fs "base.png" "tiles" "out/mosaic.png" (2, 2) 1%float).
  exact (exact_nearest_in_range nearest_color_index_exact).
Defined.

Example generate_mosaic_error_samples :
  ByTile.generate_mosaic nearest_pixel nearest_color_index sample_fs
    "base.png" "tiles" "out/mosaic.png" (2, 2) huge_factor
  = Reported OverflowError /\
  CyclePhotos.generate_mosaic nearest_pixel nearest_color_index sample_fs
    "base.png" "tiles" "out/mosaic.png" (0, 2) 1%float
  = Exited (ValueError NoValidTiles) /\
  ByTile.generate_mosaic nearest_pixel nearest_color_index sample_fs
    "missing.png" "tiles" "out/mosaic.png" (2, 2) 1%float = Reported OSError /\
  CyclePhotos.generate_mosaic nearest_pixel nearest_color_index sample_fs
    "base.png" "nowhere" "out/mosaic.png" (2, 2) 1%float
  = Exited (ValueError InvalidTileSource) /\
  ByTile.generate_mosaic nearest_pixel nearest_color_index sample_fs
    "base.png" "tiles" "out/mosaic.png" (2, 2) PrimFloat.nan
  = Reported (ValueError FloatNaNToInt) /\
  CyclePhotos.generate_mosaic nearest_pixel nearest_color_index sample_fs
    "base.png" "damaged.zip" "out/mosaic.png" (2, 2) 1%float
  = Exited BadZipFile /\
  ByTile.generate_mosaic nearest_pixel nearest_color_index sample_fs
    "base.png" "locked" "out/mosaic.png" (2, 2) 1%float = Reported OSError /\
  ByTile.generate_mosaic nearest_pixel nearest_color_index sample_fs
    "base.png" "tiles" "out/mosaic.png" (2, 2) 5000%float
  = Reported MemoryError /\
  CyclePhotos.generate_mosaic nearest_pixel nearest_color_index sample_fs
    "base.png" "tiles" "out/mosaic.png" (2, 2) 1500%float
  = Exited MemoryError /\
  ByTile.generate_mosaic nearest_pixel nearest_color_index sample_fs
    "base.png" "tiles" "/proc/mosaic.png" (2, 2) 1%float = Reported OSError.
Proof. repeat split; vm_compute; reflexivity. Qed.

(** ** What a run can raise *)



Section LoopRaises.

Variable Sel : Type.
Variable select : RGB -> Sel -> result (Image * Sel).

Hypothesis select_raises : forall x s e, select x s = Raise e -> e = IndexError.



End LoopRaises.





(** ** The two scripts on tiles of pairwise distinct colours *)

Section LoopSimulation.

Variables Sel1 Sel2 : Type.
Variable select1 : RGB -> Sel1 -> result (Image * Sel1).
Variable select2 : RGB -> Sel2 -> result (Image * Sel2).
Variable s1 : Sel1.
Variable s2 : Sel2.
Variable pick : RGB -> result Image.

Hypothesis select1_pick : forall x, select1 x s1 = (t <- pick x ;; Ok (t, s1)).
Hypothesis select2_pick : forall x, select2 x s2 = (t <- pick x ;; Ok (t, s2)).

(** Two selectors that pick the same tiles and keep their states paint
    the same canvas with the same pastes, or raise the same exception. *)
Lemma for_each_paint_cell_same (base_small_for_avg : Image)
    (tile_w tile_h : nat) (cells : list (nat * nat)) :
  forall canvas ps,
    (st <- for_each (paint_cell select1 base_small_for_avg tile_w tile_h)
             (canvas, s1, ps) cells ;;
     Ok (fst (fst st), snd st)) =
    (st <- for_each (paint_cell select2 base_small_for_avg tile_w tile_h)
             (canvas, s2, ps) cells ;;
     Ok (fst (fst st), snd st)).
Proof.
  induction cells as [|[r c] cells IH]; intros canvas ps; [reflexivity|].
  cbn [for_each]. unfold paint_cell at 1 3, getpixel. cbn [fst snd].
  destruct (in_bounds base_small_for_avg c r); cbn [bind]; [|reflexivity].
  rewrite select1_pick, select2_pick.
  destruct (pick (pixels base_small_for_avg c r)) as [t|e]; cbn [bind];
    [apply IH | reflexivity].
Qed.

Lemma assemble_same (fs : FileSystem) (base_small_for_avg : Image)
    (grid_w grid_h tile_w tile_h : nat) :
  (st <- assemble select1 fs base_small_for_avg grid_w grid_h tile_w tile_h s1 ;;
   Ok (fst (fst st), snd st)) =
  (st <- assemble select2 fs base_small_for_avg grid_w grid_h tile_w tile_h s2 ;;
   Ok (fst (fst st), snd st)).
Proof.
  unfold assemble.
  destruct (Image_new fs (grid_w * tile_w, grid_h * tile_h)) as [canvas|e];
    cbn [bind]; [|reflexivity].
  apply for_each_paint_cell_same.
Qed.

End LoopSimulation.

(** When the loaded tiles have pairwise distinct average colours, the
    [try:] blocks of the two scripts end the same way on the same inputs:
    the same mosaic saved, pasted in the same order, or the same exception
    for the [except] clauses.  The calls then differ in this only: where
    the nearest-match script reports the exception and returns, the
    cycling script reports it and exits. *)
Theorem distinct_colors_same_mosaic
    (resample : Image -> nat * nat -> nat -> nat -> RGB) (query : kd_query)
    (fs : FileSystem) (base_image_path tile_images_source output_path : string)
    (tile_size : nat * nat) (grid_resolution_factor : float) :
  (forall tiles avg_colors,
     snd (load_tile_images resample fs tile_images_source tile_size)
     = Ok (tiles, avg_colors) -> NoDup avg_colors) ->
  CyclePhotos.try_generate_mosaic resample query fs base_image_path
    tile_images_source output_path tile_size grid_resolution_factor =
  ByTile.try_generate_mosaic resample query fs base_image_path
    tile_images_source output_path tile_size grid_resolution_factor /\
  CyclePhotos.generate_mosaic resample query fs base_image_path
    tile_images_source output_path tile_size grid_resolution_factor =
  exits_where_reported
    (ByTile.generate_mosaic resample query fs base_image_path
       tile_images_source output_path tile_size grid_resolution_factor).
Proof.
  intros Hdistinct.
  assert (Htry : CyclePhotos.try_generate_mosaic resample query fs
                   base_image_path tile_images_source output_path tile_size
                   grid_resolution_factor =
                 ByTile.try_generate_mosaic resample query fs base_image_path
                   tile_images_source output_path tile_size
                   grid_resolution_factor).
  2:{ split; [exact Htry|].
      unfold CyclePhotos.generate_mosaic, ByTile.generate_mosaic. rewrite Htry.
      now destruct (ByTile.try_generate_mosaic _ _ _ _ _ _ _ _). }
  destruct tile_size as [tile_w tile_h].
  destruct (open_base_image fs base_image_path) as [base_image|e] eqn:Hopen.
  2:{ destruct (@try_generate_mosaic_raises_early resample query fs
                  base_image_path tile_images_source output_path tile_w tile_h
                  grid_resolution_factor e (or_introl Hopen)) as [-> ->].
      reflexivity. }
  destruct (snd (load_tile_images resample fs tile_images_source (tile_w, tile_h)))
    as [[tiles avgs]|e] eqn:Hload.
  2:{ destruct (@try_generate_mosaic_raises_early resample query fs
                  base_image_path tile_images_source output_path tile_w tile_h
                  grid_resolution_factor e)
        as [-> ->]; [right; eauto | reflexivity]. }
  rewrite (@ByTile_try_generate_mosaic_after_load resample query fs
             base_image_path tile_images_source output_path tile_w tile_h
             grid_resolution_factor base_image tiles avgs Hopen Hload).
  rewrite (@CyclePhotos_try_generate_mosaic_after_load resample query fs
             base_image_path tile_images_source output_path tile_w tile_h
             grid_resolution_factor base_image tiles avgs Hopen Hload).
  cbv zeta.
  pose proof (Hdistinct tiles avgs eq_refl) as Hnd.
  destruct (load_tile_images_ok _ _ _ _ Hload) as (_ & Havg & _).
  assert (Hlen : List.length tiles = List.length avgs)
    by (rewrite Havg; now rewrite length_map).
  rewrite (group_tiles_keys_NoDup Hnd).
  destruct (grid_dimension (width base_image) tile_w grid_resolution_factor)
    as [grid_w|e]; cbn [bind]; [|reflexivity].
  destruct (grid_dimension (height base_image) tile_h grid_resolution_factor)
    as [grid_h|e]; cbn [bind]; [|reflexivity].
  destruct (resize resample fs base_image (grid_w, grid_h)) as [small|e];
    cbn [bind]; [|reflexivity].
  pose proof (@assemble_same _ _
                (CyclePhotos.select query avgs avgs tiles)
                (ByTile.select query avgs tiles)
                (CyclePhotos.group_tiles avgs) tt
                (fun x => ByTile.find_best_match_tile query x avgs tiles)
                ltac:(intros x; unfold CyclePhotos.select;
                      now rewrite (distinct_colors_one_tile_groups query tiles x
                                     Hnd Hlen))
                ltac:(intros x; reflexivity)
                fs small grid_w grid_h tile_w tile_h) as Hsame.
  destruct (assemble (CyclePhotos.select query avgs avgs tiles) fs small
              grid_w grid_h tile_w tile_h (CyclePhotos.group_tiles avgs))
    as [[[cv1 m1] ps1]|e1];
    destruct (assemble (ByTile.select query avgs tiles) fs small
                grid_w grid_h tile_w tile_h tt) as [[[cv2 u2] ps2]|e2];
    cbn [bind fst snd] in *; try congruence.
  injection Hsame as <- <-. reflexivity.
Qed.

Lemma distinct_colors_same_mosaic_witness :
  CyclePhotos.try_generate_mosaic nearest_pixel nearest_color_index sample_fs
    "base.png" "tiles.zip" "out/mosaic.png" (2, 2) 1%float =
  ByTile.try_generate_mosaic nearest_pixel nearest_color_index sample_fs
    "base.png" "tiles.zip" "out/mosaic.png" (2, 2) 1%float /\
  CyclePhotos.generate_mosaic nearest_pixel nearest_color_index sample_fs
    "base.png" "tiles.zip" "out/mosaic.png" (2, 2) 1%float =
  exits_where_reported
    (ByTile.generate_mosaic nearest_pixel nearest_color_index sample_fs
       "base.png" "tiles.zip" "out/mosaic.png" (2, 2) 1%float).
Proof.
  apply (@distinct_colors_same_mosaic nearest_pixel nearest_color_index
           sample_fs "base.png" "tiles.zip" "out/mosaic.png" (2, 2) 1%float).
  intros tiles avg_colors H. vm_compute in H. injection H as _ <-.
  repeat constructor; simpl; intuition discriminate.
Defined.

(** ** adjustTilesBasic6Colors.py: which files are processed *)

Lemma append_assoc (a b c : string) : ((a ++ b) ++ c = a ++ (b ++ c))%string.
Proof. induction a as [|x a IH]; simpl; [reflexivity | now rewrite IH]. Qed.

Lemma lower_app (a b : string) : lower (a ++ b) = (lower a ++ lower b)%string.
Proof. induction a as [|c a IH]; simpl; [reflexivity | now rewrite IH]. Qed.

Lemma lower_split (s p e : string) :
  lower s = (p ++ e)%string ->
  exists a b, s = (a ++ b)%string /\ lower a = p /\ lower b = e.
Proof.
  revert s. induction p as [|c p IH]; intros s H.
  - exists EmptyString, s. auto.
  - destruct s as [|c' s]; [discriminate|]. simpl in H. injection H as Hc Hs.
    destruct (IH s Hs) as (a & b & -> & Ha & Hb).
    exists (String c' a), b. simpl. now rewrite Hc, Ha, Hb.
Qed.

Lemma lower_ascii_dot (c : ascii) :
  Ascii.eqb (lower_ascii c) "." = Ascii.eqb c ".".
Proof. destruct c as [[] [] [] [] [] [] [] []]; reflexivity. Qed.

Lemma no_dot_lower (s : string) : no_dot (lower s) = no_dot s.
Proof.
  induction s as [|c s IH]; simpl; [reflexivity|].
  now rewrite lower_ascii_dot, IH.
Qed.

Lemma In_eqb (x : string) (l : list string) :
  existsb (String.eqb x) l = true <-> In x l.
Proof.
  rewrite existsb_exists. split.
  - intros [y [Hin Heq]]. apply String.eqb_eq in Heq. now subst.
  - intros Hin. exists x. split; [exact Hin | apply String.eqb_refl].
Qed.

(** An extension that [main] accepts is a period and letters. *)
Lemma supported_extension_shape (ext : string) :
  In (lower ext) AdjustTiles.SUPPORTED_EXTENSIONS ->
  exists r, ext = String "." r /\ no_dot r = true.
Proof.
  intros Hin.
  assert (Hl : exists r', lower ext = String "." r' /\ no_dot r' = true).
  { unfold AdjustTiles.SUPPORTED_EXTENSIONS in Hin. simpl in Hin.
    repeat (destruct Hin as [<-|Hin]; [eexists; split; reflexivity|]).
    destruct Hin. }
  destruct Hl as (r' & Hl & Hr'). destruct ext as [|c r]; [discriminate|].
  simpl in Hl. injection Hl as Hc Hr.
  assert (Hdot : Ascii.eqb c "." = true)
    by (rewrite <- lower_ascii_dot, Hc; reflexivity).
  apply Ascii.eqb_eq in Hdot. subst c. exists r. split; [reflexivity|].
  now rewrite <- no_dot_lower, Hr.
Qed.

Lemma leading_dots_app (d rest : string) :
  only_dots d = true ->
  match rest with String c _ => Ascii.eqb c "." = false | EmptyString => True end ->
  AdjustTiles.leading_dots (d ++ rest) = (d, rest).
Proof.
  induction d as [|c d IH]; simpl; intros Hd Hrest.
  - destruct rest as [|c r]; [reflexivity|]. simpl. now rewrite Hrest.
  - apply andb_true_iff in Hd. destruct Hd as [Hc Hd].
    now rewrite Hc, (IH Hd Hrest).
Qed.

Lemma leading_dots_eq (s : string) :
  s = (fst (AdjustTiles.leading_dots s) ++ snd (AdjustTiles.leading_dots s))%string.
Proof.
  induction s as [|c s IH]; simpl; [reflexivity|].
  destruct (Ascii.eqb c "."); [|reflexivity].
  destruct (AdjustTiles.leading_dots s) as [dots rest]. simpl in *. now rewrite <- IH.
Qed.

Lemma rsplit_dot_no_dot (r : string) :
  no_dot r = true -> AdjustTiles.rsplit_dot r = None.
Proof.
  induction r as [|c r IH]; simpl; [reflexivity|].
  intros H. apply andb_true_iff in H. destruct H as [Hc Hr].
  rewrite (IH Hr). apply negb_true_iff in Hc. now rewrite Hc.
Qed.

Lemma rsplit_dot_app (a r : string) :
  no_dot r = true ->
  AdjustTiles.rsplit_dot (a ++ String "." r) = Some (a, String "." r).
Proof.
  intros Hr. induction a as [|c a IH].
  - simpl. now rewrite (@rsplit_dot_no_dot r Hr).
  - cbn [append AdjustTiles.rsplit_dot]. now rewrite IH.
Qed.

Lemma rsplit_dot_eq (s root ext : string) :
  AdjustTiles.rsplit_dot s = Some (root, ext) -> s = (root ++ ext)%string.
Proof.
  revert root ext. induction s as [|c s IH]; intros root ext; simpl; [discriminate|].
  destruct (AdjustTiles.rsplit_dot s) as [[r e]|].
  - intros [= <- <-]. simpl. now rewrite (IH r e eq_refl).
  - destruct (Ascii.eqb c "."); [|discriminate]. now intros [= <- <-].
Qed.

Lemma only_dots_false (s : string) :
  only_dots s = false ->
  exists d c t, s = (d ++ String c t)%string /\ only_dots d = true /\
                Ascii.eqb c "." = false.
Proof.
  induction s as [|c s IH]; simpl; [discriminate|].
  destruct (Ascii.eqb c ".") eqn:Hc.
  - simpl. intros H. destruct (IH H) as (d & c' & t & -> & Hd & Hc').
    exists (String c d), c', t. simpl. now rewrite Hc, Hd.
  - intros _. exists EmptyString, c, s. auto.
Qed.

(** The two cases of [splitext] on a name that ends in a period and
    letters. *)
Lemma splitext_root (root r : string) :
  only_dots root = false -> no_dot r = true ->
  AdjustTiles.splitext (root ++ String "." r) = (root, String "." r).
Proof.
  intros Hroot Hr. destruct (@only_dots_false root Hroot) as (d & c & t & -> & Hd & Hc).
  unfold AdjustTiles.splitext. rewrite append_assoc.
  rewrite (@leading_dots_app d (String c t ++ String "." r) Hd Hc).
  now rewrite (@rsplit_dot_app (String c t) r Hr).
Qed.

Lemma splitext_dots (root r : string) :
  only_dots root = true -> no_dot r = true ->
  AdjustTiles.splitext (root ++ String "." r) =
  ((root ++ String "." r)%string, EmptyString).
Proof.
  intros Hroot Hr. unfold AdjustTiles.splitext.
  assert (Hd : only_dots (root ++ ".") = true).
  { clear Hr. induction root as [|c root IH]; simpl in *; [reflexivity|].
    apply andb_true_iff in Hroot. destruct Hroot as [-> Hroot]. now apply IH. }
  assert (Happ : (root ++ String "." r = (root ++ ".") ++ r)%string)
    by (now rewrite append_assoc).
  rewrite Happ at 1. rewrite (@leading_dots_app (root ++ ".") r Hd).
  - now rewrite (@rsplit_dot_no_dot r Hr).
  - destruct r as [|c r]; [exact I|]. simpl in Hr.
    apply andb_true_iff in Hr. now apply negb_true_iff, Hr.
Qed.

Lemma splitext_eq (p : string) :
  p = (fst (AdjustTiles.splitext p) ++ snd (AdjustTiles.splitext p))%string.
Proof.
  unfold AdjustTiles.splitext. pose proof (leading_dots_eq p) as Hp.
  destruct (AdjustTiles.leading_dots p) as [dots rest]. cbn [fst snd] in Hp.
  destruct (AdjustTiles.rsplit_dot rest) as [[root ext]|] eqn:Hr; cbn [fst snd].
  - apply rsplit_dot_eq in Hr. rewrite append_assoc. congruence.
  - clear. induction p as [|c p IH]; simpl; congruence.
Qed.

(** [main] processes a file exactly when the test of
    [prepare_directories] passes on its name and the part of the name
    before the extension is not made of periods only: a name such as
    [.png] lets [prepare_directories] go on and is then skipped. *)
Theorem supported_is_narrower_than_found (filename : string) :
  AdjustTiles.supported filename = true <->
  endswith_any (lower filename) AdjustTiles.SUPPORTED_EXTENSIONS = true /\
  forall root ext,
    filename = (root ++ ext)%string ->
    In (lower ext) AdjustTiles.SUPPORTED_EXTENSIONS ->
    only_dots root = false.
Proof.
  unfold AdjustTiles.supported. split.
  - intros Hsup. pose proof (splitext_eq filename) as Hname.
    destruct (AdjustTiles.splitext filename) as [base_name ext0] eqn:Hsplit.
    cbn [fst snd] in Hname. apply In_eqb in Hsup. split.
    + unfold endswith_any. apply existsb_exists. exists (lower ext0).
      split; [exact Hsup|]. apply endswith_iff. exists (lower base_name).
      now rewrite Hname, lower_app.
    + intros root ext -> Hin.
      destruct (@supported_extension_shape _ Hin) as (r & -> & Hr).
      destruct (only_dots root) eqn:Hroot; [|reflexivity].
      rewrite (@splitext_dots _ _ Hroot Hr) in Hsplit.
      injection Hsplit as _ <-. simpl in Hsup. intuition discriminate.
  - intros [Hfound Hroot]. unfold endswith_any in Hfound.
    apply existsb_exists in Hfound. destruct Hfound as (suffix & Hin & Hends).
    apply endswith_iff in Hends. destruct Hends as [p Hp].
    destruct (@lower_split _ _ _ Hp) as (root & ext & -> & _ & <-).
    specialize (Hroot root ext eq_refl Hin).
    destruct (@supported_extension_shape _ Hin) as (r & -> & Hr).
    rewrite (@splitext_root _ _ Hroot Hr). now apply In_eqb.
Qed.

Example supported_samples :
  map AdjustTiles.splitext ["photo.PNG"; ".png"; "a.tar.gz"; "..x.jpeg"; "plain"]%string
  = [("photo", ".PNG"); (".png", ""); ("a.tar", ".gz"); ("..x", ".jpeg");
     ("plain", "")]%string /\
  map AdjustTiles.supported ["photo.PNG"; ".png"; "a.tar.gz"; "..x.jpeg"; "plain"]%string
  = [true; false; false; true; false] /\
  AdjustTiles.image_files_found [".png"]%string = true /\
  forall copy2 adjust_image_color,
    AdjustTiles.processed_files_count
      (AdjustTiles.process_all copy2 adjust_image_color [".png"]%string) = 0.
Proof. repeat split. Qed.

(** ** adjustTilesBasic6Colors.py: the files it writes *)

Lemma supported_splits (filename : string) :
  AdjustTiles.supported filename = true ->
  filename = (fst (AdjustTiles.splitext filename) ++
              snd (AdjustTiles.splitext filename))%string /\
  In (lower (snd (AdjustTiles.splitext filename))) AdjustTiles.SUPPORTED_EXTENSIONS /\
  only_dots (fst (AdjustTiles.splitext filename)) = false.
Proof.
  unfold AdjustTiles.supported. intros Hsup.
  pose proof (splitext_eq filename) as Hname.
  destruct (AdjustTiles.splitext filename) as [base_name ext] eqn:Hsplit.
  cbn [fst snd] in *. apply In_eqb in Hsup.
  split; [exact Hname|]. split; [exact Hsup|].
  destruct (@supported_extension_shape _ Hsup) as (r & -> & Hr).
  destruct (only_dots base_name) eqn:Hroot; [|reflexivity].
  rewrite Hname in Hsplit at 1.
  rewrite (@splitext_dots _ _ Hroot Hr) in Hsplit. discriminate.
Qed.

Section Written.

Variable copy2 : string -> string -> bool.
Variable adjust_image_color : string -> string -> string -> RGB -> bool.

Lemma colorize_provenance (filename base_name ext name : string)
    (palette : list (string * RGB)) :
  forall out,
    In name (fold_left (AdjustTiles.colorize_step adjust_image_color
                          filename base_name ext) palette out) ->
    In name out \/
    exists item, In item palette /\
                 name = (base_name ++ "_" ++ fst item ++ ext)%string.
Proof.
  induction palette as [|[color_name target_rgb] palette IH]; intros out;
    [now left|].
  cbn [fold_left]. intros Hin. apply IH in Hin. clear IH.
  destruct Hin as [Hin | (item & Hitem & ->)].
  - unfold AdjustTiles.colorize_step in Hin.
    destruct (adjust_image_color _ _ _ _); [|now left].
    apply in_app_or in Hin. destruct Hin as [Hin | [<- | []]]; [now left|].
    right. exists (color_name, target_rgb). split; [now left | reflexivity].
  - right. exists item. split; [now right | reflexivity].
Qed.

(** Every name written is the name of an input that [main] accepts or
    that name with a colour put in before the extension. *)
Lemma written_provenance (input_filenames : list string) (name : string) :
  forall st,
    In name (AdjustTiles.written
               (fold_left (AdjustTiles.process copy2 adjust_image_color)
                  input_filenames st)) ->
    In name (AdjustTiles.written st) \/
    exists filename,
      In filename input_filenames /\ AdjustTiles.supported filename = true /\
      (name = filename \/
       exists item, In item AdjustTiles.COLOR_PALETTE /\
                    name = (fst (AdjustTiles.splitext filename) ++ "_" ++
                            fst item ++
                            snd (AdjustTiles.splitext filename))%string).
Proof.
  induction input_filenames as [|filename input_filenames IH]; intros st;
    [now left|].
  cbn [fold_left]. intros Hin. apply IH in Hin. clear IH.
  destruct Hin as [Hin | (f & Hf & Hrest)].
  2:{ right. exists f. split; [now right | exact Hrest]. }
  unfold AdjustTiles.process in Hin.
  destruct (AdjustTiles.splitext filename) as [base_name ext] eqn:Hsplit.
  destruct (existsb (String.eqb (lower ext)) AdjustTiles.SUPPORTED_EXTENSIONS)
    eqn:Hsup; cbn [negb] in Hin; [|now left].
  destruct (copy2 _ _); cbn [AdjustTiles.written] in Hin; [|now left].
  apply colorize_provenance in Hin.
  assert (Hs : AdjustTiles.supported filename = true)
    by (unfold AdjustTiles.supported; now rewrite Hsplit).
  destruct Hin as [Hin | (item & Hitem & ->)].
  - apply in_app_or in Hin. destruct Hin as [Hin | [<- | []]]; [now left|].
    right. exists filename. split; [now left|]. split; [exact Hs | now left].
  - right. exists filename. split; [now left|]. split; [exact Hs|].
    right. exists item. rewrite Hsplit. split; [exact Hitem | reflexivity].
Qed.

End Written.

Lemma is_image_name_app (stem ext : string) :
  In (lower ext) AdjustTiles.SUPPORTED_EXTENSIONS ->
  is_image_name (stem ++ ext) = true.
Proof.
  intros Hin. unfold is_image_name, endswith_any. apply existsb_exists.
  exists (lower ext). split; [exact Hin|].
  apply endswith_iff. exists (lower stem). apply lower_app.
Qed.

Lemma prefix_app_other (c : ascii) (p b e x : string) :
  forallb (fun a => negb (Ascii.eqb a c)) (list_ascii_of_string p) = true ->
  String.prefix p (b ++ e) = false ->
  String.prefix p (b ++ String c x) = false.
Proof.
  revert b. induction p as [|a p IH]; intros b Hp Hpre.
  - destruct (b ++ e)%string; discriminate.
  - cbn [list_ascii_of_string forallb] in Hp. apply andb_true_iff in Hp.
    destruct Hp as [Ha Hp]. apply negb_true_iff in Ha.
    destruct b as [|b0 b]; cbn [append String.prefix] in *.
    + destruct (Ascii.ascii_dec a c) as [->|_]; [|reflexivity].
      now rewrite Ascii.eqb_refl in Ha.
    + destruct (Ascii.ascii_dec a b0); [now apply IH | reflexivity].
Qed.

(** Putting a colour in before the extension does not make a name begin
    with [__MACOSX]. *)
Lemma colored_name_not_macosx (base_name ext : string) (item : string * RGB) :
  only_dots base_name = false ->
  In item AdjustTiles.COLOR_PALETTE ->
  startswith (base_name ++ ext) "__MACOSX" = false ->
  startswith (base_name ++ "_" ++ fst item ++ ext) "__MACOSX" = false.
Proof.
  unfold startswith. intros Hb Hitem Hpre.
  destruct base_name as [|c0 b]; [discriminate|]. clear Hb.
  cbn [append String.prefix] in *.
  destruct (Ascii.ascii_dec "_" c0) as [<-|_]; [|reflexivity].
  destruct b as [|c1 b]; cbn [append String.prefix] in *.
  - unfold AdjustTiles.COLOR_PALETTE in Hitem. simpl in Hitem.
    repeat (destruct Hitem as [<-|Hitem]; [reflexivity|]). destruct Hitem.
  - destruct (Ascii.ascii_dec "_" c1) as [<-|_]; [|reflexivity].
    now apply (@prefix_app_other "_" "MACOSX" b ext).
Qed.

(** Every file that [main] writes has a name that the loaders of the
    mosaic scripts take as a candidate when they read a directory, and,
    provided no input name begins with [__MACOSX], also when they read
    the archive. *)
Theorem written_names_are_tile_candidates
    (copy2 : string -> string -> bool)
    (adjust_image_color : string -> string -> string -> RGB -> bool)
    (input_filenames : list string) (name : string) :
  In name (AdjustTiles.written
             (AdjustTiles.process_all copy2 adjust_image_color input_filenames)) ->
  is_image_name name = true /\
  ((forall filename, In filename input_filenames ->
                     startswith filename "__MACOSX" = false) ->
   is_zip_image_name name = true).
Proof.
  unfold AdjustTiles.process_all. intros Hin.
  apply written_provenance in Hin. cbn [AdjustTiles.written] in Hin.
  destruct Hin as [[] | (filename & Hf & Hsup & Hname)].
  destruct (supported_splits _ Hsup) as (Hsplit & Hext & Hroot).
  assert (Himg : is_image_name name = true).
  { destruct Hname as [-> | (item & _ & ->)].
    - rewrite Hsplit. now apply is_image_name_app.
    - rewrite <- !append_assoc. now apply is_image_name_app. }
  split; [exact Himg|]. intros Hmac. specialize (Hmac filename Hf).
  unfold is_zip_image_name. rewrite Himg. cbn [andb]. apply negb_true_iff.
  destruct Hname as [-> | (item & Hitem & ->)]; [exact Hmac|].
  apply colored_name_not_macosx; [exact Hroot | exact Hitem |].
  now rewrite <- Hsplit.
Qed.

Lemma written_names_are_tile_candidates_witness :
  is_image_name "photo_red.PNG" = true /\
  ((forall filename, In filename ["photo.PNG"; "notes.txt"]%string ->
                     startswith filename "__MACOSX" = false) ->
   is_zip_image_name "photo_red.PNG" = true).
Proof.
  apply (@written_names_are_tile_candidates (fun _ _ => true)
           (fun _ _ _ _ => true) ["photo.PNG"; "notes.txt"]%string "photo_red.PNG").
  vm_compute. right. left. reflexivity.
Defined.

Example written_by_main :
  AdjustTiles.written
    (AdjustTiles.process_all (fun _ _ => true)
       (fun _ _ color_name _ => negb (String.eqb color_name "blue"))
       ["photo.PNG"; "notes.txt"; ".png"]%string)
  = ["photo.PNG"; "photo_red.PNG"; "photo_yellow.PNG"; "photo_black.PNG";
     "photo_white.PNG"; "photo_green.PNG"; "photo_magenta.PNG"]%string.
Proof. reflexivity. Qed.

(** ** adjustTilesBasic6Colors.py: what prepare_directories may remove *)

Lemma ensure_output_log (w : AdjustTiles.World) (log : list AdjustTiles.action)
    (exists_now : bool) :
  exists ok_or_nothing,
    fst (AdjustTiles.ensure_output w log exists_now) = (log ++ ok_or_nothing)%list /\
    (ok_or_nothing = [] \/ exists ok, ok_or_nothing = [AdjustTiles.Makedirs ok]).
Proof.
  unfold AdjustTiles.ensure_output.
  destruct exists_now; cbn [negb]; [exists []; rewrite app_nil_r; auto|].
  destruct (AdjustTiles.makedirs w); eexists; split; try reflexivity; eauto.
Qed.

(** [prepare_directories] removes the output directory only after the
    answer [Y] to its first question; an archive that was asked for and
    failed ends the call before anything is removed; and the call lets
    [main] go on only when the output directory held no regular file or
    has been removed. *)
Theorem prepare_directories_keeps_files_safe (w : AdjustTiles.World)
    (answers : list AdjustTiles.choice) :
  let log := fst (AdjustTiles.prepare_directories w answers) in
  let ending := snd (AdjustTiles.prepare_directories w answers) in
  (forall ok, In (AdjustTiles.Rmtree ok) log ->
     AdjustTiles.output_files w <> [] /\
     exists rest, AdjustTiles.ask answers = Some (true, rest)) /\
  (In (AdjustTiles.Archive false) log ->
     log = [AdjustTiles.Archive false] /\ ending = AdjustTiles.Return false) /\
  (ending = AdjustTiles.Return true ->
     AdjustTiles.output_files w = [] \/ In (AdjustTiles.Rmtree true) log).
Proof.
  cbv zeta. unfold AdjustTiles.prepare_directories, AdjustTiles.output_files.
  destruct (AdjustTiles.input_isdir w); cbn [negb fst snd];
    [|repeat split; intros; try contradiction; discriminate].
  destruct (AdjustTiles.input_listdir w) as [input_files|]; cbn [fst snd];
    [|repeat split; intros; try contradiction; discriminate].
  destruct (AdjustTiles.image_files_found input_files); cbn [negb fst snd];
    [|repeat split; intros; try contradiction; discriminate].
  assert (Hnone : forall exists_now,
            let out := AdjustTiles.ensure_output w [] exists_now in
            (forall ok, ~ In (AdjustTiles.Rmtree ok) (fst out)) /\
            ~ In (AdjustTiles.Archive false) (fst out)).
  { intros exists_now. cbv zeta.
    destruct (ensure_output_log w [] exists_now) as (l & -> & [-> | [ok ->]]);
      cbn; (split; [intros ok' H | intros H]); intuition discriminate. }
  destruct (AdjustTiles.output_isdir w).
  2:{ destruct (Hnone (AdjustTiles.output_exists w)) as [Hr Ha].
      split; [intros ok H; now apply Hr in H|]. split; [intros H; now apply Ha in H|].
      now left. }
  destruct (AdjustTiles.output_listdir w) as [entries|]; cbn [option_map fst snd];
    [|repeat split; intros; try contradiction; try discriminate; now left].
  destruct (filter (AdjustTiles.output_isfile w) entries) as [|f files] eqn:Hfiles.
  { destruct (Hnone (AdjustTiles.output_exists w)) as [Hr Ha].
    split; [intros ok H; now apply Hr in H|]. split; [intros H; now apply Ha in H|].
    now left. }
  destruct (AdjustTiles.ask answers) as [[[] answers1]|]; cbn [fst snd];
    [| repeat split; intros; try contradiction; discriminate
     | repeat split; intros; try contradiction; discriminate].
  destruct (AdjustTiles.ask answers1) as [[should_archive answers2]|];
    cbn [fst snd]; [|repeat split; intros; try contradiction; discriminate].
  destruct (if should_archive && (200 <? List.length (f :: files))
            then AdjustTiles.ask answers2 else Some (should_archive, answers2))
    as [[should_archive' answers3]|];
    [|repeat split; intros; try contradiction; discriminate].
  destruct should_archive'; cbn [andb].
  - destruct (AdjustTiles.archive_existing_output w); cbn [negb fst snd].
    + destruct (AdjustTiles.rmtree w).
      * destruct (ensure_output_log w
                    ([AdjustTiles.Archive true] ++ [AdjustTiles.Rmtree true]) false)
          as (l & -> & Hl).
        split; [intros ok _; split; [discriminate | eauto]|].
        split; [|intros _; right; cbn; auto].
        intros H. cbn in H.
        destruct Hl as [-> | [ok ->]]; cbn in H; intuition discriminate.
      * cbn. split; [intros ok _; split; [discriminate | eauto]|].
        split; intros H; [intuition discriminate | discriminate].
    + cbn. split; [intros ok H; intuition discriminate|].
      split; [auto | discriminate].
  - cbn [app fst snd]. destruct (AdjustTiles.rmtree w).
    + destruct (ensure_output_log w [AdjustTiles.Rmtree true] false)
        as (l & -> & Hl).
      split; [intros ok _; split; [discriminate | eauto]|].
      split; [|intros _; right; cbn; auto].
      intros H. cbn in H.
      destruct Hl as [-> | [ok ->]]; cbn in H; intuition discriminate.
    + cbn. split; [intros ok _; split; [discriminate | eauto]|].
      split; intros H; [intuition discriminate | discriminate].
Qed.

Example prepare_directories_samples :
  let w ok := {| AdjustTiles.input_isdir := true;
                 AdjustTiles.input_listdir := Some ["a.png"]%string;
                 AdjustTiles.output_isdir := true;
                 AdjustTiles.output_listdir := Some ["old.png"; "sub"]%string;
                 AdjustTiles.output_isfile := fun f => String.eqb f "old.png";
                 AdjustTiles.output_exists := true;
                 AdjustTiles.archive_existing_output := ok;
                 AdjustTiles.rmtree := true;
                 AdjustTiles.makedirs := true |} in
  AdjustTiles.prepare_directories (w true)
    [AdjustTiles.AnswerOther; AdjustTiles.AnswerY; AdjustTiles.AnswerY]
  = ([AdjustTiles.Archive true; AdjustTiles.Rmtree true; AdjustTiles.Makedirs true],
     AdjustTiles.Return true) /\
  AdjustTiles.prepare_directories (w false)
    [AdjustTiles.AnswerY; AdjustTiles.AnswerY]
  = ([AdjustTiles.Archive false], AdjustTiles.Return false) /\
  AdjustTiles.prepare_directories (w true)
    [AdjustTiles.AnswerY; AdjustTiles.AnswerN]
  = ([AdjustTiles.Rmtree true; AdjustTiles.Makedirs true], AdjustTiles.Return true) /\
  AdjustTiles.prepare_directories (w true) [AdjustTiles.AnswerN]
  = ([], AdjustTiles.Return false) /\
  AdjustTiles.prepare_directories (w true) [AdjustTiles.AnswerY]
  = ([], AdjustTiles.EOFError).
Proof. repeat split. Qed.
